(** * MPM 3D (mpm_3d_starter.py): a shallow embedding and its properties

    The simulation is an explicit Material Point Method solver written as
    Taichi kernels over global fields.  The embedding follows the source
    kernel by kernel:

    - a Taichi [float] is modelled by an exact rational ([Q]); rounding is
      not modelled inside the kernels, so every equation about them is the
      exact-arithmetic reading of the corresponding floating-point
      statement;
    - the floats of Python scope, with which [init_vols] decides how many
      particles each volume gets, are binary64 numbers with their rounding,
      infinities and NaN (the specification [SpecFloat] of the Standard
      Library, at precision 53 and maximal exponent 1024);
    - a Python [int] is a [Z]; an [int] argument of a kernel is taken
      modulo [2^32], as the launch does;
    - a field [ti.field(..., n)] is a total function from its index; cells
      outside the declared shape stand for whatever storage lies there and
      are never read by the properties below; a launch of [init_cube_vol]
      that would write such a cell has no result in this model;
    - a kernel whose iterations write only their own cell is the pointwise
      update of the fields; the scatter kernel [substep_p2g], whose
      iterations write shared grid nodes, is a fold over the particles;
    - [ti.exp], [ti.svd] and [ti.random] belong to Taichi and are parameters
      of the development. *)

From Stdlib Require Import ZArith QArith Qminmax Qround List Bool Lia Lqa Setoid FinFun.
From Stdlib Require Import Floats.SpecFloat.
Import ListNotations.

Open Scope Z_scope.
Open Scope Q_scope.

(** ** Numbers *)

(** [.cast(int)] of a float: truncation toward zero. *)
Definition cast_int (q : Q) : Z := Z.quot (Qnum q) (Zpos (Qden q)).

(** [.cast(float)] of an int. *)
Definition cast_float (z : Z) : Q := inject_Z z.

(** [a > 0], [a < 0] on floats, as booleans. *)
Definition Qltb (a b : Q) : bool := negb (Qle_bool b a).

(** ** Vectors and matrices of dimension 3 *)

Record Vec : Type := mkVec { v0 : Q; v1 : Q; v2 : Q }.
Record IVec : Type := mkIVec { i0 : Z; i1 : Z; i2 : Z }.
Record Mat : Type := mkMat { r0 : Vec; r1 : Vec; r2 : Vec }.

(** [a[d]] for a static index [d]. *)
Definition vnth (a : Vec) (d : nat) : Q :=
  match d with O => v0 a | S O => v1 a | _ => v2 a end.

Definition inth (a : IVec) (d : nat) : Z :=
  match d with O => i0 a | S O => i1 a | _ => i2 a end.

Definition vset (a : Vec) (d : nat) (q : Q) : Vec :=
  match d with
  | O => mkVec q (v1 a) (v2 a)
  | S O => mkVec (v0 a) q (v2 a)
  | _ => mkVec (v0 a) (v1 a) q
  end.

Definition vmap (f : Q -> Q) (a : Vec) : Vec :=
  mkVec (f (v0 a)) (f (v1 a)) (f (v2 a)).

Definition vmap2 (f : Q -> Q -> Q) (a b : Vec) : Vec :=
  mkVec (f (v0 a) (v0 b)) (f (v1 a) (v1 b)) (f (v2 a) (v2 b)).

Definition vzero : Vec := mkVec 0 0 0.
Definition vadd : Vec -> Vec -> Vec := vmap2 Qplus.
Definition vsub : Vec -> Vec -> Vec := vmap2 Qminus.
Definition vmul : Vec -> Vec -> Vec := vmap2 Qmult.
Definition vscale (s : Q) : Vec -> Vec := vmap (Qmult s).

Definition vcast_int (a : Vec) : IVec :=
  mkIVec (cast_int (v0 a)) (cast_int (v1 a)) (cast_int (v2 a)).

Definition vcast_float (a : IVec) : Vec :=
  mkVec (cast_float (i0 a)) (cast_float (i1 a)) (cast_float (i2 a)).

Definition iadd (a b : IVec) : IVec :=
  mkIVec (i0 a + i0 b)%Z (i1 a + i1 b)%Z (i2 a + i2 b)%Z.

Definition ivec_eqb (a b : IVec) : bool :=
  (i0 a =? i0 b)%Z && (i1 a =? i1 b)%Z && (i2 a =? i2 b)%Z.

Definition mget (m : Mat) (i j : nat) : Q :=
  vnth (match i with O => r0 m | S O => r1 m | _ => r2 m end) j.

Definition mset (m : Mat) (i j : nat) (q : Q) : Mat :=
  match i with
  | O => mkMat (vset (r0 m) j q) (r1 m) (r2 m)
  | S O => mkMat (r0 m) (vset (r1 m) j q) (r2 m)
  | _ => mkMat (r0 m) (r1 m) (vset (r2 m) j q)
  end.

Definition mzero : Mat := mkMat vzero vzero vzero.
Definition midentity : Mat := mkMat (mkVec 1 0 0) (mkVec 0 1 0) (mkVec 0 0 1).

Definition mmap2 (f : Q -> Q -> Q) (a b : Mat) : Mat :=
  mkMat (vmap2 f (r0 a) (r0 b)) (vmap2 f (r1 a) (r1 b)) (vmap2 f (r2 a) (r2 b)).

Definition madd : Mat -> Mat -> Mat := mmap2 Qplus.
Definition msub : Mat -> Mat -> Mat := mmap2 Qminus.

Definition mscale (s : Q) (a : Mat) : Mat :=
  mkMat (vscale s (r0 a)) (vscale s (r1 a)) (vscale s (r2 a)).

Definition vdot (a b : Vec) : Q := v0 a * v0 b + v1 a * v1 b + v2 a * v2 b.

Definition mcol (a : Mat) (j : nat) : Vec :=
  mkVec (vnth (r0 a) j) (vnth (r1 a) j) (vnth (r2 a) j).

Definition mtranspose (a : Mat) : Mat :=
  mkMat (mcol a 0) (mcol a 1) (mcol a 2).

(** [a @ x] *)
Definition mvec (a : Mat) (x : Vec) : Vec :=
  mkVec (vdot (r0 a) x) (vdot (r1 a) x) (vdot (r2 a) x).

(** [a @ b] *)
Definition mmul (a b : Mat) : Mat :=
  let bt := mtranspose b in
  mkMat (mvec bt (r0 a)) (mvec bt (r1 a)) (mvec bt (r2 a)).

(** [a.outer_product(b)] *)
Definition outer_product (a b : Vec) : Mat :=
  mkMat (vscale (v0 a) b) (vscale (v1 a) b) (vscale (v2 a) b).

Definition trace (a : Mat) : Q := mget a 0 0 + mget a 1 1 + mget a 2 2.

(** Equality of vectors and matrices up to the value of their entries. *)
Definition veq (a b : Vec) : Prop :=
  v0 a == v0 b /\ v1 a == v1 b /\ v2 a == v2 b.

Definition meq (a b : Mat) : Prop :=
  veq (r0 a) (r0 b) /\ veq (r1 a) (r1 b) /\ veq (r2 a) (r2 b).

(** ** Simulation and discretization constants (lines 6-22, 40-43) *)

Definition dim : Z := 3.
Definition quality : Z := 4.
Definition n_particles : Z := 8192 * quality ^ dim.
Definition n_grid : Z := 32 * quality.
Definition dt : Q := 1e-4.
Definition dx : Q := 1 / inject_Z n_grid.
Definition inv_dx : Q := 1 / dx.
Definition p_vol : Q := (dx * 0.5) ^ 2.
Definition p_rho : Q := 1.
Definition p_mass : Q := p_vol * p_rho.
Definition E : Q := 0.1e4.
Definition nu : Q := 0.2.
Definition mu_0 : Q := E / (2 * (1 + nu)).
Definition lambda_0 : Q := E * nu / ((1 + nu) * (1 - 2 * nu)).
Definition bound : Z := 3.
Definition steps : Z := 15.
Definition gravity : Q := -9.8.

Definition WATER : Z := 0.
Definition JELLY : Z := 1.
Definition SNOW : Z := 2.

(** ** Fields (lines 24-38)

    One record holds every global field of the program.  [colors] is
    written only by the GUI and is left out. *)

Record Sim : Type := mkSim {
  x : Z -> Vec;                      (* position *)
  v : Z -> Vec;                      (* velocity *)
  C : Z -> Mat;                      (* The APIC-related matrix *)
  F : Z -> Mat;                      (* deformation gradient *)
  Jp : Z -> Q;
  grid_v : IVec -> Vec;
  grid_m : IVec -> Q;
  materials : Z -> Z;
  is_used : Z -> Z;                  (* should be a boolean field *)
  colors_random : Z -> Q * Q * Q * Q
}.

Definition set_x (st : Sim) (f : Z -> Vec) : Sim :=
  mkSim f (v st) (C st) (F st) (Jp st) (grid_v st) (grid_m st)
        (materials st) (is_used st) (colors_random st).
Definition set_v (st : Sim) (f : Z -> Vec) : Sim :=
  mkSim (x st) f (C st) (F st) (Jp st) (grid_v st) (grid_m st)
        (materials st) (is_used st) (colors_random st).
Definition set_C (st : Sim) (f : Z -> Mat) : Sim :=
  mkSim (x st) (v st) f (F st) (Jp st) (grid_v st) (grid_m st)
        (materials st) (is_used st) (colors_random st).
Definition set_F (st : Sim) (f : Z -> Mat) : Sim :=
  mkSim (x st) (v st) (C st) f (Jp st) (grid_v st) (grid_m st)
        (materials st) (is_used st) (colors_random st).
Definition set_Jp (st : Sim) (f : Z -> Q) : Sim :=
  mkSim (x st) (v st) (C st) (F st) f (grid_v st) (grid_m st)
        (materials st) (is_used st) (colors_random st).
Definition set_grid_v (st : Sim) (f : IVec -> Vec) : Sim :=
  mkSim (x st) (v st) (C st) (F st) (Jp st) f (grid_m st)
        (materials st) (is_used st) (colors_random st).
Definition set_grid_m (st : Sim) (f : IVec -> Q) : Sim :=
  mkSim (x st) (v st) (C st) (F st) (Jp st) (grid_v st) f
        (materials st) (is_used st) (colors_random st).
Definition set_materials (st : Sim) (f : Z -> Z) : Sim :=
  mkSim (x st) (v st) (C st) (F st) (Jp st) (grid_v st) (grid_m st)
        f (is_used st) (colors_random st).
Definition set_is_used (st : Sim) (f : Z -> Z) : Sim :=
  mkSim (x st) (v st) (C st) (F st) (Jp st) (grid_v st) (grid_m st)
        (materials st) f (colors_random st).
Definition set_colors_random (st : Sim) (f : Z -> Q * Q * Q * Q) : Sim :=
  mkSim (x st) (v st) (C st) (F st) (Jp st) (grid_v st) (grid_m st)
        (materials st) (is_used st) f.

(** [f[p] = a] on a particle field and [g[I] = a] on a grid field. *)
Definition upd {A : Type} (f : Z -> A) (p : Z) (a : A) : Z -> A :=
  fun q => if (q =? p)%Z then a else f q.

Definition gupd {A : Type} (g : IVec -> A) (I : IVec) (a : A) : IVec -> A :=
  fun J => if ivec_eqb J I then a else g J.

(** The indices a kernel visits: [for p in x] is [zrange n_particles],
    [for I in grid_m] the nodes with [in_grid]. *)
Definition in_particles (p : Z) : bool := (0 <=? p)%Z && (p <? n_particles)%Z.

Definition in_grid (I : IVec) : bool :=
  (0 <=? i0 I)%Z && (i0 I <? n_grid)%Z &&
  (0 <=? i1 I)%Z && (i1 I <? n_grid)%Z &&
  (0 <=? i2 I)%Z && (i2 I <? n_grid)%Z.

Definition zrange (n : Z) : list Z := map Z.of_nat (seq 0 (Z.to_nat n)).

(** [ti.ndrange(dim, dim, dim)], first index outermost. *)
Definition ndrange3 : list (nat * nat * nat) :=
  flat_map (fun i => flat_map (fun j => map (fun k => (i, j, k))
    [0; 1; 2]%nat) [0; 1; 2]%nat) [0; 1; 2]%nat.

Definition offset_of (ijk : nat * nat * nat) : IVec :=
  let '(i, j, k) := ijk in mkIVec (Z.of_nat i) (Z.of_nat j) (Z.of_nat k).

(** ** substep_zero_out (lines 46-50) *)

Definition substep_zero_out (st : Sim) : Sim :=
  let st := set_grid_v st (fun I => if in_grid I then mkVec 0 0 0 else grid_v st I) in
  set_grid_m st (fun I => if in_grid I then 0 else grid_m st I).

(** ** Interpolation (lines 56-59 and 124-126) *)

(** [(x[p] * inv_dx - 0.5).cast(int)] *)
Definition interp_base (xp : Vec) : IVec :=
  vcast_int (vmap (fun t => t * inv_dx - 0.5) xp).

(** [x[p] * inv_dx - base.cast(float)] *)
Definition interp_fx (xp : Vec) (base : IVec) : Vec :=
  vsub (vmap (fun t => t * inv_dx) xp) (vcast_float base).

(** Line 59. *)
Definition p2g_weights (fx : Vec) : list Vec :=
  [ vmap (fun t => 0.5 * (1.5 - t) ^ 2) fx;
    vmap (fun t => 0.75 - (t - 1) ^ 2) fx;
    vmap (fun t => 0.5 * (t - 0.5) ^ 2) fx ].

(** Line 126. *)
Definition g2p_weights (fx : Vec) : list Vec :=
  [ vmap (fun t => 0.5 * (1.5 - t) ^ 2) fx;
    vmap (fun t => 0.75 - (t - 1.0) ^ 2) fx;
    vmap (fun t => 0.5 * (t - 0.5) ^ 2) fx ].

(** [w[i][d]] *)
Definition wnth (w : list Vec) (i d : nat) : Q := vnth (nth i w vzero) d.

(** [w[i][0] * w[j][1] * w[k][2]] *)
Definition node_weight (w : list Vec) (ijk : nat * nat * nat) : Q :=
  let '(i, j, k) := ijk in wnth w i 0 * wnth w j 1 * wnth w k 2.

(** ** substep_p2g (lines 52-98) *)

Section Kernels.

(** [ti.exp] and [ti.svd].  Nothing is assumed about them: every property
    below holds whatever they return. *)
Variable ti_exp : Q -> Q.
Variable ti_svd : Mat -> Mat * Mat * Mat.

(** The state of the loop [for d in ti.static(range(dim))], lines 71-79. *)
Record Plastic : Type := mkPlastic { pl_Jp : Q; pl_sig : Mat; pl_J : Q }.

(** Lines 73-76: the singular value kept for material [mat]. *)
Definition new_sig_of (mat : Z) (s : Q) : Q :=
  if (mat =? SNOW)%Z
  then Qmin (Qmax s (1 - 2.5e-2)) (1 + 4.5e-3)   (* Plasticity *)
  else s.

(** One iteration, lines 73-79.  The quotient [sig[d, d] / new_sig] is not
    guarded in the source.  [new_sig] is zero only when the singular value
    itself is zero and the material is not snow; the floating-point result
    of that [0 / 0] is NaN, which no rational stands for ([Qdiv] returns 0).
    The properties of the quotient below say when the divisor is non-zero. *)
Definition plasticity_step (mat : Z) (s : Plastic) (d : nat) : Plastic :=
  let new_sig := new_sig_of mat (mget (pl_sig s) d d) in
  mkPlastic (pl_Jp s * (mget (pl_sig s) d d / new_sig))
            (mset (pl_sig s) d d new_sig)
            (pl_J s * new_sig).

(** Lines 71-79. *)
Definition plasticity (mat : Z) (sig : Mat) (Jp_p : Q) : Plastic :=
  fold_left (plasticity_step mat) [0; 1; 2]%nat (mkPlastic Jp_p sig 1.0).

(** What the constitutive branch leaves behind for one particle: the new
    [F[p]] and [Jp[p]] and the local [affine]. *)
Record Constitutive : Type := mkConstitutive { c_F : Mat; c_Jp : Q; c_affine : Mat }.

(** [M * s] for a matrix and a scalar, entry by entry. *)
Definition mmuls (a : Mat) (s : Q) : Mat :=
  mkMat (vmap (fun t => t * s) (r0 a)) (vmap (fun t => t * s) (r1 a))
        (vmap (fun t => t * s) (r2 a)).

(** Lines 64-69: the elastic predictor and the Lame parameters. *)
Definition predicted_F (C_p F_p : Mat) : Mat :=
  mmul (madd midentity (mscale dt C_p)) F_p.

Definition hardening (mat : Z) (Jp_p : Q) : Q :=
  let h := ti_exp (10 * (1.0 - Jp_p)) in
  if (mat =? JELLY)%Z then 0.3 else h.

(** Lines 62-89. *)
Definition p2g_constitutive (mat : Z) (C_p F_p : Mat) (Jp_p : Q) : Constitutive :=
  if negb (mat =? WATER)%Z then
    let F1 := predicted_F C_p F_p in
    let h := hardening mat Jp_p in
    let mu := mu_0 * h in
    let la := lambda_0 * h in
    let '(U, sig, V) := ti_svd F1 in
    let pl := plasticity mat sig Jp_p in
    let J := pl_J pl in
    let F2 := if (mat =? SNOW)%Z
              then mmul (mmul U (pl_sig pl)) (mtranspose V)
              else F1 in
    let stress :=
      madd (mmul (mscale (2 * mu) (msub F2 (mmul U (mtranspose V))))
                 (mtranspose F2))
           (mmuls (mmuls (mmuls midentity la) J) (J - 1)) in
    let stress := mscale (- dt * p_vol * 4 * inv_dx * inv_dx) stress in
    mkConstitutive F2 (pl_Jp pl) (madd stress (mscale p_mass C_p))
  else
    let stress := - dt * 4 * E * p_vol * (Jp_p - 1) * inv_dx * inv_dx in
    mkConstitutive F_p Jp_p (madd (mmuls midentity stress) (mscale p_mass C_p)).

(** One iteration of the neighbourhood loop, lines 93-98. *)
Definition p2g_scatter (fx : Vec) (base : IVec) (w : list Vec)
    (v_p : Vec) (affine : Mat) (st : Sim) (ijk : nat * nat * nat) : Sim :=
  let offset := offset_of ijk in
  let dpos := vmap (fun t => t * dx) (vsub (vcast_float offset) fx) in
  let pos := iadd base offset in
  let weight := node_weight w ijk in
  let st := set_grid_v st (gupd (grid_v st) pos
              (vadd (grid_v st pos)
                    (vscale weight (vadd (vscale p_mass v_p) (mvec affine dpos))))) in
  set_grid_m st (gupd (grid_m st) pos (grid_m st pos + weight * p_mass)).

(** The body of [for p in x], lines 55-98. *)
Definition p2g_particle (st : Sim) (p : Z) : Sim :=
  if (is_used st p =? 0)%Z then st else
  let base := interp_base (x st p) in
  let fx := interp_fx (x st p) base in
  let w := p2g_weights fx in
  let c := p2g_constitutive (materials st p) (C st p) (F st p) (Jp st p) in
  let st := set_F st (upd (F st) p (c_F c)) in
  let st := set_Jp st (upd (Jp st) p (c_Jp c)) in
  fold_left (p2g_scatter fx base w (v st p) (c_affine c)) ndrange3 st.

(** The kernel.  The iterations run in parallel and add atomically; the
    model runs them in index order. *)
Definition substep_p2g (st : Sim) : Sim :=
  fold_left p2g_particle (zrange n_particles) st.

(** ** substep_grid (lines 100-118) *)

(** The body of [for I in ti.grouped(grid_m)] on the velocity of node [I]
    whose mass is [m]. *)
Definition grid_node (gravity : Q) (I : IVec) (m : Q) (g : Vec) : Vec :=
  if Qltb 0 m then                                  (* No need for epsilon here *)
    let g := vscale (1 / m) g in                    (* Momentum to velocity *)
    let g := vset g 1 (vnth g 1 + dt * gravity) in  (* gravity *)
    let g := if (inth I 0 <? bound)%Z && Qltb (vnth g 0) 0 then vset g 0 0 else g in
    let g := if (inth I 0 >? n_grid - bound)%Z && Qltb 0 (vnth g 0) then vset g 0 0 else g in
    let g := if (inth I 1 <? bound)%Z && Qltb (vnth g 1) 0 then vset g 1 0 else g in
    let g := if (inth I 1 >? n_grid - bound)%Z && Qltb 0 (vnth g 1) then vset g 1 0 else g in
    let g := if (inth I 2 <? bound)%Z && Qltb (vnth g 2) 0 then vset g 2 0 else g in
    let g := if (inth I 2 >? n_grid - bound)%Z && Qltb 0 (vnth g 2) then vset g 2 0 else g in
    g
  else g.

Definition substep_grid (gravity : Q) (st : Sim) : Sim :=
  set_grid_v st (fun I =>
    if in_grid I then grid_node gravity I (grid_m st I) (grid_v st I)
    else grid_v st I).

(** ** substep_g2p (lines 120-140) *)

(** The accumulators [new_v] and [new_C] after one iteration of the
    neighbourhood loop, lines 131-137. *)
Definition g2p_gather (gv : IVec -> Vec) (fx : Vec) (base : IVec) (w : list Vec)
    (acc : Vec * Mat) (ijk : nat * nat * nat) : Vec * Mat :=
  let offset := offset_of ijk in
  let dpos := vsub (vcast_float offset) fx in
  let pos := iadd base offset in
  let g_v := gv pos in
  let weight := node_weight w ijk in
  (vadd (fst acc) (vscale weight g_v),
   madd (snd acc) (mscale (4 * inv_dx * weight) (outer_product g_v dpos))).

(** [new_v] and [new_C] for a particle at [x_p], lines 124-137. *)
Definition g2p_new (gv : IVec -> Vec) (x_p : Vec) : Vec * Mat :=
  let base := interp_base x_p in
  let fx := interp_fx x_p base in
  let w := g2p_weights fx in
  fold_left (g2p_gather gv fx base w) ndrange3 (vzero, mzero).

(** The kernel: every particle in use writes its own [v], [C], [x], [Jp]. *)
Definition substep_g2p (st : Sim) : Sim :=
  let active p := in_particles p && negb (is_used st p =? 0)%Z in
  let new_v p := fst (g2p_new (grid_v st) (x st p)) in
  let new_C p := snd (g2p_new (grid_v st) (x st p)) in
  let st1 := set_v st (fun p => if active p then new_v p else v st p) in
  let st2 := set_C st1 (fun p => if active p then new_C p else C st p) in
  let st3 := set_x st2 (fun p =>
               if active p then vadd (x st p) (vscale dt (new_v p))  (* advection *)
               else x st p) in
  set_Jp st3 (fun p =>
    if active p then Jp st p * (1 + dt * trace (new_C p)) else Jp st p).

(** One simulation step, lines 331-334. *)
Definition substep (gravity : Q) (st : Sim) : Sim :=
  substep_g2p (substep_grid gravity (substep_p2g (substep_zero_out st))).

End Kernels.

(** ** Initialization (lines 145-203) *)

(** *** Numbers of Python scope *)

(** The entries of a [ti.Vector] built in Python scope and what Python
    computes from them are binary64 numbers. *)
Definition float64 : Type := spec_float.

Definition f64_zero : float64 := S754_zero false.
Definition f64_add : float64 -> float64 -> float64 := SFadd 53 1024.
Definition f64_mul : float64 -> float64 -> float64 := SFmul 53 1024.
Definition f64_div : float64 -> float64 -> float64 := SFdiv 53 1024.

(** The binary64 number of an [int], and the one nearest to a rational
    (the value of a decimal literal such as [0.3]; a number that is a
    binary64 number already is kept). *)
Definition f64_of_Z (n : Z) : float64 := binary_normalize 53 1024 n 0 false.

Definition f64_of_Q (q : Q) : float64 :=
  match Qnum q with
  | Z0 => S754_zero false
  | Zpos n => SFdiv 53 1024 (S754_finite false n 0) (S754_finite false (Qden q) 0)
  | Zneg n => SFdiv 53 1024 (S754_finite true n 0) (S754_finite false (Qden q) 0)
  end.

(** The exceptions [init_vols] can end with. *)
Inductive Error : Type :=
  | AttributeError          (* [v.volume] on an object without it *)
  | ValueError              (* [int(...)] of NaN *)
  | OverflowError           (* [int(...)] of an infinity *)
  | UnsupportedVolume.      (* [raise Exception("???")] *)

(** [int(...)] of a binary64 number: truncation toward zero, and an
    exception on NaN and on the infinities. *)
Definition py_int (f : float64) : Error + Z :=
  match f with
  | S754_zero _ => inr 0%Z
  | S754_finite s m e =>
      let n := match e with
               | Zneg k => Z.shiftr (Zpos m) (Zpos k)
               | _ => Z.shiftl (Zpos m) e
               end in
      inr (if s then (- n)%Z else n)
  | S754_infinity _ => inl OverflowError
  | S754_nan => inl ValueError
  end.

(** An [int] argument of a kernel is passed through a 64-bit integer and
    stored as an [i32]. *)
Definition fits_i64 (n : Z) : bool :=
  (- 9223372036854775808 <=? n)%Z && (n <? 9223372036854775808)%Z.

Definition wrap_i32 (n : Z) : Z :=
  ((n + 2147483648) mod 4294967296 - 2147483648)%Z.

(** *** Volumes *)

(** [class CubeVolume]; [minimum] and [size] are [ti.Vector]s of Python
    scope, held here as the rationals they are written as; [volume] is
    computed by [__init__], in binary64. *)
Record CubeVolume : Type := mkCubeVolume {
  minimum : Vec;
  size : Vec;
  material : Z
}.

Definition volume (c : CubeVolume) : float64 :=
  f64_mul (f64_mul (f64_of_Q (v0 (size c))) (f64_of_Q (v1 (size c))))
          (f64_of_Q (v2 (size c))).

(** An entry of the list given to [init_vols]: a [CubeVolume], or any other
    object, of which the function reads at most the attribute [volume]
    ([None] when the object has no such attribute). *)
Inductive VolumeSpec : Type :=
  | Cube (c : CubeVolume)
  | OtherObject (vol : option Q).

Section Initialization.

(** [ti.random()]: [ti_random i k] is the [k]-th number drawn by iteration
    [i] of [init_cube_vol]. *)
Variable ti_random : Z -> nat -> Q.

(** Lines 154-168.  The three [int] arguments reach the kernel as [i32].
    The fields have [n_particles] slots and Taichi does not check the
    index: a launch whose range is not empty and leaves [[0, n_particles)]
    writes outside the fields, and the process is killed in practice; such
    a launch, and one given an integer that does not fit 64 bits, has no
    result here ([None]). *)
Definition init_cube_vol (first_par last_par : Z)
    (x_begin y_begin z_begin x_size y_size z_size : Q) (material : Z)
    (st : Sim) : option Sim :=
  if negb (fits_i64 first_par && fits_i64 last_par && fits_i64 material) then None
  else
    let first_par := wrap_i32 first_par in
    let last_par := wrap_i32 last_par in
    let material := wrap_i32 material in
    if (first_par <? last_par)%Z
       && negb ((0 <=? first_par)%Z && (last_par <=? n_particles)%Z)
    then None
    else
      let hit i := (first_par <=? i)%Z && (i <? last_par)%Z in
      let st := set_x st (fun i =>
        if hit i then
          vadd (vmul (mkVec (ti_random i 0%nat) (ti_random i 1%nat) (ti_random i 2%nat))
                     (mkVec x_size y_size z_size))
               (mkVec x_begin y_begin z_begin)
        else x st i) in
      let st := set_Jp st (fun i => if hit i then 1 else Jp st i) in
      let st := set_F st (fun i =>
        if hit i then mkMat (mkVec 1 0 0) (mkVec 0 1 0) (mkVec 0 0 1) else F st i) in
      let st := set_v st (fun i => if hit i then mkVec 0.0 0.0 0.0 else v st i) in
      let st := set_materials st (fun i => if hit i then material else materials st i) in
      let st := set_colors_random st (fun i =>
        if hit i then
          (ti_random i 3%nat, ti_random i 4%nat, ti_random i 5%nat, ti_random i 6%nat)
        else colors_random st i) in
      Some (set_is_used st (fun i => if hit i then 1%Z else is_used st i)).

(** Lines 171-181. *)
Definition set_all_unused (st : Sim) : Sim :=
  (* particles are intialized as unused *)
  let st := set_is_used st (fun p => if in_particles p then 0%Z else is_used st p) in
  (* unused particles are thrown away to the abyss *)
  let st := set_x st (fun p =>
    if in_particles p then mkVec 533799.0 533799.0 533799.0 else x st p) in
  let st := set_Jp st (fun p => if in_particles p then 1 else Jp st p) in
  let st := set_F st (fun p =>
    if in_particles p then mkMat (mkVec 1 0 0) (mkVec 0 1 0) (mkVec 0 0 1) else F st p) in
  let st := set_C st (fun p =>
    if in_particles p then mkMat (mkVec 0 0 0) (mkVec 0 0 0) (mkVec 0 0 0) else C st p) in
  set_v st (fun p => if in_particles p then mkVec 0.0 0.0 0.0 else v st p).

(** Lines 186-188, from the [int] 0 on; [None] when some entry has no
    [volume]. *)
Fixpoint sum_volumes (vols : list VolumeSpec) (total_vol : float64) : option float64 :=
  match vols with
  | [] => Some total_vol
  | Cube c :: rest => sum_volumes rest (f64_add total_vol (volume c))
  | OtherObject (Some q) :: rest => sum_volumes rest (f64_add total_vol (f64_of_Q q))
  | OtherObject None :: _ => None
  end.

(** What a call of [init_vols] leaves when it returns or raises: the
    fields, the ranges [(first_par, last_par)] of the launches of
    [init_cube_vol] it made, in order and as the kernel received them, and
    the exception it raised, if any. *)
Record InitResult : Type := mkInitResult {
  ir_state : Sim;
  ir_launches : list (Z * Z);
  ir_error : option Error
}.

(** Lines 194-198. *)
Definition par_count_of (total_vol : float64) (len i next_p : Z) (c : CubeVolume)
    : Error + Z :=
  match py_int (f64_mul (f64_div (volume c) total_vol) (f64_of_Z n_particles)) with
  | inl e => inl e
  | inr par_count =>
      if (i =? len - 1)%Z   (* this is the last volume, so use all remaining particles *)
      then inr (n_particles - next_p)%Z
      else inr par_count
  end.

(** The loop of lines 191-203 from its [i]-th iteration on; [None] when a
    launch has no result. *)
Fixpoint init_vols_loop (total_vol : float64) (len : Z) (vols : list VolumeSpec)
    (i next_p : Z) (st : Sim) (launches : list (Z * Z)) : option InitResult :=
  match vols with
  | [] => Some (mkInitResult st launches None)
  | Cube c :: rest =>
      match par_count_of total_vol len i next_p c with
      | inl e => Some (mkInitResult st launches (Some e))
      | inr par_count =>
          match init_cube_vol next_p (next_p + par_count)
                  (v0 (minimum c)) (v1 (minimum c)) (v2 (minimum c))
                  (v0 (size c)) (v1 (size c)) (v2 (size c)) (material c) st with
          | None => None
          | Some st =>
              init_vols_loop total_vol len rest (i + 1) (next_p + par_count) st
                (launches ++ [(wrap_i32 next_p, wrap_i32 (next_p + par_count))])
          end
      end
  | OtherObject _ :: _ => Some (mkInitResult st launches (Some UnsupportedVolume))
  end.

(** Lines 184-203. *)
Definition init_vols (vols : list VolumeSpec) (st : Sim) : option InitResult :=
  let st := set_all_unused st in
  match sum_volumes vols f64_zero with
  | None => Some (mkInitResult st [] (Some AttributeError))
  | Some total_vol =>
      init_vols_loop total_vol (Z.of_nat (length vols)) vols 0 0 st []
  end.

End Initialization.

(** ** Quantities the properties are stated with *)

Definition sumQ (l : list Q) : Q := fold_right Qplus 0 l.

(** The sum of a grid field over the nodes [[0, n_grid)^3]. *)
Definition grid_total (g : IVec -> Q) : Q :=
  sumQ (map (fun i => sumQ (map (fun j => sumQ (map (fun k =>
    g (mkIVec i j k)) (zrange n_grid))) (zrange n_grid))) (zrange n_grid)).

(** The number of particles in use. *)
Definition active_count (st : Sim) : Z :=
  Z.of_nat (length (filter (fun p => negb (is_used st p =? 0)%Z) (zrange n_particles))).

(** The 27 nodes a particle at [x_p] reads and writes lie in the grid. *)
Definition neighbourhood_in_grid (x_p : Vec) : bool :=
  forallb (fun ijk => in_grid (iadd (interp_base x_p) (offset_of ijk))) ndrange3.

(** A state to build examples from: every slot unused and parked, the grid
    empty. *)
Definition parked : Sim :=
  mkSim (fun _ => mkVec 533799.0 533799.0 533799.0) (fun _ => vzero)
        (fun _ => mzero) (fun _ => midentity) (fun _ => 1)
        (fun _ => vzero) (fun _ => 0) (fun _ => WATER) (fun _ => 0%Z)
        (fun _ => (0, 0, 0, 0)).

(** A node on the plane [i = n_grid - bound], with unit mass and momentum
    along the first axis. *)
Definition band_node : IVec := mkIVec (n_grid - bound) 64 64.

Definition band_sim : Sim :=
  set_grid_m (set_grid_v parked (gupd (grid_v parked) band_node (mkVec 1 0 0)))
             (gupd (grid_m parked) band_node 1).

(** A node on the first clamped plane of the upper band,
    [i = n_grid - bound + 1], with unit mass and momentum toward the upper
    face. *)
Definition clamped_node : IVec := mkIVec (n_grid - bound + 1) 64 64.

Definition clamped_sim : Sim :=
  set_grid_m (set_grid_v parked (gupd (grid_v parked) clamped_node (mkVec 1 0 0)))
             (gupd (grid_m parked) clamped_node 1).

(** Stand-ins for [ti.exp] and [ti.svd] in examples: the value of the
    exponential at 0, and the decomposition [I * F * I^T] of a diagonal
    matrix [F] with non-negative entries. *)
Definition exp_at_zero : Q -> Q := fun _ => 1.
Definition svd_of_diagonal (A : Mat) : Mat * Mat * Mat := (midentity, A, midentity).

(** One particle in use in the middle of the box, the others parked. *)
Definition one_particle (mat : Z) : Sim :=
  set_materials
    (set_is_used (set_x parked (upd (x parked) 0 (mkVec 0.5 0.5 0.5)))
                 (upd (is_used parked) 0 1%Z))
    (upd (materials parked) 0 mat).

(** Three water particles near the lower face of the first axis: two at
    an eighth of a cell from the face, moving into the box, and one at rest
    two and a quarter cells from it.  Their weights on the node
    [(1, 64, 64)] are [-1/64], [-1/64] and [1/32] times the same factor. *)
Definition edge_trio : Sim :=
  set_is_used
    (set_v
      (set_x parked
        (upd (upd (upd (x parked) 0 (mkVec (1 / 1024) 0.5 0.5))
                  1 (mkVec (1 / 1024) 0.5 0.5))
             2 (mkVec (9 / 512) 0.5 0.5)))
      (upd (upd (v parked) 0 (mkVec 1 0 0)) 1 (mkVec 1 0 0)))
    (upd (upd (upd (is_used parked) 0 1%Z) 1 1%Z) 2 1%Z).

Definition edge_node : IVec := mkIVec 1 64 64.

(** [clamp(s, lo, hi)] as the specification words it. *)
Definition clamp (s lo hi : Q) : Q :=
  if Qltb s lo then lo else if Qltb hi s then hi else s.

(** The singular values [ti.svd] returns for the elastic predictor of a
    particle, and what P2G makes of each. *)
Definition predicted_sig (ti_svd : Mat -> Mat * Mat * Mat) (C_p F_p : Mat) : Mat :=
  snd (fst (ti_svd (predicted_F C_p F_p))).

Definition snow_clamp (s : Q) : Q := clamp s (1 - 2.5e-2) (1 + 4.5e-3).

(** Substeps run one after the other, each with the gravity the GUI holds
    at that time (lines 330-334). *)
Definition run_substeps (ti_exp : Q -> Q) (ti_svd : Mat -> Mat * Mat * Mat)
    (gravities : list Q) (st : Sim) : Sim :=
  fold_left (fun s g => substep ti_exp ti_svd g s) gravities st.

(** A jelly particle whose velocity gradient [C = -(1/dt) I] contracts it
    to a point within one step: its elastic predictor [(I + dt*C) @ F] is
    the zero matrix. *)
Definition collapsing_jelly : Sim :=
  set_C (one_particle JELLY) (upd (C parked) 0 (mscale (-10000) midentity)).

(** A particle three cells below the upper band of the second axis, on a
    grid that moves upward at speed 300 below the band and rests in it (so
    the boundary conditions of the momentum step hold on this grid). *)
Definition rising_sim : Sim :=
  set_grid_v
    (set_is_used (set_x parked (upd (x parked) 0 (mkVec 0.5 (123.5 / 128) 0.5)))
                 (upd (is_used parked) 0 1%Z))
    (fun I => if (i1 I <=? n_grid - bound)%Z then mkVec 0 300 0 else vzero).

(** The launch [(first_par, last_par)] seeds the slot [p]. *)
Definition covers (p : Z) (launch : Z * Z) : bool :=
  (fst launch <=? p)%Z && (p <? snd launch)%Z.

(** The slot [p] as [set_all_unused] leaves it. *)
Definition reset_slot (st : Sim) (p : Z) : Prop :=
  is_used st p = 0%Z /\
  x st p = mkVec 533799.0 533799.0 533799.0 /\
  Jp st p = 1 /\
  F st p = mkMat (mkVec 1 0 0) (mkVec 0 1 0) (mkVec 0 0 1) /\
  C st p = mkMat (mkVec 0 0 0) (mkVec 0 0 0) (mkVec 0 0 0) /\
  v st p = mkVec 0.0 0.0 0.0.

(** The count of line 194 for the cuboid [c]: the binary64 quotient
    [volume / total_vol], times [n_particles], truncated. *)
Definition share_count (total_vol : float64) (c : CubeVolume) : Error + Z :=
  py_int (f64_mul (f64_div (volume c) total_vol) (f64_of_Z n_particles)).

Definition count_of (total_vol : float64) (c : CubeVolume) : Z :=
  match share_count total_vol c with inr n => n | inl _ => 0%Z end.

(** The total volume of lines 186-188 for a list of cuboids. *)
Definition total_volume (cubes : list CubeVolume) : float64 :=
  fold_left (fun t c => f64_add t (volume c)) cubes f64_zero.

(** The allocation of the particle budget: contiguous ranges from [start]
    on, the count of line 194 for every cuboid but the last, the remainder
    for the last. *)
Fixpoint allocation (total_vol : float64) (start : Z) (cubes : list CubeVolume)
    : list (Z * Z) :=
  match cubes with
  | [] => []
  | c :: rest =>
      match rest with
      | [] => [(start, n_particles)]
      | _ :: _ =>
          let stop := (start + count_of total_vol c)%Z in
          (start, stop) :: allocation total_vol stop rest
      end
  end.

(** The budget suffices from [start] on: line 194 raises for no cuboid,
    the counts of the cuboids before the last are not negative and do not
    lead past [n_particles], and every material is an integer a launch
    can take. *)
Fixpoint fits (total_vol : float64) (start : Z) (cubes : list CubeVolume) : bool :=
  match cubes with
  | [] => true
  | c :: rest =>
      fits_i64 (material c) &&
      match share_count total_vol c with
      | inl _ => false
      | inr n =>
          match rest with
          | [] => (start <=? n_particles)%Z
          | _ :: _ =>
              (0 <=? n)%Z && (start + n <=? n_particles)%Z
              && fits total_vol (start + n) rest
          end
      end
  end.



(** A generator for examples: every draw is one half. *)
Definition draw_half : Z -> nat -> Q := fun _ _ => 0.5.

(** Example volumes: the cuboid of the first preset; cuboids of volumes 2,
    -1 (a negative extent) and 1; two slabs of volumes 0.3 and 0.1; and an
    object that is no [CubeVolume] but has a [volume]. *)
Definition dam : CubeVolume :=
  mkCubeVolume (mkVec 0.55 0.05 0.55) (mkVec 0.4 0.4 0.4) WATER.
Definition ball : VolumeSpec := OtherObject (Some 0.064).

(** The fields a call of [init_vols] leaves ([otherwise] when it has no
    result), and the fields after the first preset has been loaded: every
    slot in use. *)
Definition state_after (r : option InitResult) (otherwise : Sim) : Sim :=
  match r with Some r => ir_state r | None => otherwise end.

Definition dam_break : Sim := state_after (init_vols draw_half [Cube dam] parked) parked.

(** The fields are the reset fields with the slots of [launches] seeded:
    a slot covered by a launch is in use, any other slot is as
    [set_all_unused] left it. *)
Definition seeded_by (launches : list (Z * Z)) (st : Sim) : Prop :=
  forall p, in_particles p = true ->
    if existsb (covers p) launches then is_used st p = 1%Z else reset_slot st p.

(** ** Further quantities and inputs *)

(** [lo <= a < hi] on every axis. *)
Definition inside (lo hi a : Vec) : Prop :=
  (v0 lo <= v0 a /\ v0 a < v0 hi) /\
  (v1 lo <= v1 a /\ v1 a < v1 hi) /\
  (v2 lo <= v2 a /\ v2 a < v2 hi).

(** The positions whose 27 neighbour nodes exist: half a cell from the
    lower faces and one and a half cells from the upper faces. *)
Definition safe_lo : Vec := mkVec (dx * 0.5) (dx * 0.5) (dx * 0.5).
Definition safe_hi : Vec := mkVec (1 - dx * 1.5) (1 - dx * 1.5) (1 - dx * 1.5).

(** The sum of one component of a vector field over the grid, and the
    momentum the particles in use carry along one axis. *)
Definition grid_total_v (g : IVec -> Vec) (d : nat) : Q :=
  grid_total (fun I => vnth (g I) d).

Definition particle_momentum (st : Sim) (d : nat) : Q :=
  sumQ (map (fun p => if (is_used st p =? 0)%Z then 0 else p_mass * vnth (v st p) d)
            (zrange n_particles)).

(** A node outside the six boundary bands. *)
Definition interior (I : IVec) : bool :=
  (bound <=? i0 I)%Z && (i0 I <=? n_grid - bound)%Z &&
  (bound <=? i1 I)%Z && (i1 I <=? n_grid - bound)%Z &&
  (bound <=? i2 I)%Z && (i2 I <=? n_grid - bound)%Z.

(** [presets], lines 218-235. *)
Definition presets : list (list VolumeSpec) :=
  [ [ Cube (mkCubeVolume (mkVec 0.55 0.05 0.55) (mkVec 0.4 0.4 0.4) WATER) ];
    [ Cube (mkCubeVolume (mkVec 0.05 0.05 0.05) (mkVec 0.3 0.4 0.3) WATER);
      Cube (mkCubeVolume (mkVec 0.65 0.05 0.65) (mkVec 0.3 0.4 0.3) WATER) ];
    [ Cube (mkCubeVolume (mkVec 0.6 0.05 0.6) (mkVec 0.25 0.25 0.25) WATER);
      Cube (mkCubeVolume (mkVec 0.35 0.35 0.35) (mkVec 0.25 0.25 0.25) SNOW);
      Cube (mkCubeVolume (mkVec 0.05 0.6 0.05) (mkVec 0.25 0.25 0.25) JELLY) ] ].

(** The cuboids of the third preset. *)
Definition water_snow_jelly : list CubeVolume :=
  [ mkCubeVolume (mkVec 0.6 0.05 0.6) (mkVec 0.25 0.25 0.25) WATER;
    mkCubeVolume (mkVec 0.35 0.35 0.35) (mkVec 0.25 0.25 0.25) SNOW;
    mkCubeVolume (mkVec 0.05 0.6 0.05) (mkVec 0.25 0.25 0.25) JELLY ].

(** What one particle sends to the node [ijk] of its neighbourhood,
    line 97. *)
Definition scattered_momentum (fx : Vec) (w : list Vec) (v_p : Vec) (affine : Mat)
    (ijk : nat * nat * nat) : Vec :=
  vscale (node_weight w ijk)
    (vadd (vscale p_mass v_p)
          (mvec affine (vmap (fun t => t * dx) (vsub (vcast_float (offset_of ijk)) fx)))).

(** A particle at least half a cell from the three lower faces: the
    positions on which the cast of line 56 rounds down. *)
Definition half_cell_in (x_p : Vec) : Prop :=
  0.5 <= v0 x_p * inv_dx /\ 0.5 <= v1 x_p * inv_dx /\ 0.5 <= v2 x_p * inv_dx.

(** The node [I] has no negative mass and, when it has no mass, no
    momentum. *)
Definition massless_rest (st : Sim) (I : IVec) : Prop :=
  0 <= grid_m st I /\ (grid_m st I == 0 -> veq (grid_v st I) vzero).

(** A grid on which every node moves with the velocity [u]. *)
Definition uniform_sim (u : Vec) : Sim := set_grid_v (one_particle WATER) (fun _ => u).

(** A deformation gradient compressed to 0.9 along the first axis. *)
Definition squeezed : Mat := mkMat (mkVec 0.9 0 0) (mkVec 0 1 0) (mkVec 0 0 1).

(** One snow particle in use, with that deformation gradient. *)
Definition squeezed_snow : Sim :=
  set_F (one_particle SNOW) (upd (F parked) 0 squeezed).

(** The position line 159 gives the slot [i] of the cuboid [c]. *)
Definition cube_draw (ti_random : Z -> nat -> Q) (c : CubeVolume) (i : Z) : Vec :=
  vadd (vmul (mkVec (ti_random i 0%nat) (ti_random i 1%nat) (ti_random i 2%nat))
             (mkVec (v0 (size c)) (v1 (size c)) (v2 (size c))))
       (mkVec (v0 (minimum c)) (v1 (minimum c)) (v2 (minimum c))).



(** A cuboid with positive extents. *)
Definition positive_size (c : CubeVolume) : Prop :=
  0 < v0 (size c) /\ 0 < v1 (size c) /\ 0 < v2 (size c).

(** The slot [p] as it is at birth, seeded or not. *)
Definition newborn (st : Sim) (p : Z) : Prop :=
  Jp st p = 1 /\
  F st p = mkMat (mkVec 1 0 0) (mkVec 0 1 0) (mkVec 0 0 1) /\
  C st p = mkMat (mkVec 0 0 0) (mkVec 0 0 0) (mkVec 0 0 0) /\
  v st p = mkVec 0.0 0.0 0.0.

(** Two states hold the same particle in the slot [p]. *)
Definition same_motion (st st' : Sim) (p : Z) : Prop :=
  x st' p = x st p /\ v st' p = v st p /\ C st' p = C st p /\
  F st' p = F st p /\ Jp st' p = Jp st p /\ is_used st' p = is_used st p.

Definition same_tags (st st' : Sim) (p : Z) : Prop :=
  materials st' p = materials st p /\ colors_random st' p = colors_random st p.

(** Two states hold the same particles: the same motion in every slot, and
    the same material and colour in the slots that [launches] cover. *)
Definition agree_upto (launches : list (Z * Z)) (st st' : Sim) : Prop :=
  forall p, in_particles p = true ->
    same_motion st st' p /\
    (existsb (covers p) launches = true -> same_tags st st' p).

(** The slot [p] holds a particle seeded from the cuboid [c]. *)
Definition seeded_from (ti_random : Z -> nat -> Q) (c : CubeVolume) (st : Sim) (p : Z)
    : Prop :=
  materials st p = wrap_i32 (material c) /\ x st p = cube_draw ti_random c p /\
  is_used st p = 1%Z.

(** A cuboid with positive extents that lies in the safe region. *)
Definition safe_cube (c : CubeVolume) : Prop :=
  positive_size c /\
  (dx * 0.5 <= v0 (minimum c) /\ v0 (minimum c) + v0 (size c) <= 1 - dx * 1.5) /\
  (dx * 0.5 <= v1 (minimum c) /\ v1 (minimum c) + v1 (size c) <= 1 - dx * 1.5) /\
  (dx * 0.5 <= v2 (minimum c) /\ v2 (minimum c) + v2 (size c) <= 1 - dx * 1.5).

(** A cuboid of the safe region whose extents are tiny. *)
Definition speck : CubeVolume :=
  mkCubeVolume (mkVec 0.5 0.5 0.5) (mkVec 1e-200 1e-200 1e-200) WATER.

(** Where the range of the cuboid [c] stops, when it starts at [start] and
    [rest] are the cuboids after it. *)
Definition range_stop (total_vol : float64) (start : Z) (c : CubeVolume)
    (rest : list CubeVolume) : Z :=
  match rest with
  | [] => n_particles
  | _ :: _ => (start + count_of total_vol c)%Z
  end.

(** The particle [p0] is the only one in use. *)
Definition alone (st : Sim) (p0 : Z) : Prop :=
  in_particles p0 = true /\ is_used st p0 <> 0%Z /\
  forall q, q <> p0 -> is_used st q = 0%Z.

(** The positions whose 27 neighbour nodes lie outside the boundary bands:
    three and a half cells from every face. *)
Definition inner_lo : Vec := mkVec (dx * 3.5) (dx * 3.5) (dx * 3.5).
Definition inner_hi : Vec := mkVec (1 - dx * 3.5) (1 - dx * 3.5) (1 - dx * 3.5).

(** What gravity adds to a velocity in one substep, line 106. *)
Definition gravity_kick (g : Q) : Vec := mkVec 0 (dt * g) 0.

(** A lone water particle in the middle of the box, moving and shearing. *)
Definition lone_drop : Sim :=
  set_C (set_v (one_particle WATER) (upd (v parked) 0 (mkVec 1 2 3)))
        (upd (C parked) 0 (mkMat (mkVec 1 2 0) (mkVec 0 1 0) (mkVec 3 0 1))).

(** [dpos] of line 94 for the offset [ijk]. *)
Definition p2g_dpos (fx : Vec) (ijk : nat * nat * nat) : Vec :=
  vmap (fun t => t * dx) (vsub (vcast_float (offset_of ijk)) fx).

(** * Properties *)

(** ** Comparisons *)

Lemma Qltb_true (a b : Q) : Qltb a b = true <-> a < b.
Proof.
  unfold Qltb. rewrite negb_true_iff. split; intro H.
  - apply Qnot_le_lt. intro Hle. apply Qle_bool_iff in Hle. congruence.
  - destruct (Qle_bool b a) eqn:Hb; [|reflexivity].
    apply Qle_bool_iff in Hb. exfalso. apply (Qlt_not_le _ _ H Hb).
Qed.

Lemma Qltb_false (a b : Q) : Qltb a b = false <-> b <= a.
Proof.
  unfold Qltb. rewrite negb_false_iff. apply Qle_bool_iff.
Qed.

(** ** The interpolation kernel *)

(** C5. For every fractional offset [fx] and every axis [d], the three
    weights of line 59 are [0.5*(1.5-fx)^2], [0.75-(fx-1)^2] and
    [0.5*(fx-0.5)^2] and sum to 1, and line 126 computes the same three
    weights for G2P. *)
Theorem weights_partition_of_unity (fx : Vec) (d : nat) :
  let t := vnth fx d in
  wnth (p2g_weights fx) 0 d == 0.5 * (1.5 - t) ^ 2 /\
  wnth (p2g_weights fx) 1 d == 0.75 - (t - 1) ^ 2 /\
  wnth (p2g_weights fx) 2 d == 0.5 * (t - 0.5) ^ 2 /\
  wnth (p2g_weights fx) 0 d + wnth (p2g_weights fx) 1 d
    + wnth (p2g_weights fx) 2 d == 1 /\
  (forall i, wnth (g2p_weights fx) i d == wnth (p2g_weights fx) i d).
Proof.
  destruct fx as [a b c].
  assert (Hcases : d = 0%nat \/ d = 1%nat \/ exists n, d = S (S n)).
  { destruct d as [|[|n]]; eauto. }
  destruct Hcases as [-> | [-> | [n ->]]]; cbn -[Qpower];
    (repeat split; try ring;
     intros [|[|[|i]]]; try destruct i; cbn -[Qpower]; ring).
Qed.

(** ** The momentum step *)

Lemma grid_node_skip (gravity : Q) (I : IVec) (m : Q) (g : Vec) :
  ~ 0 < m -> grid_node gravity I m g = g.
Proof.
  intro H. unfold grid_node.
  destruct (Qltb 0 m) eqn:Hm; [|reflexivity].
  apply Qltb_true in Hm. contradiction.
Qed.

(** One boundary test of lines 107-118: the component [k] is zeroed when
    [near] holds and it points along [out]. *)
Lemma vset_same (g : Vec) (k : nat) (q : Q) : vnth (vset g k q) k = q.
Proof. destruct g; destruct k as [|[|k]]; reflexivity. Qed.

Lemma vset_other (g : Vec) (k d : nat) (q : Q) :
  (k < 3)%nat -> (d < 3)%nat -> k <> d -> vnth (vset g k q) d = vnth g d.
Proof.
  intros Hk Hd Hkd. destruct g.
  destruct k as [|[|[|k]]]; destruct d as [|[|[|d]]]; try lia; reflexivity.
Qed.

Lemma grid_node_inward (gravity : Q) (I : IVec) (m : Q) (g : Vec) (d : nat) :
  0 < m -> (d < 3)%nat ->
  ((inth I d < bound)%Z -> 0 <= vnth (grid_node gravity I m g) d) /\
  ((inth I d > n_grid - bound)%Z -> vnth (grid_node gravity I m g) d <= 0).
Proof.
  intros Hm Hd. unfold grid_node.
  apply Qltb_true in Hm. rewrite Hm.
  set (g1 := vset (vscale (1 / m) g) 1 _). clearbody g1.
  assert (Hlo : forall z, (z < bound)%Z -> (z >? n_grid - bound)%Z = false).
  { intros z Hz. unfold bound, n_grid, quality in *. lia. }
  assert (Hd3 : d = 0%nat \/ d = 1%nat \/ d = 2%nat) by lia.
  split; intro Hb.
  - pose proof (Hlo _ Hb) as Hhi. apply Z.ltb_lt in Hb.
    destruct Hd3 as [-> | [-> | ->]]; rewrite ?Hb, ?Hhi; cbn [andb];
      repeat match goal with
      | |- context [if ?c then _ else _] => destruct c eqn:?
      end;
      rewrite ?vset_same, ?vset_other by lia;
      try apply Qle_refl;
      repeat match goal with
      | H : andb _ _ = true |- _ => apply andb_true_iff in H; destruct H
      | H : Qltb _ _ = false |- _ => apply Qltb_false in H
      end;
      rewrite ?vset_same, ?vset_other in * by lia; try assumption;
      try apply Qle_refl.
  - assert (Hlt : (inth I d <? bound)%Z = false).
    { unfold bound, n_grid, quality in *. lia. }
    assert (Hgt : (inth I d >? n_grid - bound)%Z = true).
    { apply Z.gtb_lt. lia. }
    clear Hb. rename Hgt into Hb.
    destruct Hd3 as [-> | [-> | ->]]; rewrite ?Hb, ?Hlt; cbn [andb];
      repeat match goal with
      | |- context [if ?c then _ else _] => destruct c eqn:?
      end;
      rewrite ?vset_same, ?vset_other by lia;
      try apply Qle_refl;
      repeat match goal with
      | H : andb _ _ = true |- _ => apply andb_true_iff in H; destruct H
      | H : Qltb _ _ = false |- _ => apply Qltb_false in H
      end;
      rewrite ?vset_same, ?vset_other in * by lia; try assumption;
      try apply Qle_refl.
Qed.

Lemma grid_v_substep_grid (gravity : Q) (st : Sim) (I : IVec) :
  in_grid I = true ->
  grid_v (substep_grid gravity st) I = grid_node gravity I (grid_m st I) (grid_v st I).
Proof. intro HI. cbn. now rewrite HI. Qed.

(** C1 (amended). After the momentum step, a grid node that has a
    positive mass, or that holds the zero vector, has no velocity component
    pointing out of the box on an axis on which it lies in a boundary
    band: the component is not negative when the index on that axis is in
    [[0, bound)], and not positive when the index is in
    [(n_grid - bound, n_grid)].  The upper band starts one node after
    [n_grid - bound]. *)
Theorem boundary_containment (gravity : Q) (st : Sim) (I : IVec) (d : nat) :
  in_grid I = true -> (d < 3)%nat ->
  0 < grid_m st I \/ veq (grid_v st I) vzero ->
  ((0 <= inth I d < bound)%Z ->
     0 <= vnth (grid_v (substep_grid gravity st) I) d) /\
  ((n_grid - bound < inth I d < n_grid)%Z ->
     vnth (grid_v (substep_grid gravity st) I) d <= 0).
Proof.
  intros HI Hd Hnode. rewrite (grid_v_substep_grid _ _ _ HI).
  destruct (Qlt_le_dec 0 (grid_m st I)) as [Hpos | Hle].
  - destruct (grid_node_inward gravity I (grid_m st I) (grid_v st I) d Hpos Hd)
      as [Hlow Hhigh].
    split; intro Hb; [apply Hlow | apply Hhigh]; lia.
  - destruct Hnode as [Hpos | Hzero].
    + exfalso. apply (Qlt_not_le _ _ Hpos Hle).
    + rewrite grid_node_skip by (now apply Qle_not_lt).
      destruct Hzero as (H0 & H1 & H2).
      assert (Hc : vnth (grid_v st I) d == 0).
      { destruct d as [|[|[|d]]]; try lia; assumption. }
      split; intros _; rewrite Hc; apply Qle_refl.
Qed.

Lemma boundary_containment_witness :
  in_grid clamped_node = true /\
  0 < grid_m clamped_sim clamped_node /\
  (n_grid - bound < inth clamped_node 0 < n_grid)%Z /\
  vnth (grid_v clamped_sim clamped_node) 0 == 1 /\
  vnth (grid_v (substep_grid gravity clamped_sim) clamped_node) 0 <= 0.
Proof.
  assert (Hb : (n_grid - bound < inth clamped_node 0 < n_grid)%Z).
  { cbv. split; reflexivity. }
  split; [reflexivity|]. split; [reflexivity|]. split; [exact Hb|].
  split; [reflexivity|].
  apply (boundary_containment gravity clamped_sim clamped_node 0).
  - reflexivity.
  - lia.
  - left. reflexivity.
  - exact Hb.
Defined.

(** ** Particle to grid: conservation of mass *)

Lemma sumQ_ext (A : Type) (f h : A -> Q) (l : list A) :
  (forall a, In a l -> h a == f a) -> sumQ (map h l) == sumQ (map f l).
Proof.
  induction l as [|a l IH]; intro Hfh; simpl.
  - reflexivity.
  - rewrite (Hfh a) by (now left). rewrite IH; [reflexivity|].
    intros b Hb. apply Hfh. now right.
Qed.

Lemma sumQ_zero (A : Type) (f : A -> Q) (l : list A) :
  (forall a, In a l -> f a == 0) -> sumQ (map f l) == 0.
Proof.
  induction l as [|a l IH]; intro Hf; simpl.
  - reflexivity.
  - rewrite (Hf a) by (now left). rewrite IH; [ring|].
    intros b Hb. apply Hf. now right.
Qed.

(** A sum changes by [e] when exactly one of its terms does. *)
Lemma sumQ_bump (f h : Z -> Q) (l : list Z) (a : Z) (e : Q) :
  NoDup l -> In a l ->
  (forall i, In i l -> i <> a -> h i == f i) ->
  h a == f a + e ->
  sumQ (map h l) == sumQ (map f l) + e.
Proof.
  induction l as [|b l IH]; intros Hnd Hin Hoff Hat; [contradiction|].
  inversion Hnd as [|? ? Hnotin Hnd']; subst. simpl.
  destruct (Z.eq_dec b a) as [-> | Hne].
  - rewrite Hat.
    rewrite (sumQ_ext _ f h l).
    + ring.
    + intros i Hi. apply Hoff; [now right|]. intros ->. contradiction.
  - destruct Hin as [Heq | Hin]; [contradiction|].
    rewrite (Hoff b) by (auto; now left).
    rewrite IH; auto.
    + ring.
    + intros i Hi. apply Hoff. now right.
Qed.

Lemma zrange_In (n i : Z) : In i (zrange n) <-> (0 <= i < n)%Z.
Proof.
  unfold zrange. rewrite in_map_iff. split.
  - intros (k & <- & Hk). apply in_seq in Hk. lia.
  - intro Hi. exists (Z.to_nat i). split; [lia|]. apply in_seq. lia.
Qed.

Lemma zrange_NoDup (n : Z) : NoDup (zrange n).
Proof.
  unfold zrange. apply Injective_map_NoDup.
  - intros a b Hab. lia.
  - apply seq_NoDup.
Qed.

Lemma ivec_eqb_eq (a b : IVec) : ivec_eqb a b = true <-> a = b.
Proof.
  destruct a as [a0 a1 a2], b as [b0 b1 b2]. unfold ivec_eqb. cbn.
  rewrite !andb_true_iff, !Z.eqb_eq. split.
  - intros [[-> ->] ->]. reflexivity.
  - intros [= -> -> ->]. auto.
Qed.

Lemma in_grid_range (I : IVec) :
  in_grid I = true <->
  In (i0 I) (zrange n_grid) /\ In (i1 I) (zrange n_grid) /\ In (i2 I) (zrange n_grid).
Proof.
  rewrite !zrange_In. unfold in_grid.
  rewrite !andb_true_iff, !Z.leb_le, !Z.ltb_lt. tauto.
Qed.

(** Adding [e] to one node of the grid adds [e] to the total. *)
Lemma grid_total_gupd (g : IVec -> Q) (pos : IVec) (e : Q) :
  in_grid pos = true ->
  grid_total (gupd g pos (g pos + e)) == grid_total g + e.
Proof.
  intro Hpos. apply in_grid_range in Hpos. destruct Hpos as (H0 & H1 & H2).
  destruct pos as [a b c]. cbn [i0 i1 i2] in *.
  unfold grid_total.
  apply (sumQ_bump _ _ _ a); auto using zrange_NoDup.
  - intros i _ Hi. apply sumQ_ext. intros j _. apply sumQ_ext. intros k _.
    unfold gupd, ivec_eqb. cbn [i0 i1 i2].
    destruct (Z.eqb_spec i a); [contradiction|]. reflexivity.
  - apply (sumQ_bump _ _ _ b); auto using zrange_NoDup.
    + intros j _ Hj. apply sumQ_ext. intros k _.
      unfold gupd, ivec_eqb. cbn [i0 i1 i2].
      destruct (Z.eqb_spec j b); [contradiction|].
      rewrite andb_false_r. reflexivity.
    + apply (sumQ_bump _ _ _ c); auto using zrange_NoDup.
      * intros k _ Hk. unfold gupd, ivec_eqb. cbn [i0 i1 i2].
        destruct (Z.eqb_spec k c); [contradiction|].
        rewrite andb_false_r. reflexivity.
      * unfold gupd, ivec_eqb. cbn [i0 i1 i2].
        rewrite !Z.eqb_refl. reflexivity.
Qed.

Section P2G.

Variable ti_exp : Q -> Q.
Variable ti_svd : Mat -> Mat * Mat * Mat.

(** The neighbourhood loop writes the grid only. *)
Lemma p2g_scatter_fold_frame (fx : Vec) (base : IVec) (w : list Vec)
    (v_p : Vec) (affine : Mat) (l : list (nat * nat * nat)) (st : Sim) :
  let st' := fold_left (p2g_scatter fx base w v_p affine) l st in
  x st' = x st /\ v st' = v st /\ C st' = C st /\ F st' = F st /\
  Jp st' = Jp st /\ materials st' = materials st /\ is_used st' = is_used st.
Proof.
  revert st. induction l as [|ijk l IH]; intro st; cbn [fold_left].
  - repeat split.
  - specialize (IH (p2g_scatter fx base w v_p affine st ijk)).
    cbn zeta in IH. exact IH.
Qed.

(** The body of the particle loop writes [F[p]], [Jp[p]] and the grid. *)
Lemma p2g_particle_frame (st : Sim) (p : Z) :
  let st' := p2g_particle ti_exp ti_svd st p in
  x st' = x st /\ v st' = v st /\ C st' = C st /\
  materials st' = materials st /\ is_used st' = is_used st /\
  (forall q, q <> p -> F st' q = F st q /\ Jp st' q = Jp st q).
Proof.
  unfold p2g_particle. destruct (is_used st p =? 0)%Z.
  - repeat split.
  - cbn zeta.
    match goal with
    | |- context [fold_left ?f ?l ?s] =>
        destruct (p2g_scatter_fold_frame
                    (interp_fx (x st p) (interp_base (x st p)))
                    (interp_base (x st p))
                    (p2g_weights (interp_fx (x st p) (interp_base (x st p))))
                    (v s p)
                    (c_affine (p2g_constitutive ti_exp ti_svd (materials st p)
                                 (C st p) (F st p) (Jp st p)))
                    l s)
          as (Hx & Hv & HC & HF & HJ & Hm & Hu)
    end.
    cbn zeta in *.
    rewrite Hx, Hv, HC, HF, HJ, Hm, Hu. cbn.
    repeat split; unfold upd; destruct (Z.eqb_spec q p); congruence.
Qed.

Lemma p2g_scatter_fold_total (fx : Vec) (base : IVec) (w : list Vec)
    (v_p : Vec) (affine : Mat) (l : list (nat * nat * nat)) (st : Sim) :
  (forall ijk, In ijk l -> in_grid (iadd base (offset_of ijk)) = true) ->
  grid_total (grid_m (fold_left (p2g_scatter fx base w v_p affine) l st)) ==
  grid_total (grid_m st) + sumQ (map (fun ijk => node_weight w ijk * p_mass) l).
Proof.
  revert st. induction l as [|ijk l IH]; intros st Hin; cbn [fold_left map sumQ fold_right].
  - ring.
  - rewrite IH by (intros; apply Hin; now right).
    change (grid_m (p2g_scatter fx base w v_p affine st ijk))
      with (gupd (grid_m st) (iadd base (offset_of ijk))
              (grid_m st (iadd base (offset_of ijk)) + node_weight w ijk * p_mass)).
    rewrite grid_total_gupd by (apply Hin; now left).
    fold (sumQ (map (fun ijk0 => node_weight w ijk0 * p_mass) l)). ring.
Qed.

(** The 27 products of weights add up to 1, whatever [fx] is. *)
Lemma node_weights_total (fx : Vec) :
  sumQ (map (fun ijk => node_weight (p2g_weights fx) ijk * p_mass) ndrange3) == p_mass.
Proof.
  destruct fx as [a b c]. cbn -[Qpower p_mass]. ring.
Qed.

Lemma neighbourhood_in_grid_In (x_p : Vec) (ijk : nat * nat * nat) :
  neighbourhood_in_grid x_p = true -> In ijk ndrange3 ->
  in_grid (iadd (interp_base x_p) (offset_of ijk)) = true.
Proof.
  unfold neighbourhood_in_grid. intros H Hin.
  rewrite forallb_forall in H. now apply H.
Qed.

(** One particle in use adds [p_mass] to the total, one not in use nothing. *)
Lemma p2g_particle_total (st : Sim) (p : Z) :
  (is_used st p <> 0%Z -> neighbourhood_in_grid (x st p) = true) ->
  grid_total (grid_m (p2g_particle ti_exp ti_svd st p)) ==
  grid_total (grid_m st) + (if (is_used st p =? 0)%Z then 0 else p_mass).
Proof.
  intro Hin. unfold p2g_particle.
  destruct (Z.eqb_spec (is_used st p) 0) as [Hz | Hnz].
  - ring.
  - cbn zeta. rewrite p2g_scatter_fold_total.
    + rewrite node_weights_total. reflexivity.
    + intros ijk Hijk. apply neighbourhood_in_grid_In; auto.
Qed.

Lemma p2g_fold_total (l : list Z) (st : Sim) :
  (forall p, In p l -> is_used st p <> 0%Z -> neighbourhood_in_grid (x st p) = true) ->
  grid_total (grid_m (fold_left (p2g_particle ti_exp ti_svd) l st)) ==
  grid_total (grid_m st) +
  inject_Z (Z.of_nat (length (filter (fun p => negb (is_used st p =? 0)%Z) l))) * p_mass.
Proof.
  revert st. induction l as [|p l IH]; intros st Hin; cbn [fold_left filter].
  - cbn. ring.
  - destruct (p2g_particle_frame st p) as (Hx & _ & _ & _ & Hu & _).
    cbn zeta in Hx, Hu.
    rewrite IH.
    + rewrite p2g_particle_total by (apply Hin; now left).
      rewrite Hu.
      destruct (is_used st p =? 0)%Z; cbn [negb length].
      * ring.
      * rewrite Nat2Z.inj_succ. unfold Z.succ. rewrite inject_Z_plus. ring.
    + intros q Hq. rewrite Hx, Hu. apply Hin. now right.
Qed.

Lemma grid_total_zero_out (st : Sim) :
  grid_total (grid_m (substep_zero_out st)) == 0.
Proof.
  unfold grid_total.
  apply sumQ_zero. intros i Hi. apply sumQ_zero. intros j Hj.
  apply sumQ_zero. intros k Hk. cbn.
  assert (HI : in_grid (mkIVec i j k) = true) by (apply in_grid_range; auto).
  rewrite HI. reflexivity.
Qed.

Lemma p2g_from_zero_total (l : list Z) (st : Sim) :
  (forall p, In p l -> is_used st p <> 0%Z -> neighbourhood_in_grid (x st p) = true) ->
  grid_total (grid_m (fold_left (p2g_particle ti_exp ti_svd) l (substep_zero_out st))) ==
  inject_Z (Z.of_nat (length (filter (fun p => negb (is_used st p =? 0)%Z) l))) * p_mass.
Proof.
  intro Hin. rewrite p2g_fold_total by exact Hin.
  rewrite grid_total_zero_out.
  change (is_used (substep_zero_out st)) with (is_used st).
  generalize (inject_Z (Z.of_nat (length
    (filter (fun p => negb (is_used st p =? 0)%Z) l)))).
  intro n. ring.
Qed.

(** C4. After P2G has run on the grid left by the zero-out stage, if the
    27 neighbour nodes of every particle in use lie in the grid, the sum of
    [grid_m] over all grid nodes is the number of particles in use times
    [p_mass], whatever the materials, velocities and deformation states of
    the particles are. *)
Theorem p2g_conserves_mass (st : Sim) :
  (forall p, in_particles p = true -> is_used st p <> 0%Z ->
             neighbourhood_in_grid (x st p) = true) ->
  grid_total (grid_m (substep_p2g ti_exp ti_svd (substep_zero_out st))) ==
  inject_Z (active_count st) * p_mass.
Proof.
  intro Hin. unfold substep_p2g, active_count.
  apply p2g_from_zero_total.
  intros p Hp. apply Hin. apply zrange_In in Hp. unfold in_particles.
  apply andb_true_iff. split; [apply Z.leb_le | apply Z.ltb_lt]; lia.
Qed.

End P2G.

Lemma p2g_conserves_mass_witness :
  (forall p, in_particles p = true -> is_used (one_particle WATER) p <> 0%Z ->
             neighbourhood_in_grid (x (one_particle WATER) p) = true) /\
  grid_total (grid_m (substep_p2g exp_at_zero svd_of_diagonal
                        (substep_zero_out (one_particle WATER)))) ==
  inject_Z (active_count (one_particle WATER)) * p_mass.
Proof.
  assert (Hin : forall p, in_particles p = true ->
                  is_used (one_particle WATER) p <> 0%Z ->
                  neighbourhood_in_grid (x (one_particle WATER) p) = true).
  { intros p _ Hu. cbn in Hu |- *. unfold upd in *.
    destruct (p =? 0)%Z; [reflexivity | now elim Hu]. }
  split; [exact Hin|].
  exact (p2g_conserves_mass exp_at_zero svd_of_diagonal (one_particle WATER) Hin).
Defined.

(** ** The constitutive update *)

Lemma Qcompare_Lt (a b : Q) : a < b -> (a ?= b) = Lt.
Proof. intro H. now apply Qlt_alt. Qed.

Lemma Qcompare_Gt (a b : Q) : b < a -> (a ?= b) = Gt.
Proof. intro H. now apply Qgt_alt. Qed.

Lemma Qcompare_not_Lt (a b : Q) : b <= a -> (a ?= b) <> Lt.
Proof. intros H Hc. apply Qlt_alt in Hc. apply (Qlt_not_le _ _ Hc H). Qed.

Lemma Qcompare_not_Gt (a b : Q) : a <= b -> (a ?= b) <> Gt.
Proof. intros H Hc. apply Qgt_alt in Hc. apply (Qlt_not_le _ _ Hc H). Qed.

Lemma Qmin_Qmax_clamp (s lo hi : Q) :
  lo <= hi -> Qmin (Qmax s lo) hi = clamp s lo hi.
Proof.
  intro Hlohi. unfold clamp, Qmin, Qmax, GenericMinMax.gmin, GenericMinMax.gmax.
  destruct (Qltb s lo) eqn:Hs.
  - apply Qltb_true in Hs. rewrite (Qcompare_Lt _ _ Hs).
    pose proof (Qcompare_not_Gt _ _ Hlohi) as Hc.
    destruct (lo ?= hi); congruence.
  - apply Qltb_false in Hs.
    pose proof (Qcompare_not_Lt _ _ Hs) as Hc.
    assert (Hmax : match s ?= lo with Lt => lo | _ => s end = s).
    { destruct (s ?= lo); congruence. }
    rewrite Hmax.
    destruct (Qltb hi s) eqn:Hh.
    + apply Qltb_true in Hh. now rewrite (Qcompare_Gt _ _ Hh).
    + apply Qltb_false in Hh.
      pose proof (Qcompare_not_Gt _ _ Hh) as Hc'.
      destruct (s ?= hi); congruence.
Qed.

Lemma new_sig_of_snow (s : Q) : new_sig_of SNOW s = snow_clamp s.
Proof.
  unfold new_sig_of, snow_clamp. cbn [Z.eqb SNOW Pos.eqb].
  apply Qmin_Qmax_clamp. discriminate.
Qed.

Lemma snow_clamp_bounds (s : Q) :
  1 - 2.5e-2 <= snow_clamp s <= 1 + 4.5e-3.
Proof.
  unfold snow_clamp, clamp.
  destruct (Qltb s (1 - 2.5e-2)) eqn:Hlo.
  - split; [apply Qle_refl | discriminate].
  - apply Qltb_false in Hlo.
    destruct (Qltb (1 + 4.5e-3) s) eqn:Hhi.
    + split; [discriminate | apply Qle_refl].
    + apply Qltb_false in Hhi. split; assumption.
Qed.

Lemma mset_diag_same (m : Mat) (d : nat) : mset m d d (mget m d d) = m.
Proof.
  destruct m as [[a b c] [e f g] [h i j]].
  destruct d as [|[|d]]; reflexivity.
Qed.

Section Constitutive.

Variable ti_exp : Q -> Q.
Variable ti_svd : Mat -> Mat * Mat * Mat.

Lemma plasticity_unfold (mat : Z) (sig : Mat) (Jp_p : Q) :
  let n d := new_sig_of mat (mget sig d d) in
  plasticity mat sig Jp_p =
  mkPlastic (Jp_p * (mget sig 0 0 / n 0%nat) * (mget sig 1 1 / n 1%nat)
                  * (mget sig 2 2 / n 2%nat))
            (mset (mset (mset sig 0 0 (n 0%nat)) 1 1 (n 1%nat)) 2 2 (n 2%nat))
            (1.0 * n 0%nat * n 1%nat * n 2%nat).
Proof.
  destruct sig as [[a b e] [f g h] [i j k]]. reflexivity.
Qed.

(** The projections of the non-water branch, lines 64-86. *)
Lemma p2g_constitutive_Jp (mat : Z) (C_p F_p : Mat) (Jp_p : Q) :
  mat <> WATER ->
  c_Jp (p2g_constitutive ti_exp ti_svd mat C_p F_p Jp_p) =
  pl_Jp (plasticity mat (predicted_sig ti_svd C_p F_p) Jp_p).
Proof.
  intro Hm. unfold p2g_constitutive, predicted_sig.
  destruct (Z.eqb_spec mat WATER) as [|_]; [contradiction|]. cbn [negb].
  destruct (ti_svd (predicted_F C_p F_p)) as [[U sig] V]. reflexivity.
Qed.

Lemma p2g_constitutive_F (mat : Z) (C_p F_p : Mat) (Jp_p : Q) :
  mat <> WATER ->
  c_F (p2g_constitutive ti_exp ti_svd mat C_p F_p Jp_p) =
  if (mat =? SNOW)%Z
  then mmul (mmul (fst (fst (ti_svd (predicted_F C_p F_p))))
                  (pl_sig (plasticity mat (predicted_sig ti_svd C_p F_p) Jp_p)))
            (mtranspose (snd (ti_svd (predicted_F C_p F_p))))
  else predicted_F C_p F_p.
Proof.
  intro Hm. unfold p2g_constitutive, predicted_sig.
  destruct (Z.eqb_spec mat WATER) as [|_]; [contradiction|]. cbn [negb].
  destruct (ti_svd (predicted_F C_p F_p)) as [[U sig] V]. reflexivity.
Qed.

End Constitutive.

(** ** What P2G and a whole substep do to one particle *)

Section SubstepFrame.

Variable ti_exp : Q -> Q.
Variable ti_svd : Mat -> Mat * Mat * Mat.

Lemma p2g_particle_self (st : Sim) (p : Z) :
  is_used st p <> 0%Z ->
  let c := p2g_constitutive ti_exp ti_svd (materials st p) (C st p) (F st p) (Jp st p) in
  F (p2g_particle ti_exp ti_svd st p) p = c_F c /\
  Jp (p2g_particle ti_exp ti_svd st p) p = c_Jp c.
Proof.
  intros Hu c. unfold p2g_particle.
  destruct (Z.eqb_spec (is_used st p) 0) as [|_]; [contradiction|].
  cbn zeta. fold c.
  match goal with
  | |- context [fold_left (p2g_scatter ?fx ?b ?w ?vp ?a) ?l ?s] =>
      destruct (p2g_scatter_fold_frame fx b w vp a l s)
        as (_ & _ & _ & HF & HJ & _ & _)
  end.
  cbn zeta in HF, HJ. rewrite HF, HJ. cbn. unfold upd.
  rewrite Z.eqb_refl. split; reflexivity.
Qed.

Lemma p2g_particle_not_used (st : Sim) (p : Z) :
  is_used st p = 0%Z -> p2g_particle ti_exp ti_svd st p = st.
Proof.
  intro Hu. unfold p2g_particle. now rewrite Hu.
Qed.

(** The kernel gives particle [p] what its own iteration computes from the
    fields before the kernel. *)
Lemma p2g_fold_at (l : list Z) (st : Sim) (p : Z) :
  NoDup l ->
  let st' := fold_left (p2g_particle ti_exp ti_svd) l st in
  let c := p2g_constitutive ti_exp ti_svd (materials st p) (C st p) (F st p) (Jp st p) in
  materials st' = materials st /\ is_used st' = is_used st /\
  C st' = C st /\ x st' = x st /\ v st' = v st /\
  F st' p = (if existsb (Z.eqb p) l && negb (is_used st p =? 0)%Z
             then c_F c else F st p) /\
  Jp st' p = (if existsb (Z.eqb p) l && negb (is_used st p =? 0)%Z
              then c_Jp c else Jp st p).
Proof.
  revert st. induction l as [|q l IH]; intros st Hnd; cbn [fold_left existsb].
  - cbn. repeat split.
  - inversion Hnd as [|? ? Hnotin Hnd']; subst.
    specialize (IH (p2g_particle ti_exp ti_svd st q) Hnd').
    cbn zeta in IH.
    destruct IH as (Hm & Hu & HC & Hx & Hv & HF & HJ).
    destruct (p2g_particle_frame ti_exp ti_svd st q)
      as (Hx1 & Hv1 & HC1 & Hm1 & Hu1 & Hother).
    cbn zeta in *.
    rewrite Hm, Hu, HC, Hx, Hv, HF, HJ, Hm1, Hu1, HC1, Hx1, Hv1.
    repeat split.
    + destruct (Z.eqb_spec p q) as [-> | Hne].
      * assert (Hex : existsb (Z.eqb q) l = false).
        { destruct (existsb (Z.eqb q) l) eqn:Hex; [|reflexivity].
          apply existsb_exists in Hex. destruct Hex as (r & Hr & Heq).
          apply Z.eqb_eq in Heq. subst r. contradiction. }
        rewrite Hex. cbn [orb andb].
        destruct (Z.eqb_spec (is_used st q) 0) as [Hz | Hnz]; cbn [negb].
        -- now rewrite p2g_particle_not_used.
        -- apply p2g_particle_self. exact Hnz.
      * destruct (Hother p Hne) as [HFp HJp]. rewrite HFp, HJp. reflexivity.
    + destruct (Z.eqb_spec p q) as [-> | Hne].
      * assert (Hex : existsb (Z.eqb q) l = false).
        { destruct (existsb (Z.eqb q) l) eqn:Hex; [|reflexivity].
          apply existsb_exists in Hex. destruct Hex as (r & Hr & Heq).
          apply Z.eqb_eq in Heq. subst r. contradiction. }
        rewrite Hex. cbn [orb andb].
        destruct (Z.eqb_spec (is_used st q) 0) as [Hz | Hnz]; cbn [negb].
        -- now rewrite p2g_particle_not_used.
        -- apply p2g_particle_self. exact Hnz.
      * destruct (Hother p Hne) as [HFp HJp]. rewrite HFp, HJp. reflexivity.
Qed.

Lemma zrange_existsb (n p : Z) :
  existsb (Z.eqb p) (zrange n) = (0 <=? p)%Z && (p <? n)%Z.
Proof.
  destruct ((0 <=? p)%Z && (p <? n)%Z) eqn:Hb.
  - apply existsb_exists. exists p. split; [|apply Z.eqb_refl].
    apply zrange_In. lia.
  - destruct (existsb (Z.eqb p) (zrange n)) eqn:Hex; [|reflexivity].
    apply existsb_exists in Hex. destruct Hex as (r & Hr & Heq).
    apply Z.eqb_eq in Heq. subst r. apply zrange_In in Hr. lia.
Qed.

(** P2G, for each particle: the fields it does not write, and the fields
    of a particle in use after it. *)
Lemma substep_p2g_at (st : Sim) (p : Z) :
  let st' := substep_p2g ti_exp ti_svd st in
  let c := p2g_constitutive ti_exp ti_svd (materials st p) (C st p) (F st p) (Jp st p) in
  materials st' = materials st /\ is_used st' = is_used st /\
  C st' = C st /\ x st' = x st /\ v st' = v st /\
  F st' p = (if in_particles p && negb (is_used st p =? 0)%Z then c_F c else F st p) /\
  Jp st' p = (if in_particles p && negb (is_used st p =? 0)%Z then c_Jp c else Jp st p).
Proof.
  cbn zeta. unfold substep_p2g, in_particles.
  rewrite <- (zrange_existsb n_particles p).
  apply p2g_fold_at. apply zrange_NoDup.
Qed.

End SubstepFrame.

(** ** The plastic update of a snow particle *)

Section SnowClamp.

Variable ti_exp : Q -> Q.
Variable ti_svd : Mat -> Mat * Mat * Mat.

Lemma in_use_active (st : Sim) (p : Z) :
  in_particles p = true -> is_used st p <> 0%Z ->
  in_particles p && negb (is_used st p =? 0)%Z = true.
Proof.
  intros Hp Hu. rewrite Hp.
  destruct (Z.eqb_spec (is_used st p) 0); [contradiction | reflexivity].
Qed.

(** C7. P2G on a particle in use, with [U, sig, V] the decomposition of
    its elastic predictor [(I + dt*C[p]) @ F[p]].  When the particle is
    SNOW, every singular value [sig[d, d]] is replaced by its clamp to
    [[1 - 2.5e-2, 1 + 4.5e-3]], the kernel leaves in [Jp[p]] the old value
    multiplied by [sig[d, d] / new_sig] for each [d], it leaves in [F[p]]
    the matrix [U @ sig' @ V^T] with the clamped values on the diagonal of
    [sig'], and [J] is the product of the clamped values.  When the
    particle is JELLY, the loop leaves [sig] as it is and the kernel
    leaves the elastic predictor in [F[p]]. *)
Theorem snow_plasticity_clamp (st : Sim) (p : Z) :
  in_particles p = true -> is_used st p <> 0%Z ->
  let F1 := predicted_F (C st p) (F st p) in
  let U := fst (fst (ti_svd F1)) in
  let sig := predicted_sig ti_svd (C st p) (F st p) in
  let V := snd (ti_svd F1) in
  let c d := snow_clamp (mget sig d d) in
  let sig' := mset (mset (mset sig 0 0 (c 0%nat)) 1 1 (c 1%nat)) 2 2 (c 2%nat) in
  let st' := substep_p2g ti_exp ti_svd st in
  (materials st p = SNOW ->
     pl_sig (plasticity SNOW sig (Jp st p)) = sig' /\
     (1 - 2.5e-2 <= c 0%nat <= 1 + 4.5e-3 /\
      1 - 2.5e-2 <= c 1%nat <= 1 + 4.5e-3 /\
      1 - 2.5e-2 <= c 2%nat <= 1 + 4.5e-3) /\
     Jp st' p = Jp st p * (mget sig 0 0 / c 0%nat) * (mget sig 1 1 / c 1%nat)
                        * (mget sig 2 2 / c 2%nat) /\
     F st' p = mmul (mmul U sig') (mtranspose V) /\
     pl_J (plasticity SNOW sig (Jp st p)) == c 0%nat * c 1%nat * c 2%nat) /\
  (materials st p = JELLY ->
     pl_sig (plasticity JELLY sig (Jp st p)) = sig /\
     F st' p = F1).
Proof.
  intros Hp Hu F1 U sig V c sig' st'.
  destruct (substep_p2g_at ti_exp ti_svd st p) as (_ & _ & _ & _ & _ & HF & HJ).
  cbn zeta in HF, HJ. rewrite (in_use_active st p Hp Hu) in HF, HJ.
  fold st' in HF, HJ. clearbody st'.
  split; intro Hm; rewrite Hm in HF, HJ.
  - assert (Hsnow : plasticity SNOW sig (Jp st p) =
              mkPlastic (Jp st p * (mget sig 0 0 / c 0%nat) * (mget sig 1 1 / c 1%nat)
                                 * (mget sig 2 2 / c 2%nat))
                        sig' (1.0 * c 0%nat * c 1%nat * c 2%nat)).
    { rewrite plasticity_unfold. cbn zeta. rewrite !new_sig_of_snow. reflexivity. }
    split; [now rewrite Hsnow|].
    split; [repeat split; apply snow_clamp_bounds|].
    split.
    { rewrite HJ, p2g_constitutive_Jp by discriminate.
      fold sig. now rewrite Hsnow. }
    split.
    { rewrite HF, p2g_constitutive_F by discriminate.
      fold F1 sig U V. cbn [SNOW Z.eqb Pos.eqb]. now rewrite Hsnow. }
    rewrite Hsnow. cbn [pl_J]. ring.
  - split.
    + rewrite plasticity_unfold. cbn zeta. unfold new_sig_of.
      cbn [pl_sig JELLY SNOW Z.eqb Pos.eqb].
      now rewrite !mset_diag_same.
    + rewrite HF, p2g_constitutive_F by discriminate. reflexivity.
Qed.

End SnowClamp.

Lemma snow_plasticity_clamp_witness :
  in_particles 0 = true /\ is_used squeezed_snow 0 <> 0%Z /\
  materials squeezed_snow 0 = SNOW /\
  Jp (substep_p2g exp_at_zero svd_of_diagonal squeezed_snow) 0
  = Jp squeezed_snow 0
    * (mget (predicted_sig svd_of_diagonal (C squeezed_snow 0) (F squeezed_snow 0)) 0 0
       / snow_clamp
           (mget (predicted_sig svd_of_diagonal (C squeezed_snow 0) (F squeezed_snow 0)) 0 0))
    * (mget (predicted_sig svd_of_diagonal (C squeezed_snow 0) (F squeezed_snow 0)) 1 1
       / snow_clamp
           (mget (predicted_sig svd_of_diagonal (C squeezed_snow 0) (F squeezed_snow 0)) 1 1))
    * (mget (predicted_sig svd_of_diagonal (C squeezed_snow 0) (F squeezed_snow 0)) 2 2
       / snow_clamp
           (mget (predicted_sig svd_of_diagonal (C squeezed_snow 0) (F squeezed_snow 0)) 2 2)).
Proof.
  assert (Hu : is_used squeezed_snow 0 <> 0%Z) by discriminate.
  split; [reflexivity|]. split; [exact Hu|]. split; [reflexivity|].
  exact (proj1 (proj2 (proj2
           (proj1 (snow_plasticity_clamp exp_at_zero svd_of_diagonal squeezed_snow 0
                     eq_refl Hu) eq_refl)))).
Defined.

Section Materials.

Variable ti_exp : Q -> Q.
Variable ti_svd : Mat -> Mat * Mat * Mat.

(** Zero-out, the momentum step and G2P do not write [F] or [materials]. *)
Lemma substep_zero_out_particles (st : Sim) :
  F (substep_zero_out st) = F st /\ materials (substep_zero_out st) = materials st.
Proof. split; reflexivity. Qed.

Lemma substep_grid_particles (g : Q) (st : Sim) :
  F (substep_grid g st) = F st /\ materials (substep_grid g st) = materials st.
Proof. split; reflexivity. Qed.

Lemma substep_g2p_particles (st : Sim) :
  F (substep_g2p st) = F st /\ materials (substep_g2p st) = materials st.
Proof. split; reflexivity. Qed.

Lemma substep_water_F (g : Q) (st : Sim) (p : Z) :
  materials st p = WATER ->
  F (substep ti_exp ti_svd g st) p = F st p /\
  materials (substep ti_exp ti_svd g st) = materials st.
Proof.
  intro Hw. unfold substep.
  destruct (substep_p2g_at ti_exp ti_svd (substep_zero_out st) p)
    as (Hm & _ & _ & _ & _ & HF & _).
  cbn zeta in Hm, HF.
  destruct (substep_zero_out_particles st) as [HF0 Hm0].
  rewrite HF0, Hm0 in HF. rewrite Hm0 in Hm. rewrite Hw in HF.
  revert Hm HF.
  generalize (substep_p2g ti_exp ti_svd (substep_zero_out st)).
  intros s1 Hm HF.
  destruct (substep_g2p_particles (substep_grid g s1)) as [HF2 Hm2].
  destruct (substep_grid_particles g s1) as [HF1 Hm1].
  rewrite HF2, Hm2, HF1, Hm1, HF, Hm. split; [|reflexivity].
  destruct (in_particles p && negb (is_used (substep_zero_out st) p =? 0)%Z);
    reflexivity.
Qed.

(** The water branch, lines 88-89. *)
Lemma p2g_constitutive_water (C_p F_p : Mat) (Jp_p : Q) :
  p2g_constitutive ti_exp ti_svd WATER C_p F_p Jp_p =
  mkConstitutive F_p Jp_p
    (madd (mmuls midentity (- dt * 4 * E * p_vol * (Jp_p - 1) * inv_dx * inv_dx))
          (mscale p_mass C_p)).
Proof. reflexivity. Qed.

Lemma water_affine (A : Mat) (j : Q) :
  meq (madd (mmuls midentity (- dt * 4 * E * p_vol * (j - 1) * inv_dx * inv_dx))
            (mscale p_mass A))
      (madd (mmuls midentity (- dt * 4 * E * p_vol * (j - 1) * inv_dx ^ 2))
            (mscale p_mass A)).
Proof.
  generalize dt, E, p_vol, inv_dx, p_mass. intros a b c d e.
  destruct A as [[a0 a1 a2] [b0 b1 b2] [c0 c1 c2]].
  unfold meq, veq, madd, mmuls, mscale, mmap2, vmap2, vmap, vscale, midentity.
  cbn [r0 r1 r2 v0 v1 v2].
  repeat split; ring.
Qed.

(** C8. For a WATER particle the constitutive branch of P2G returns the
    deformation gradient it was given, and the scatter matrix is
    [I * stress + p_mass * C] with
    [stress = -dt * 4 * E * p_vol * (Jp - 1) * inv_dx^2].  The P2G kernel,
    and any number of whole substeps, leave [F[p]] of a water particle as
    it was, so it stays the identity it was initialized to. *)
Theorem water_keeps_F (st : Sim) (p : Z) (gravities : list Q) :
  materials st p = WATER ->
  let c := p2g_constitutive ti_exp ti_svd WATER (C st p) (F st p) (Jp st p) in
  let stress := - dt * 4 * E * p_vol * (Jp st p - 1) * inv_dx ^ 2 in
  c_F c = F st p /\
  meq (c_affine c) (madd (mmuls midentity stress) (mscale p_mass (C st p))) /\
  F (substep_p2g ti_exp ti_svd st) p = F st p /\
  F (run_substeps ti_exp ti_svd gravities st) p = F st p.
Proof.
  intros Hw c stress. subst c stress.
  rewrite p2g_constitutive_water. cbn [c_F c_affine].
  split; [reflexivity|]. split; [apply water_affine|].
  split.
  { destruct (substep_p2g_at ti_exp ti_svd st p) as (_ & _ & _ & _ & _ & HF & _).
    cbn zeta in HF. rewrite HF, Hw, p2g_constitutive_water. cbn [c_F].
    destruct (in_particles p && negb (is_used st p =? 0)%Z); reflexivity. }
  unfold run_substeps. revert st Hw.
  induction gravities as [|g gs IH]; intros st Hw; cbn [fold_left].
  - reflexivity.
  - destruct (substep_water_F g st p Hw) as [HF Hm].
    rewrite IH by (now rewrite Hm). exact HF.
Qed.

(** C10 (amended). For a JELLY particle whose elastic predictor has no
    zero singular value, the constitutive update and the P2G kernel leave
    [Jp] at its value: each factor [sig[d, d] / new_sig] is a number
    divided by itself. *)
Theorem jelly_keeps_Jp (st : Sim) (p : Z) :
  materials st p = JELLY ->
  let sig := predicted_sig ti_svd (C st p) (F st p) in
  ~ mget sig 0 0 == 0 -> ~ mget sig 1 1 == 0 -> ~ mget sig 2 2 == 0 ->
  c_Jp (p2g_constitutive ti_exp ti_svd JELLY (C st p) (F st p) (Jp st p)) == Jp st p /\
  Jp (substep_p2g ti_exp ti_svd st) p == Jp st p.
Proof.
  intros Hj sig H0 H1 H2.
  assert (Hc : c_Jp (p2g_constitutive ti_exp ti_svd JELLY (C st p) (F st p) (Jp st p))
               == Jp st p).
  { rewrite p2g_constitutive_Jp by discriminate. fold sig.
    rewrite plasticity_unfold. cbn zeta. unfold new_sig_of.
    cbn [pl_Jp JELLY SNOW Z.eqb Pos.eqb]. field. auto. }
  split; [exact Hc|].
  destruct (substep_p2g_at ti_exp ti_svd st p) as (_ & _ & _ & _ & _ & _ & HJ).
  cbn zeta in HJ. rewrite HJ, Hj.
  destruct (in_particles p && negb (is_used st p =? 0)%Z); [exact Hc | reflexivity].
Qed.

End Materials.

Lemma water_keeps_F_witness :
  materials (one_particle WATER) 0 = WATER /\
  F (run_substeps exp_at_zero svd_of_diagonal [gravity; gravity] (one_particle WATER)) 0
  = F (one_particle WATER) 0.
Proof.
  split; [reflexivity|].
  apply (water_keeps_F exp_at_zero svd_of_diagonal (one_particle WATER) 0
           [gravity; gravity]).
  reflexivity.
Defined.

Lemma jelly_keeps_Jp_witness :
  materials (one_particle JELLY) 0 = JELLY /\
  Jp (substep_p2g exp_at_zero svd_of_diagonal (one_particle JELLY)) 0
  == Jp (one_particle JELLY) 0.
Proof.
  split; [reflexivity|].
  apply (jelly_keeps_Jp exp_at_zero svd_of_diagonal (one_particle JELLY) 0).
  - reflexivity.
  - intro H. vm_compute in H. discriminate H.
  - intro H. vm_compute in H. discriminate H.
  - intro H. vm_compute in H. discriminate H.
Defined.

(** C10 as stated fails for a jelly particle whose elastic predictor is
    singular.  For [collapsing_jelly] the predictor is the zero matrix, of
    which every singular value is 0; [new_sig] is that same 0 and each
    factor is [0 / 0], NaN in floating point and 0 with [Qdiv].  [Jp] was 1
    and is not 1 afterwards. *)
Lemma jelly_singular_counterexample :
  materials collapsing_jelly 0 = JELLY /\
  is_used collapsing_jelly 0 <> 0%Z /\
  meq (predicted_F (C collapsing_jelly 0) (F collapsing_jelly 0)) mzero /\
  new_sig_of JELLY (mget (predicted_sig svd_of_diagonal (C collapsing_jelly 0)
                            (F collapsing_jelly 0)) 0 0) == 0 /\
  Jp collapsing_jelly 0 == 1 /\
  ~ Jp (p2g_particle exp_at_zero svd_of_diagonal collapsing_jelly 0) 0
    == Jp collapsing_jelly 0.
Proof.
  split; [reflexivity|]. split; [discriminate|].
  split; [vm_compute; repeat split; reflexivity|].
  split; [reflexivity|]. split; [reflexivity|].
  intro H. vm_compute in H. discriminate H.
Qed.

(** ** Grid to particle *)

(** C3 (amended). After G2P a particle in use has the velocity gathered
    from its 27 neighbour nodes and the position [x + dt * v] of the
    explicit Euler step, as it is: the position is not clamped to the
    grid, and the kernel writes no field besides [v], [C], [x] and [Jp], so
    it records nothing about a particle that leaves the domain. *)
Theorem g2p_advects_unclamped (st : Sim) (p : Z) :
  in_particles p = true -> is_used st p <> 0%Z ->
  v (substep_g2p st) p = fst (g2p_new (grid_v st) (x st p)) /\
  C (substep_g2p st) p = snd (g2p_new (grid_v st) (x st p)) /\
  x (substep_g2p st) p = vadd (x st p) (vscale dt (v (substep_g2p st) p)) /\
  Jp (substep_g2p st) p = Jp st p * (1 + dt * trace (C (substep_g2p st) p)) /\
  grid_v (substep_g2p st) = grid_v st /\
  grid_m (substep_g2p st) = grid_m st /\
  F (substep_g2p st) = F st /\
  materials (substep_g2p st) = materials st /\
  is_used (substep_g2p st) = is_used st /\
  colors_random (substep_g2p st) = colors_random st.
Proof.
  intros Hp Hu.
  assert (Hact : in_particles p && negb (is_used st p =? 0)%Z = true).
  { rewrite Hp. destruct (Z.eqb_spec (is_used st p) 0); [contradiction | reflexivity]. }
  cbn. rewrite Hact. repeat split.
Qed.

Lemma g2p_advects_unclamped_witness :
  in_particles 0 = true /\ is_used rising_sim 0 <> 0%Z /\
  x (substep_g2p rising_sim) 0 =
  vadd (x rising_sim 0) (vscale dt (v (substep_g2p rising_sim) 0)).
Proof.
  split; [reflexivity|]. split; [discriminate|].
  apply (g2p_advects_unclamped rising_sim 0); [reflexivity | discriminate].
Defined.

(** C3 as stated fails: the particle of [rising_sim] reads the nodes 123 to
    125 of the second axis, all in the grid; G2P moves it by [dt * 300],
    and the base index of its new position is 126, whose neighbourhood
    reaches the node 128 = n_grid, outside the grid. *)
Lemma particle_leaves_grid_counterexample :
  in_particles 0 = true /\ is_used rising_sim 0 <> 0%Z /\
  neighbourhood_in_grid (x rising_sim 0) = true /\
  interp_base (x (substep_g2p rising_sim) 0) = mkIVec 63 126 63 /\
  (i1 (interp_base (x (substep_g2p rising_sim) 0)) + 2 = n_grid)%Z /\
  neighbourhood_in_grid (x (substep_g2p rising_sim) 0) = false.
Proof.
  split; [reflexivity|]. split; [discriminate|].
  split; [reflexivity|]. split; [vm_compute; reflexivity|].
  split; vm_compute; reflexivity.
Qed.
(** ** Initialization *)

Lemma n_particles_value : n_particles = 524288%Z.
Proof. reflexivity. Qed.

Lemma cast_int_floor (q : Q) : 0 <= q -> cast_int q = Qfloor q.
Proof.
  destruct q as [n d]. unfold Qle, cast_int, Qfloor. cbn.
  intro Hn. apply Z.quot_div_nonneg; lia.
Qed.

Lemma Qfloor_nonneg (q : Q) : 0 <= q -> (0 <= Qfloor q)%Z.
Proof.
  intro Hq. change 0%Z with (Qfloor 0). now apply Qfloor_resp_le.
Qed.

Lemma wrap_i32_id (n : Z) : (-2147483648 <= n < 2147483648)%Z -> wrap_i32 n = n.
Proof. intro H. unfold wrap_i32. rewrite Z.mod_small by lia. lia. Qed.

Lemma wrap_i32_slot (n : Z) : (0 <= n <= n_particles)%Z -> wrap_i32 n = n.
Proof. rewrite n_particles_value. intro H. apply wrap_i32_id. lia. Qed.

Lemma fits_i64_slot (n : Z) : (0 <= n <= n_particles)%Z -> fits_i64 n = true.
Proof.
  rewrite n_particles_value. intro H. unfold fits_i64.
  apply andb_true_iff. split; [apply Z.leb_le | apply Z.ltb_lt]; lia.
Qed.

Lemma covers_inside (a b p : Z) : (a <= p < b)%Z -> covers p (a, b) = true.
Proof.
  intro Hp. unfold covers. cbn [fst snd].
  apply andb_true_iff. split; [apply Z.leb_le | apply Z.ltb_lt]; lia.
Qed.

Lemma covers_outside (a b p : Z) : (p < a \/ b <= p)%Z -> covers p (a, b) = false.
Proof.
  intro Hp. unfold covers. cbn [fst snd].
  apply andb_false_iff. destruct Hp; [left; apply Z.leb_gt | right; apply Z.ltb_ge]; lia.
Qed.


Lemma in_particles_range (p : Z) : in_particles p = true <-> (0 <= p < n_particles)%Z.
Proof.
  unfold in_particles. rewrite andb_true_iff, Z.leb_le, Z.ltb_lt. reflexivity.
Qed.

(** The sum of lines 186-188 on a list of cuboids. *)
Lemma sum_volumes_cubes (cubes : list CubeVolume) (acc : float64) :
  sum_volumes (map Cube cubes) acc
  = Some (fold_left (fun t c => f64_add t (volume c)) cubes acc).
Proof.
  revert acc. induction cubes as [|c rest IH]; intro acc; cbn [map sum_volumes fold_left].
  - reflexivity.
  - apply IH.
Qed.

(** The sum fails exactly on an entry without [volume]. *)
Lemma sum_volumes_none (vols : list VolumeSpec) (acc : float64) :
  sum_volumes vols acc = None <-> In (OtherObject None) vols.
Proof.
  revert acc. induction vols as [|[c | [q|]] rest IH]; intro acc; cbn [sum_volumes In].
  - split; [discriminate | contradiction].
  - rewrite IH. split; [now right | intros [H | H]; [discriminate | exact H]].
  - rewrite IH. split; [now right | intros [H | H]; [discriminate | exact H]].
  - split; [now left | reflexivity].
Qed.

Lemma allocation_step (total_vol : float64) (start : Z) (c : CubeVolume)
    (rest : list CubeVolume) :
  allocation total_vol start (c :: rest) =
  (start, range_stop total_vol start c rest)
  :: allocation total_vol (range_stop total_vol start c rest) rest.
Proof. destruct rest; reflexivity. Qed.


(** One step of a budget that suffices. *)
Lemma fits_step (total_vol : float64) (start : Z) (c : CubeVolume)
    (rest : list CubeVolume) :
  (0 <= start)%Z -> fits total_vol start (c :: rest) = true ->
  fits_i64 (material c) = true /\
  (exists n, share_count total_vol c = inr n) /\
  (start <= range_stop total_vol start c rest <= n_particles)%Z /\
  fits total_vol (range_stop total_vol start c rest) rest = true.
Proof.
  intros Hs Hfit. cbn [fits] in Hfit. apply andb_true_iff in Hfit.
  destruct Hfit as [Hm Hfit]. split; [exact Hm|].
  unfold range_stop, count_of.
  destruct (share_count total_vol c) as [e | n]; [discriminate|].
  split; [now exists n|].
  destruct rest as [|c' rest'].
  - apply Z.leb_le in Hfit. split; [lia | reflexivity].
  - apply andb_true_iff in Hfit. destruct Hfit as [Hfit Hrest].
    apply andb_true_iff in Hfit. destruct Hfit as [H0 H1].
    apply Z.leb_le in H0. apply Z.leb_le in H1.
    split; [lia | exact Hrest].
Qed.


Section InitVols.

Variable ti_random : Z -> nat -> Q.

(** A launch inside the fields has a result. *)
Lemma init_cube_vol_defined (a b : Z) (xb yb zb xs ys zs : Q) (m : Z) (st : Sim) :
  (0 <= a <= n_particles)%Z -> (0 <= b <= n_particles)%Z -> fits_i64 m = true ->
  exists st', init_cube_vol ti_random a b xb yb zb xs ys zs m st = Some st'.
Proof.
  intros Ha Hb Hm. unfold init_cube_vol.
  rewrite (fits_i64_slot a Ha), (fits_i64_slot b Hb), Hm. cbn [andb negb].
  rewrite (wrap_i32_slot a Ha), (wrap_i32_slot b Hb).
  replace ((0 <=? a)%Z && (b <=? n_particles)%Z) with true.
  - rewrite andb_false_r. eexists. reflexivity.
  - symmetry. apply andb_true_iff. split; apply Z.leb_le; lia.
Qed.

(** What a launch does to the slot [p]: a slot of its range exists, and
    is seeded. *)
Lemma init_cube_vol_slot (a b : Z) (xb yb zb xs ys zs : Q) (m : Z)
    (st st' : Sim) (p : Z) :
  init_cube_vol ti_random a b xb yb zb xs ys zs m st = Some st' ->
  if covers p (wrap_i32 a, wrap_i32 b)
  then in_particles p = true /\
       is_used st' p = 1%Z /\ materials st' p = wrap_i32 m /\ Jp st' p = 1 /\
       F st' p = mkMat (mkVec 1 0 0) (mkVec 0 1 0) (mkVec 0 0 1) /\
       v st' p = mkVec 0.0 0.0 0.0 /\ C st' p = C st p /\
       x st' p = vadd (vmul (mkVec (ti_random p 0%nat) (ti_random p 1%nat)
                                   (ti_random p 2%nat))
                            (mkVec xs ys zs))
                      (mkVec xb yb zb)
  else is_used st' p = is_used st p /\ x st' p = x st p /\ Jp st' p = Jp st p /\
       F st' p = F st p /\ C st' p = C st p /\ v st' p = v st p /\
       materials st' p = materials st p /\ colors_random st' p = colors_random st p.
Proof.
  unfold init_cube_vol.
  destruct (negb (fits_i64 a && fits_i64 b && fits_i64 m)); [discriminate|].
  cbn zeta.
  destruct ((wrap_i32 a <? wrap_i32 b)%Z
            && negb ((0 <=? wrap_i32 a)%Z && (wrap_i32 b <=? n_particles)%Z)) eqn:Hout;
    [discriminate|].
  intros [= <-]. unfold covers. cbn [fst snd]. cbn -[wrap_i32 in_particles].
  destruct ((wrap_i32 a <=? p)%Z && (p <? wrap_i32 b)%Z) eqn:Hhit; [|repeat split].
  split; [|repeat split].
  apply andb_true_iff in Hhit. destruct Hhit as [H1 H2].
  apply Z.leb_le in H1. apply Z.ltb_lt in H2.
  apply andb_false_iff in Hout. destruct Hout as [Hout | Hout].
  - apply Z.ltb_ge in Hout. lia.
  - apply negb_false_iff, andb_true_iff in Hout. destruct Hout as [H3 H4].
    apply Z.leb_le in H3. apply Z.leb_le in H4.
    apply in_particles_range. lia.
Qed.

Lemma set_all_unused_seeded (st : Sim) : seeded_by [] (set_all_unused st).
Proof.
  intros p Hp. cbn [existsb]. unfold reset_slot.
  cbn -[in_particles]. rewrite Hp. repeat split.
Qed.

Lemma seeded_by_launch (launches : list (Z * Z)) (a b : Z)
    (xb yb zb xs ys zs : Q) (m : Z) (st st' : Sim) :
  init_cube_vol ti_random a b xb yb zb xs ys zs m st = Some st' ->
  seeded_by launches st ->
  seeded_by (launches ++ [(wrap_i32 a, wrap_i32 b)]) st'.
Proof.
  intros Hl Hinv p Hp. specialize (Hinv p Hp).
  pose proof (init_cube_vol_slot a b xb yb zb xs ys zs m st st' p Hl) as Hslot.
  rewrite existsb_app. cbn [existsb]. rewrite orb_false_r.
  destruct (covers p (wrap_i32 a, wrap_i32 b)).
  - rewrite orb_true_r. apply Hslot.
  - rewrite orb_false_r.
    destruct Hslot as (Hu & Hx & HJ & HF & HC & Hv & _).
    destruct (existsb (covers p) launches).
    + now rewrite Hu.
    + unfold reset_slot in *. rewrite Hu, Hx, HJ, HF, HC, Hv. exact Hinv.
Qed.

(** One iteration of the loop on a cuboid, when it has a result. *)
Lemma init_vols_loop_cube (total_vol : float64) (len : Z) (c : CubeVolume)
    (rest : list VolumeSpec) (i next_p : Z) (st : Sim) (launches : list (Z * Z))
    (r : InitResult) :
  init_vols_loop ti_random total_vol len (Cube c :: rest) i next_p st launches = Some r ->
  (exists e, par_count_of total_vol len i next_p c = inl e /\
             r = mkInitResult st launches (Some e)) \/
  (exists par_count st',
     par_count_of total_vol len i next_p c = inr par_count /\
     init_cube_vol ti_random next_p (next_p + par_count)
       (v0 (minimum c)) (v1 (minimum c)) (v2 (minimum c))
       (v0 (size c)) (v1 (size c)) (v2 (size c)) (material c) st = Some st' /\
     init_vols_loop ti_random total_vol len rest (i + 1) (next_p + par_count) st'
       (launches ++ [(wrap_i32 next_p, wrap_i32 (next_p + par_count))]) = Some r).
Proof.
  cbn [init_vols_loop].
  destruct (par_count_of total_vol len i next_p c) as [e | par_count].
  - intros [= <-]. left. now exists e.
  - destruct (init_cube_vol ti_random next_p (next_p + par_count)
                (v0 (minimum c)) (v1 (minimum c)) (v2 (minimum c))
                (v0 (size c)) (v1 (size c)) (v2 (size c)) (material c) st)
      as [st'|] eqn:Hl; [|discriminate].
    intro Hr. right. exists par_count, st'. split; [reflexivity|]. split; assumption.
Qed.

(** Line 194 raises [ValueError] or [OverflowError] only. *)
Lemma par_count_of_error (total_vol : float64) (len i next_p : Z) (c : CubeVolume)
    (e : Error) :
  par_count_of total_vol len i next_p c = inl e -> e = ValueError \/ e = OverflowError.
Proof.
  unfold par_count_of.
  destruct (f64_mul (f64_div (volume c) total_vol) (f64_of_Z n_particles))
    as [s | s | | s m k]; cbn [py_int].
  - destruct (i =? len - 1)%Z; discriminate.
  - intros [= <-]. now right.
  - intros [= <-]. now left.
  - destruct (i =? len - 1)%Z; discriminate.
Qed.

(** The loop keeps the correspondence between launches and seeded slots,
    however it ends. *)
Lemma init_vols_loop_seeded (total_vol : float64) (len : Z) (vols : list VolumeSpec) :
  forall (i next_p : Z) (st : Sim) (launches : list (Z * Z)) (r : InitResult),
  seeded_by launches st ->
  init_vols_loop ti_random total_vol len vols i next_p st launches = Some r ->
  seeded_by (ir_launches r) (ir_state r).
Proof.
  induction vols as [|[c | o] rest IH]; intros i next_p st launches r Hinv Hr.
  - cbn in Hr. injection Hr as <-. exact Hinv.
  - destruct (init_vols_loop_cube _ _ _ _ _ _ _ _ _ Hr)
      as [(e & _ & ->) | (n & st' & _ & Hl & Hrest)].
    + exact Hinv.
    + apply (IH _ _ _ _ _ (seeded_by_launch _ _ _ _ _ _ _ _ _ _ _ _ Hl Hinv) Hrest).
  - cbn in Hr. injection Hr as <-. exact Hinv.
Qed.

(** The loop ends with an exception when an entry is no [CubeVolume]. *)
Lemma init_vols_loop_unsupported (total_vol : float64) (len : Z) (vols : list VolumeSpec) :
  forall (i next_p : Z) (st : Sim) (launches : list (Z * Z)) (r : InitResult),
  (exists o, In (OtherObject o) vols) ->
  init_vols_loop ti_random total_vol len vols i next_p st launches = Some r ->
  ir_error r <> None.
Proof.
  induction vols as [|[c | o] rest IH]; intros i next_p st launches r [o' Hin] Hr.
  - contradiction.
  - destruct (init_vols_loop_cube _ _ _ _ _ _ _ _ _ Hr)
      as [(e & _ & ->) | (n & st' & _ & _ & Hrest)].
    + discriminate.
    + refine (IH _ _ _ _ _ _ Hrest).
      destruct Hin as [Heq | Hin]; [discriminate | eauto].
  - cbn in Hr. injection Hr as <-. discriminate.
Qed.

(** Up to the first entry that is no [CubeVolume], the loop makes one
    launch per cuboid, unless line 194 raises. *)
Lemma init_vols_loop_prefix (total_vol : float64) (len : Z)
    (pre : list CubeVolume) (o : option Q) (post : list VolumeSpec) :
  forall (i next_p : Z) (st : Sim) (launches : list (Z * Z)) (r : InitResult),
  init_vols_loop ti_random total_vol len
    (map Cube pre ++ OtherObject o :: post) i next_p st launches = Some r ->
  (length (ir_launches r) <= length launches + length pre)%nat /\
  (ir_error r = Some UnsupportedVolume ->
   length (ir_launches r) = (length launches + length pre)%nat).
Proof.
  induction pre as [|c pre IH]; intros i next_p st launches r Hr;
    cbn [map app length] in *.
  - cbn in Hr. injection Hr as <-. cbn. lia.
  - destruct (init_vols_loop_cube _ _ _ _ _ _ _ _ _ Hr)
      as [(e & He & ->) | (n & st' & _ & _ & Hrest)].
    + cbn. split; [lia|]. intros [= ->].
      destruct (par_count_of_error _ _ _ _ _ _ He); discriminate.
    + specialize (IH _ _ _ _ _ Hrest).
      rewrite length_app in IH. cbn [length] in IH.
      destruct IH as [Hle Heq]. split; [lia|].
      intro He. specialize (Heq He). lia.
Qed.

(** C2 (amended). When the list holds an entry that is no [CubeVolume],
    a call of [init_vols] that has a result (no launch left the fields)
    ended with an exception.  It has then reset every slot and made one
    launch of [init_cube_vol] for each cuboid it met before the failure,
    all of them placed before the first such entry; the slots those
    launches cover are seeded and in use and every other slot is reset and
    not in use.  When the first entry of the list is such an entry the
    call always has a result, with no launch and the all-unused fields. *)
Theorem init_vols_unsupported (vols : list VolumeSpec) (st : Sim) :
  (exists o, In (OtherObject o) vols) ->
  (forall r, init_vols ti_random vols st = Some r ->
     ir_error r <> None /\
     seeded_by (ir_launches r) (ir_state r) /\
     (forall pre o post, vols = map Cube pre ++ OtherObject o :: post ->
        (length (ir_launches r) <= length pre)%nat /\
        (ir_error r = Some UnsupportedVolume ->
         length (ir_launches r) = length pre))) /\
  (forall o post, vols = OtherObject o :: post ->
     exists r, init_vols ti_random vols st = Some r /\
               ir_error r <> None /\
               ir_launches r = [] /\ ir_state r = set_all_unused st).
Proof.
  intros Hother. split.
  - intro r. unfold init_vols.
    destruct (sum_volumes vols f64_zero) as [total_vol|].
    + intro Hr.
      split; [now apply (init_vols_loop_unsupported _ _ _ _ _ _ _ _ Hother Hr)|].
      split; [apply (init_vols_loop_seeded _ _ _ _ _ _ _ _ (set_all_unused_seeded st) Hr)|].
      intros pre o post ->.
      apply (init_vols_loop_prefix total_vol _ pre o post 0 0 (set_all_unused st) [] r Hr).
    + intros [= <-]. cbn [ir_error ir_launches ir_state]. split; [discriminate|].
      split; [apply set_all_unused_seeded|].
      intros pre o post _. cbn. split; [lia | discriminate].
  - intros o post ->. unfold init_vols.
    destruct (sum_volumes (OtherObject o :: post) f64_zero) as [total_vol|].
    + cbn [init_vols_loop]. eexists. split; [reflexivity|].
      cbn. split; [discriminate|]. split; reflexivity.
    + eexists. split; [reflexivity|].
      cbn. split; [discriminate|]. split; reflexivity.
Qed.

(** The count of the loop for a cuboid that is not the last, and for the
    last. *)
Lemma par_count_of_range (total_vol : float64) (len i next_p : Z) (c : CubeVolume)
    (rest : list CubeVolume) (n : Z) :
  (i + Z.of_nat (length (c :: rest)) = len)%Z ->
  share_count total_vol c = inr n ->
  exists par_count,
    par_count_of total_vol len i next_p c = inr par_count /\
    (next_p + par_count)%Z = range_stop total_vol next_p c rest.
Proof.
  intros Hlen Hn. unfold par_count_of, range_stop, count_of.
  rewrite Hn. unfold share_count in Hn. rewrite Hn.
  destruct rest as [|c' rest']; cbn [length] in Hlen.
  - replace (i =? len - 1)%Z with true by (symmetry; apply Z.eqb_eq; lia).
    eexists. split; [reflexivity | lia].
  - replace (i =? len - 1)%Z with false by (symmetry; apply Z.eqb_neq; lia).
    eexists. split; [reflexivity | lia].
Qed.

(** One iteration of the loop on a cuboid when the budget suffices. *)
Lemma init_vols_loop_step (total_vol : float64) (len : Z) (c : CubeVolume)
    (rest : list CubeVolume) (i next_p : Z) (st : Sim) (launches : list (Z * Z)) :
  (0 <= next_p)%Z -> fits total_vol next_p (c :: rest) = true ->
  (i + Z.of_nat (length (c :: rest)) = len)%Z ->
  exists st',
    init_cube_vol ti_random next_p (range_stop total_vol next_p c rest)
      (v0 (minimum c)) (v1 (minimum c)) (v2 (minimum c))
      (v0 (size c)) (v1 (size c)) (v2 (size c)) (material c) st = Some st' /\
    init_vols_loop ti_random total_vol len (map Cube (c :: rest)) i next_p st launches =
    init_vols_loop ti_random total_vol len (map Cube rest) (i + 1)
      (range_stop total_vol next_p c rest) st'
      (launches ++ [(next_p, range_stop total_vol next_p c rest)]).
Proof.
  intros Hs Hfit Hlen.
  destruct (fits_step total_vol next_p c rest Hs Hfit) as (Hm & (n & Hn) & Hstop & _).
  destruct (par_count_of_range total_vol len i next_p c rest n Hlen Hn)
    as (par_count & Hpc & Hstop_eq).
  destruct (init_cube_vol_defined next_p (range_stop total_vol next_p c rest)
              (v0 (minimum c)) (v1 (minimum c)) (v2 (minimum c))
              (v0 (size c)) (v1 (size c)) (v2 (size c)) (material c) st
              ltac:(lia) ltac:(lia) Hm) as (st' & Hl).
  exists st'. split; [exact Hl|].
  cbn [map init_vols_loop]. rewrite Hpc, Hstop_eq, Hl.
  rewrite (wrap_i32_slot next_p) by lia.
  rewrite (wrap_i32_slot (range_stop total_vol next_p c rest)) by lia.
  reflexivity.
Qed.

(** On cuboids whose budget suffices the loop makes the launches of
    [allocation] and raises nothing. *)
Lemma init_vols_loop_cubes (total_vol : float64) (len : Z) (cubes : list CubeVolume) :
  forall (i next_p : Z) (st : Sim) (launches : list (Z * Z)),
  (0 <= next_p)%Z -> fits total_vol next_p cubes = true ->
  (i + Z.of_nat (length cubes) = len)%Z ->
  exists r,
    init_vols_loop ti_random total_vol len (map Cube cubes) i next_p st launches = Some r /\
    ir_error r = None /\
    ir_launches r = launches ++ allocation total_vol next_p cubes.
Proof.
  induction cubes as [|c rest IH]; intros i next_p st launches Hs Hfit Hlen.
  - cbn [map init_vols_loop allocation]. eexists. split; [reflexivity|].
    cbn. now rewrite app_nil_r.
  - destruct (init_vols_loop_step total_vol len c rest i next_p st launches Hs Hfit Hlen)
      as (st' & _ & Hstep).
    destruct (fits_step total_vol next_p c rest Hs Hfit) as (_ & _ & Hstop & Hfit').
    destruct (IH (i + 1)%Z (range_stop total_vol next_p c rest) st'
                 (launches ++ [(next_p, range_stop total_vol next_p c rest)])
                 ltac:(lia) Hfit' ltac:(cbn [length] in Hlen; lia))
      as (r & Hr & He & Hl).
    exists r. rewrite Hstep. split; [exact Hr|]. split; [exact He|].
    rewrite Hl, allocation_step, <- app_assoc. reflexivity.
Qed.


End InitVols.

Lemma init_vols_unsupported_witness :
  (exists o, In (OtherObject o) [Cube dam; ball]) /\
  match init_vols draw_half [Cube dam; ball] dam_break with
  | Some r => ir_error r <> None
  | None => False
  end.
Proof.
  assert (Hother : exists o, In (OtherObject o) [Cube dam; ball]).
  { exists (Some 0.064). right. left. reflexivity. }
  split; [exact Hother|].
  destruct (init_vols draw_half [Cube dam; ball] dam_break) as [r|] eqn:Hr.
  - exact (proj1 (proj1 (init_vols_unsupported draw_half [Cube dam; ball] dam_break
                           Hother) r Hr)).
  - apply (f_equal (fun o => match o with Some _ => true | None => false end)) in Hr.
    vm_compute in Hr. discriminate Hr.
Defined.

(** C2 as stated fails on the list [[Cube dam; ball]] given after the
    first preset was loaded.  The call raises at [ball], after the launch
    for [dam] on the slots [[0, 262144)]: slot 0 is seeded and in use, so
    the fields are not the all-unused ones; slot 262144 was in use before
    the call and is not afterwards, so the prior fields are not untouched.
    The first entry is seeded and the second is not. *)
Lemma partially_seeded_counterexample :
  match init_vols draw_half [Cube dam; ball] dam_break with
  | Some r =>
      ir_error r = Some UnsupportedVolume /\
      ir_launches r = [(0, 262144)%Z] /\
      is_used (ir_state r) 0 = 1%Z /\
      is_used (ir_state r) 262144 = 0%Z
  | None => False
  end /\
  is_used dam_break 262144 = 1%Z.
Proof.
  vm_compute. repeat split.
Qed.



(** * Further properties of the kernels *)

(** ** Interpolation *)

Lemma Qsquare_nonneg (a : Q) : 0 <= a ^ 2.
Proof. destruct (Qlt_le_dec a 0); nra. Qed.

Lemma inv_dx_value : inv_dx == 128.
Proof. reflexivity. Qed.

Lemma dx_value : dx == 0.0078125.
Proof. reflexivity. Qed.

Lemma axis_cases (d : nat) :
  d = 0%nat \/ d = 1%nat \/ exists n, d = S (S n).
Proof. destruct d as [|[|n]]; eauto. Qed.

(** One axis of lines 56-57 for a coordinate at least half a cell from the
    origin. *)
Lemma interp_axis (t : Q) :
  0.5 <= t * inv_dx ->
  cast_int (t * inv_dx - 0.5) = Qfloor (t * inv_dx - 0.5) /\
  0.5 <= t * inv_dx - cast_float (cast_int (t * inv_dx - 0.5)) < 1.5.
Proof.
  intro Ht.
  assert (Hc : cast_int (t * inv_dx - 0.5) = Qfloor (t * inv_dx - 0.5)).
  { apply cast_int_floor. lra. }
  split; [exact Hc|]. rewrite Hc. unfold cast_float.
  pose proof (Qfloor_le (t * inv_dx - 0.5)) as Hlo.
  pose proof (Qlt_floor (t * inv_dx - 0.5)) as Hhi.
  rewrite inject_Z_plus in Hhi. change (inject_Z 1) with 1 in Hhi.
  split; lra.
Qed.

(** X1. For a particle whose coordinate on an axis is at least half a cell
    ([x * inv_dx >= 0.5]), the cast of line 56 is the floor, the scaled
    coordinate is [base + fx] with [0.5 <= fx < 1.5], and the three
    weights of that axis are not negative: the outer two lie in
    [[0, 0.5]] and the middle one in [[0.5, 0.75]]. *)
Theorem interp_valid_range (x_p : Vec) (d : nat) :
  0.5 <= vnth x_p d * inv_dx ->
  let base := interp_base x_p in
  let fx := interp_fx x_p base in
  inth base d = Qfloor (vnth x_p d * inv_dx - 0.5) /\
  vnth x_p d * inv_dx == inject_Z (inth base d) + vnth fx d /\
  0.5 <= vnth fx d < 1.5 /\
  0 <= wnth (p2g_weights fx) 0 d <= 0.5 /\
  0.5 <= wnth (p2g_weights fx) 1 d <= 0.75 /\
  0 <= wnth (p2g_weights fx) 2 d <= 0.5.
Proof.
  intros Hx base fx.
  assert (Hax : inth base d = Qfloor (vnth x_p d * inv_dx - 0.5) /\
                vnth fx d = vnth x_p d * inv_dx - cast_float (inth base d) /\
                0.5 <= vnth fx d < 1.5).
  { subst fx base. destruct x_p as [a b c].
    destruct (axis_cases d) as [-> | [-> | [n ->]]];
      cbn [vnth v0 v1 v2] in Hx;
      destruct (interp_axis _ Hx) as [Hc Hr];
      (split; [exact Hc | split; [reflexivity | exact Hr]]). }
  destruct Hax as (Hb & Hfx & Hr).
  split; [exact Hb|]. split; [rewrite Hfx; unfold cast_float; ring|].
  split; [exact Hr|].
  assert (Hw : wnth (p2g_weights fx) 0 d = 0.5 * (1.5 - vnth fx d) ^ 2 /\
               wnth (p2g_weights fx) 1 d = 0.75 - (vnth fx d - 1) ^ 2 /\
               wnth (p2g_weights fx) 2 d = 0.5 * (vnth fx d - 0.5) ^ 2).
  { destruct fx as [a b c].
    destruct (axis_cases d) as [-> | [-> | [n ->]]];
      repeat split. }
  destruct Hw as (-> & -> & ->).
  generalize dependent (vnth fx d). intros f _ [Hf1 Hf2].
  pose proof (Qsquare_nonneg (1.5 - f)) as H0.
  pose proof (Qsquare_nonneg (f - 1)) as H1.
  pose proof (Qsquare_nonneg (f - 0.5)) as H2.
  repeat split; nra.
Qed.

Lemma interp_valid_range_witness :
  0.5 <= vnth (mkVec 0.5 0.5 0.5) 0 * inv_dx /\
  0.5 <= vnth (interp_fx (mkVec 0.5 0.5 0.5) (interp_base (mkVec 0.5 0.5 0.5))) 0 < 1.5.
Proof.
  assert (Hx : 0.5 <= vnth (mkVec 0.5 0.5 0.5) 0 * inv_dx) by discriminate.
  split; [exact Hx|].
  exact (proj1 (proj2 (proj2 (interp_valid_range (mkVec 0.5 0.5 0.5) 0 Hx)))).
Defined.

Lemma in_grid_offsets (base : IVec) (ijk : nat * nat * nat) :
  (0 <= i0 base <= n_grid - 3)%Z -> (0 <= i1 base <= n_grid - 3)%Z ->
  (0 <= i2 base <= n_grid - 3)%Z -> In ijk ndrange3 ->
  in_grid (iadd base (offset_of ijk)) = true.
Proof.
  intros H0 H1 H2 Hin. destruct base as [a b c]. cbn [i0 i1 i2] in *.
  assert (Hijk : exists i j k, ijk = (i, j, k) /\ (i <= 2)%nat /\ (j <= 2)%nat /\ (k <= 2)%nat).
  { cbn in Hin.
    repeat (destruct Hin as [<- | Hin];
            [do 3 eexists; split; [reflexivity | lia]|]).
    contradiction. }
  destruct Hijk as (i & j & k & -> & Hi & Hj & Hk).
  unfold in_grid, iadd, offset_of. cbn [i0 i1 i2].
  repeat (apply andb_true_iff; split); try apply Z.leb_le; try apply Z.ltb_lt; lia.
Qed.

(** One axis of a position in the safe region. *)
Lemma safe_axis_base (t : Q) :
  dx * 0.5 <= t -> t < 1 - dx * 1.5 ->
  (0 <= cast_int (t * inv_dx - 0.5) <= n_grid - 3)%Z.
Proof.
  intros Hlo Hhi. rewrite dx_value in Hlo, Hhi.
  assert (Ht : 0.5 <= t * inv_dx) by (rewrite inv_dx_value; lra).
  destruct (interp_axis t Ht) as [Hc _]. rewrite Hc.
  split.
  - apply Qfloor_nonneg. lra.
  - assert (Hlt : (Qfloor (t * inv_dx - 0.5) < n_grid - 2)%Z).
    { rewrite Zlt_Qlt. eapply Qle_lt_trans; [apply Qfloor_le|].
      rewrite inv_dx_value. change (inject_Z (n_grid - 2)) with 126. lra. }
    lia.
Qed.

(** X2. A particle whose coordinates all lie in
    [[dx * 0.5, 1 - dx * 1.5)] has its base index in [[0, n_grid - 3]] on
    every axis, so the 27 nodes P2G and G2P address for it are nodes of
    the grid. *)
Theorem safe_position_in_grid (x_p : Vec) :
  inside safe_lo safe_hi x_p ->
  (0 <= i0 (interp_base x_p) <= n_grid - 3)%Z /\
  (0 <= i1 (interp_base x_p) <= n_grid - 3)%Z /\
  (0 <= i2 (interp_base x_p) <= n_grid - 3)%Z /\
  neighbourhood_in_grid x_p = true.
Proof.
  intros Hin.
  destruct x_p as [a b c].
  destruct Hin as ((Ha1 & Ha2) & (Hb1 & Hb2) & (Hc1 & Hc2)).
  cbn [safe_lo safe_hi v0 v1 v2] in *.
  pose proof (safe_axis_base a Ha1 Ha2) as H0.
  pose proof (safe_axis_base b Hb1 Hb2) as H1.
  pose proof (safe_axis_base c Hc1 Hc2) as H2.
  split; [exact H0|]. split; [exact H1|]. split; [exact H2|].
  unfold neighbourhood_in_grid. apply forallb_forall. intros ijk Hijk.
  apply in_grid_offsets; assumption.
Qed.

Lemma safe_position_in_grid_witness :
  inside safe_lo safe_hi (mkVec 0.5 0.5 0.5) /\
  neighbourhood_in_grid (mkVec 0.5 0.5 0.5) = true.
Proof.
  assert (Hin : inside safe_lo safe_hi (mkVec 0.5 0.5 0.5)).
  { repeat split; (reflexivity || discriminate). }
  split; [exact Hin|].
  exact (proj2 (proj2 (proj2 (safe_position_in_grid (mkVec 0.5 0.5 0.5) Hin)))).
Defined.

(** ** Particle to grid: momentum and the sign of the mass *)

Lemma grid_total_ext (f h : IVec -> Q) :
  (forall I, in_grid I = true -> h I == f I) -> grid_total h == grid_total f.
Proof.
  intro Hfh. unfold grid_total.
  apply sumQ_ext. intros i Hi. apply sumQ_ext. intros j Hj.
  apply sumQ_ext. intros k Hk. apply Hfh. apply in_grid_range. auto.
Qed.

Lemma vnth_vadd (a b : Vec) (d : nat) : vnth (vadd a b) d = vnth a d + vnth b d.
Proof. destruct a, b. destruct d as [|[|d]]; reflexivity. Qed.

Lemma vnth_vscale (s : Q) (a : Vec) (d : nat) : vnth (vscale s a) d = s * vnth a d.
Proof. destruct a. destruct d as [|[|d]]; reflexivity. Qed.

(** Adding [u] to the vector of one node adds its components to the totals. *)
Lemma grid_total_v_gupd (g : IVec -> Vec) (pos : IVec) (u : Vec) (d : nat) :
  in_grid pos = true ->
  grid_total_v (gupd g pos (vadd (g pos) u)) d == grid_total_v g d + vnth u d.
Proof.
  intro Hpos. unfold grid_total_v.
  rewrite <- (grid_total_gupd (fun I => vnth (g I) d) pos (vnth u d) Hpos).
  apply grid_total_ext. intros I _. unfold gupd.
  destruct (ivec_eqb I pos); [|reflexivity].
  rewrite vnth_vadd. reflexivity.
Qed.

Section P2GMomentum.

Variable ti_exp : Q -> Q.
Variable ti_svd : Mat -> Mat * Mat * Mat.

Lemma p2g_scatter_fold_total_v (fx : Vec) (base : IVec) (w : list Vec)
    (v_p : Vec) (affine : Mat) (d : nat) (l : list (nat * nat * nat)) (st : Sim) :
  (forall ijk, In ijk l -> in_grid (iadd base (offset_of ijk)) = true) ->
  grid_total_v (grid_v (fold_left (p2g_scatter fx base w v_p affine) l st)) d ==
  grid_total_v (grid_v st) d +
  sumQ (map (fun ijk => vnth (scattered_momentum fx w v_p affine ijk) d) l).
Proof.
  revert st. induction l as [|ijk l IH]; intros st Hin; cbn [fold_left map sumQ fold_right].
  - ring.
  - rewrite IH by (intros; apply Hin; now right).
    change (grid_v (p2g_scatter fx base w v_p affine st ijk))
      with (gupd (grid_v st) (iadd base (offset_of ijk))
              (vadd (grid_v st (iadd base (offset_of ijk)))
                    (scattered_momentum fx w v_p affine ijk))).
    rewrite grid_total_v_gupd by (apply Hin; now left).
    fold (sumQ (map (fun ijk0 => vnth (scattered_momentum fx w v_p affine ijk0) d) l)).
    ring.
Qed.

(** The affine term cancels over the 27 nodes: the weights have first
    moment [fx]. *)
Lemma scattered_momentum_total (fx v_p : Vec) (affine : Mat) (d : nat) :
  sumQ (map (fun ijk => vnth (scattered_momentum fx (p2g_weights fx) v_p affine ijk) d)
            ndrange3) == p_mass * vnth v_p d.
Proof.
  destruct fx as [a b c], v_p as [p q r].
  destruct affine as [[a00 a01 a02] [a10 a11 a12] [a20 a21 a22]].
  destruct (axis_cases d) as [-> | [-> | [n ->]]];
    cbn -[Qpower p_mass dx];
    unfold vdot, vmap, vsub, vmap2, vcast_float, cast_float;
    cbn [v0 v1 v2 i0 i1 i2 inject_Z];
    ring.
Qed.

Lemma p2g_particle_total_v (st : Sim) (p : Z) (d : nat) :
  (is_used st p <> 0%Z -> neighbourhood_in_grid (x st p) = true) ->
  grid_total_v (grid_v (p2g_particle ti_exp ti_svd st p)) d ==
  grid_total_v (grid_v st) d +
  (if (is_used st p =? 0)%Z then 0 else p_mass * vnth (v st p) d).
Proof.
  intro Hin. unfold p2g_particle.
  destruct (Z.eqb_spec (is_used st p) 0) as [Hz | Hnz].
  - ring.
  - cbn zeta. rewrite p2g_scatter_fold_total_v.
    + rewrite scattered_momentum_total. reflexivity.
    + intros ijk Hijk. apply neighbourhood_in_grid_In; auto.
Qed.

Lemma p2g_fold_total_v (d : nat) (l : list Z) (st : Sim) :
  (forall p, In p l -> is_used st p <> 0%Z -> neighbourhood_in_grid (x st p) = true) ->
  grid_total_v (grid_v (fold_left (p2g_particle ti_exp ti_svd) l st)) d ==
  grid_total_v (grid_v st) d +
  sumQ (map (fun p => if (is_used st p =? 0)%Z then 0 else p_mass * vnth (v st p) d) l).
Proof.
  revert st. induction l as [|p l IH]; intros st Hin; cbn [fold_left map sumQ fold_right].
  - ring.
  - destruct (p2g_particle_frame ti_exp ti_svd st p) as (Hx & Hv & _ & _ & Hu & _).
    cbn zeta in Hx, Hv, Hu.
    rewrite IH.
    + rewrite p2g_particle_total_v by (apply Hin; now left).
      rewrite Hu, Hv.
      fold (sumQ (map (fun p0 => if (is_used st p0 =? 0)%Z then 0
                                 else p_mass * vnth (v st p0) d) l)).
      ring.
    + intros q Hq. rewrite Hx, Hu. apply Hin. now right.
Qed.

Lemma grid_total_v_zero_out (st : Sim) (d : nat) :
  grid_total_v (grid_v (substep_zero_out st)) d == 0.
Proof.
  unfold grid_total_v, grid_total.
  apply sumQ_zero. intros i Hi. apply sumQ_zero. intros j Hj.
  apply sumQ_zero. intros k Hk. cbn -[in_grid vnth].
  assert (HI : in_grid (mkIVec i j k) = true) by (apply in_grid_range; auto).
  rewrite HI. destruct d as [|[|d]]; reflexivity.
Qed.

Lemma p2g_from_zero_total_v (d : nat) (l : list Z) (st : Sim) :
  (forall p, In p l -> is_used st p <> 0%Z -> neighbourhood_in_grid (x st p) = true) ->
  grid_total_v (grid_v (fold_left (p2g_particle ti_exp ti_svd) l (substep_zero_out st))) d ==
  sumQ (map (fun p => if (is_used st p =? 0)%Z then 0 else p_mass * vnth (v st p) d) l).
Proof.
  intro Hin. rewrite p2g_fold_total_v by exact Hin.
  rewrite grid_total_v_zero_out.
  change (is_used (substep_zero_out st)) with (is_used st).
  change (v (substep_zero_out st)) with (v st).
  generalize (sumQ (map (fun p => if (is_used st p =? 0)%Z then 0
                                  else p_mass * vnth (v st p) d) l)).
  intro n. ring.
Qed.

(** X3. P2G conserves momentum: after it has run on the grid left by the
    zero-out stage, if the 27 neighbour nodes of every particle in use lie
    in the grid, the sum of [grid_v] over all grid nodes is, on every
    axis, the sum of [p_mass * v[p]] over the particles in use.  The
    stress and the APIC term [affine @ dpos] add nothing to the total,
    whatever the materials are and whatever [ti.svd] returns. *)
Theorem p2g_conserves_momentum (st : Sim) (d : nat) :
  (forall p, in_particles p = true -> is_used st p <> 0%Z ->
             neighbourhood_in_grid (x st p) = true) ->
  grid_total_v (grid_v (substep_p2g ti_exp ti_svd (substep_zero_out st))) d ==
  particle_momentum st d.
Proof.
  intro Hin. unfold substep_p2g, particle_momentum.
  apply p2g_from_zero_total_v.
  intros p Hp. apply Hin. apply zrange_In in Hp. unfold in_particles.
  apply andb_true_iff. split; [apply Z.leb_le | apply Z.ltb_lt]; lia.
Qed.

End P2GMomentum.

Lemma one_particle_in_grid (mat : Z) (p : Z) :
  in_particles p = true -> is_used (one_particle mat) p <> 0%Z ->
  neighbourhood_in_grid (x (one_particle mat) p) = true.
Proof.
  intros _ Hu. cbn in Hu |- *. unfold upd in *.
  destruct (p =? 0)%Z; [reflexivity | now elim Hu].
Qed.

Lemma p2g_conserves_momentum_witness :
  (forall p, in_particles p = true -> is_used (one_particle SNOW) p <> 0%Z ->
             neighbourhood_in_grid (x (one_particle SNOW) p) = true) /\
  grid_total_v (grid_v (substep_p2g exp_at_zero svd_of_diagonal
                          (substep_zero_out (one_particle SNOW)))) 1 ==
  particle_momentum (one_particle SNOW) 1.
Proof.
  split; [exact (one_particle_in_grid SNOW)|].
  exact (p2g_conserves_momentum exp_at_zero svd_of_diagonal (one_particle SNOW) 1
           (one_particle_in_grid SNOW)).
Defined.

Lemma weights_axis_nonneg (f : Q) :
  0.5 <= f < 1.5 ->
  0 <= 0.5 * (1.5 - f) ^ 2 /\ 0 <= 0.75 - (f - 1) ^ 2 /\ 0 <= 0.5 * (f - 0.5) ^ 2.
Proof.
  intros [Hf1 Hf2].
  pose proof (Qsquare_nonneg (1.5 - f)) as H0.
  pose proof (Qsquare_nonneg (f - 0.5)) as H2.
  repeat split; nra.
Qed.

Lemma p_mass_pos : 0 < p_mass.
Proof. reflexivity. Qed.

(** The weight of every node is non-negative for a particle at least half
    a cell from the lower faces. *)
Lemma node_weight_nonneg (x_p : Vec) (ijk : nat * nat * nat) :
  half_cell_in x_p ->
  0 <= node_weight (p2g_weights (interp_fx x_p (interp_base x_p))) ijk.
Proof.
  intros (H0 & H1 & H2). destruct x_p as [a b c]. cbn [v0 v1 v2] in *.
  destruct (interp_axis a H0) as [_ Ha].
  destruct (interp_axis b H1) as [_ Hb].
  destruct (interp_axis c H2) as [_ Hc].
  destruct (weights_axis_nonneg _ Ha) as (Ha0 & Ha1 & Ha2).
  destruct (weights_axis_nonneg _ Hb) as (Hb0 & Hb1 & Hb2).
  destruct (weights_axis_nonneg _ Hc) as (Hc0 & Hc1 & Hc2).
  destruct ijk as [[i j] k]. unfold node_weight.
  assert (Hi : 0 <= wnth (p2g_weights (interp_fx (mkVec a b c)
                            (interp_base (mkVec a b c)))) i 0).
  { destruct i as [|[|[|i]]]; try assumption. destruct i; apply Qle_refl. }
  assert (Hj : 0 <= wnth (p2g_weights (interp_fx (mkVec a b c)
                            (interp_base (mkVec a b c)))) j 1).
  { destruct j as [|[|[|j]]]; try assumption. destruct j; apply Qle_refl. }
  assert (Hk : 0 <= wnth (p2g_weights (interp_fx (mkVec a b c)
                            (interp_base (mkVec a b c)))) k 2).
  { destruct k as [|[|[|k]]]; try assumption. destruct k; apply Qle_refl. }
  apply Qmult_le_0_compat; [apply Qmult_le_0_compat|]; assumption.
Qed.

Lemma Qsum_zero_nonneg (a b : Q) : 0 <= a -> 0 <= b -> a + b == 0 -> a == 0 /\ b == 0.
Proof. intros Ha Hb Hab. split; lra. Qed.

Lemma p2g_scatter_massless_rest (fx : Vec) (base : IVec) (w : list Vec)
    (v_p : Vec) (affine : Mat) (st : Sim) (ijk : nat * nat * nat) (I : IVec) :
  0 <= node_weight w ijk ->
  massless_rest st I ->
  massless_rest (p2g_scatter fx base w v_p affine st ijk) I.
Proof.
  intros Hw [Hm Hrest]. unfold massless_rest.
  change (grid_m (p2g_scatter fx base w v_p affine st ijk) I)
    with (gupd (grid_m st) (iadd base (offset_of ijk))
            (grid_m st (iadd base (offset_of ijk)) + node_weight w ijk * p_mass) I).
  change (grid_v (p2g_scatter fx base w v_p affine st ijk) I)
    with (gupd (grid_v st) (iadd base (offset_of ijk))
            (vadd (grid_v st (iadd base (offset_of ijk)))
                  (scattered_momentum fx w v_p affine ijk)) I).
  unfold gupd.
  destruct (ivec_eqb I (iadd base (offset_of ijk))) eqn:Heq; [|split; assumption].
  apply ivec_eqb_eq in Heq. rewrite <- Heq.
  assert (Hwm : 0 <= node_weight w ijk * p_mass).
  { apply Qmult_le_0_compat; [exact Hw | apply Qlt_le_weak, p_mass_pos]. }
  split; [lra|].
  intro Hz. destruct (Qsum_zero_nonneg _ _ Hm Hwm Hz) as [Hm0 Hwm0].
  assert (Hw0 : node_weight w ijk == 0).
  { pose proof p_mass_pos as Hp.
    apply Qmult_integral in Hwm0. destruct Hwm0 as [Hw0 | Hp0]; [exact Hw0|].
    rewrite Hp0 in Hp. now apply Qlt_irrefl in Hp. }
  destruct (Hrest Hm0) as (Hv0 & Hv1 & Hv2).
  unfold scattered_momentum.
  set (u := vadd (vscale p_mass v_p) _). clearbody u.
  destruct (grid_v st I) as [g0 g1 g2], u as [u0 u1 u2].
  unfold veq, vadd, vscale, vmap2, vmap, vzero. cbn [v0 v1 v2] in *.
  rewrite Hw0, Hv0, Hv1, Hv2. repeat split; ring.
Qed.

Section P2GSign.

Variable ti_exp : Q -> Q.
Variable ti_svd : Mat -> Mat * Mat * Mat.

Lemma p2g_scatter_fold_massless_rest (fx : Vec) (base : IVec) (w : list Vec)
    (v_p : Vec) (affine : Mat) (I : IVec) (l : list (nat * nat * nat)) (st : Sim) :
  (forall ijk, 0 <= node_weight w ijk) ->
  massless_rest st I ->
  massless_rest (fold_left (p2g_scatter fx base w v_p affine) l st) I.
Proof.
  intro Hw. revert st. induction l as [|ijk l IH]; intros st Hst; cbn [fold_left].
  - exact Hst.
  - apply IH. now apply p2g_scatter_massless_rest.
Qed.

Lemma p2g_particle_massless_rest (st : Sim) (p : Z) (I : IVec) :
  (is_used st p <> 0%Z -> half_cell_in (x st p)) ->
  massless_rest st I ->
  massless_rest (p2g_particle ti_exp ti_svd st p) I.
Proof.
  intros Hx Hst. unfold p2g_particle.
  destruct (Z.eqb_spec (is_used st p) 0) as [Hz | Hnz]; [exact Hst|].
  cbn zeta. apply p2g_scatter_fold_massless_rest.
  - intro ijk. apply node_weight_nonneg. now apply Hx.
  - exact Hst.
Qed.

Lemma p2g_fold_massless_rest (I : IVec) (l : list Z) (st : Sim) :
  (forall p, In p l -> is_used st p <> 0%Z -> half_cell_in (x st p)) ->
  massless_rest st I ->
  massless_rest (fold_left (p2g_particle ti_exp ti_svd) l st) I.
Proof.
  revert st. induction l as [|p l IH]; intros st Hx Hst; cbn [fold_left].
  - exact Hst.
  - destruct (p2g_particle_frame ti_exp ti_svd st p) as (Hxe & _ & _ & _ & Hu & _).
    cbn zeta in Hxe, Hu.
    apply IH.
    + intros q Hq. rewrite Hxe, Hu. apply Hx. now right.
    + apply p2g_particle_massless_rest; [|exact Hst]. apply Hx. now left.
Qed.

(** After zero-out and P2G, with every particle in use half a cell or
    more from the lower faces. *)
Lemma p2g_from_zero_massless_rest (st : Sim) (I : IVec) :
  (forall p, in_particles p = true -> is_used st p <> 0%Z -> half_cell_in (x st p)) ->
  in_grid I = true ->
  massless_rest (substep_p2g ti_exp ti_svd (substep_zero_out st)) I.
Proof.
  intros Hx HI. unfold substep_p2g. apply p2g_fold_massless_rest.
  - intros p Hp. change (is_used (substep_zero_out st)) with (is_used st).
    change (x (substep_zero_out st)) with (x st).
    apply Hx. apply zrange_In in Hp. unfold in_particles.
    apply andb_true_iff. split; [apply Z.leb_le | apply Z.ltb_lt]; lia.
  - unfold massless_rest. cbn -[in_grid]. rewrite HI.
    split; [apply Qle_refl|]. intros _. repeat split; reflexivity.
Qed.

(** C9 (amended). A node whose mass is not greater than 0 is skipped by
    the momentum step: its velocity and its mass are what they were, so
    neither the division by the mass, nor gravity, nor the boundary
    conditions touch it.  Conversely a node whose velocity the step
    changes has a positive mass, so the divisor of line 105 is never zero.
    The zero-out stage leaves every node with zero mass and the zero
    vector.  When every particle in use lies half a cell or more from the
    three lower faces, a node that P2G leaves without positive mass holds
    the zero vector after the momentum step. *)
Theorem zero_mass_node_skipped (gravity : Q) (st : Sim) (I : IVec) :
  in_grid I = true ->
  (~ 0 < grid_m st I ->
     grid_v (substep_grid gravity st) I = grid_v st I /\
     grid_m (substep_grid gravity st) I = grid_m st I) /\
  (grid_v (substep_grid gravity st) I <> grid_v st I ->
     0 < grid_m st I /\ ~ grid_m st I == 0) /\
  (grid_m (substep_zero_out st) I = 0 /\
   grid_v (substep_zero_out st) I = mkVec 0 0 0) /\
  ((forall p, in_particles p = true -> is_used st p <> 0%Z -> half_cell_in (x st p)) ->
   let st1 := substep_p2g ti_exp ti_svd (substep_zero_out st) in
   ~ 0 < grid_m st1 I ->
   veq (grid_v (substep_grid gravity st1) I) vzero).
Proof.
  intro HI. split; [|split; [|split]].
  - intro Hm. split.
    + cbn. rewrite HI. now apply grid_node_skip.
    + reflexivity.
  - intro H. cbn in H. rewrite HI in H.
    destruct (Qlt_le_dec 0 (grid_m st I)) as [Hpos | Hle].
    + split; [assumption|]. intro Hz. rewrite Hz in Hpos. now apply Qlt_irrefl in Hpos.
    + exfalso. apply H. apply grid_node_skip. now apply Qle_not_lt.
  - cbn. rewrite HI. split; reflexivity.
  - intros Hx st1 Hm.
    pose proof (p2g_from_zero_massless_rest st I Hx HI) as Hrest.
    fold st1 in Hrest. clearbody st1. destruct Hrest as [H0 Hrest].
    rewrite (grid_v_substep_grid gravity st1 I HI).
    rewrite grid_node_skip by exact Hm.
    apply Hrest. apply Qle_antisym; [now apply Qnot_lt_le | exact H0].
Qed.

(** X4. When every particle in use is at least half a cell from the lower
    faces ([x * inv_dx >= 0.5] on each axis), every grid node has, after
    zero-out and P2G, a mass that is not negative, and a node left without
    mass holds no momentum.  The momentum step then skips that node, so
    its velocity is the zero vector. *)
Theorem p2g_mass_nonnegative (gravity : Q) (st : Sim) (I : IVec) :
  (forall p, in_particles p = true -> is_used st p <> 0%Z -> half_cell_in (x st p)) ->
  in_grid I = true ->
  let st1 := substep_p2g ti_exp ti_svd (substep_zero_out st) in
  0 <= grid_m st1 I /\
  (grid_m st1 I == 0 -> veq (grid_v st1 I) vzero) /\
  (grid_m st1 I == 0 -> veq (grid_v (substep_grid gravity st1) I) vzero).
Proof.
  intros Hx HI st1.
  assert (Hrest : massless_rest st1 I).
  { subst st1. unfold substep_p2g. apply p2g_fold_massless_rest.
    - intros p Hp. change (is_used (substep_zero_out st)) with (is_used st).
      change (x (substep_zero_out st)) with (x st).
      apply Hx. apply zrange_In in Hp. unfold in_particles.
      apply andb_true_iff. split; [apply Z.leb_le | apply Z.ltb_lt]; lia.
    - unfold massless_rest. cbn -[in_grid]. rewrite HI.
      split; [apply Qle_refl|]. intros _. repeat split; reflexivity. }
  clearbody st1. destruct Hrest as [Hm Hrest].
  split; [exact Hm|]. split; [exact Hrest|].
  intro Hz. rewrite (grid_v_substep_grid gravity st1 I HI).
  rewrite grid_node_skip; [now apply Hrest|].
  rewrite Hz. apply Qlt_irrefl.
Qed.

End P2GSign.

Lemma one_particle_half_cell_in (mat : Z) (p : Z) :
  in_particles p = true -> is_used (one_particle mat) p <> 0%Z ->
  half_cell_in (x (one_particle mat) p).
Proof.
  intros _ Hu. cbn in Hu |- *. unfold upd in *.
  destruct (p =? 0)%Z; [|now elim Hu].
  repeat split; discriminate.
Qed.

Lemma p2g_mass_nonnegative_witness :
  (forall p, in_particles p = true -> is_used (one_particle JELLY) p <> 0%Z ->
             half_cell_in (x (one_particle JELLY) p)) /\
  in_grid band_node = true /\
  0 <= grid_m (substep_p2g exp_at_zero svd_of_diagonal
                 (substep_zero_out (one_particle JELLY))) band_node.
Proof.
  split; [exact (one_particle_half_cell_in JELLY)|]. split; [reflexivity|].
  exact (proj1 (p2g_mass_nonnegative exp_at_zero svd_of_diagonal gravity
                  (one_particle JELLY) band_node
                  (one_particle_half_cell_in JELLY) eq_refl)).
Defined.

(** ** The momentum step away from the walls, and G2P on a uniform grid *)

(** X5. For a node with positive mass the momentum step gives, on every
    axis, either the momentum divided by the mass (plus [dt * gravity] on
    the second axis) or 0; on a node outside the six boundary bands
    ([bound <= I[d] <= n_grid - bound] on every axis) it gives exactly the
    former: nothing but the division and gravity changes the velocity. *)
Theorem grid_interior_velocity (gravity : Q) (st : Sim) (I : IVec) :
  in_grid I = true -> 0 < grid_m st I ->
  let m := grid_m st I in
  let free := mkVec (v0 (grid_v st I) / m)
                    (v1 (grid_v st I) / m + dt * gravity)
                    (v2 (grid_v st I) / m) in
  let g' := grid_v (substep_grid gravity st) I in
  (v0 g' == v0 free \/ v0 g' == 0) /\
  (v1 g' == v1 free \/ v1 g' == 0) /\
  (v2 g' == v2 free \/ v2 g' == 0) /\
  (interior I = true -> veq g' free).
Proof.
  intros HI Hm m free g'. subst g'.
  rewrite (grid_v_substep_grid gravity st I HI). fold m. fold m in Hm.
  clearbody m.
  assert (Hfree : veq (vset (vscale (1 / m) (grid_v st I)) 1
                         (vnth (vscale (1 / m) (grid_v st I)) 1 + dt * gravity))
                      free).
  { subst free. destruct (grid_v st I) as [a b c].
    unfold veq, vset, vscale, vmap, vnth. cbn [v0 v1 v2].
    assert (Hne : ~ m == 0).
    { intro H0. apply (Qlt_not_eq _ _ Hm). now symmetry. }
    repeat split; field; exact Hne. }
  unfold grid_node. apply Qltb_true in Hm. rewrite Hm.
  set (g1 := vset (vscale (1 / m) (grid_v st I)) 1 _) in *. clearbody g1.
  destruct Hfree as (Hf0 & Hf1 & Hf2). destruct g1 as [a b c].
  cbn [v0 v1 v2] in Hf0, Hf1, Hf2.
  split; [|split; [|split]].
  - repeat match goal with
    | |- context [if ?c then _ else _] => destruct c
    end; cbn [vset vnth v0 v1 v2]; (now left) || (right; reflexivity).
  - repeat match goal with
    | |- context [if ?c then _ else _] => destruct c
    end; cbn [vset vnth v0 v1 v2]; (now left) || (right; reflexivity).
  - repeat match goal with
    | |- context [if ?c then _ else _] => destruct c
    end; cbn [vset vnth v0 v1 v2]; (now left) || (right; reflexivity).
  - intro Hint. unfold interior in Hint.
    repeat (apply andb_true_iff in Hint; destruct Hint as [Hint ?]).
    repeat match goal with
    | H : (_ <=? _)%Z = true |- _ => apply Z.leb_le in H
    end.
    destruct I as [i j k]. cbn [inth i0 i1 i2] in *.
    replace (i <? bound)%Z with false by (symmetry; apply Z.ltb_ge; lia).
    replace (j <? bound)%Z with false by (symmetry; apply Z.ltb_ge; lia).
    replace (k <? bound)%Z with false by (symmetry; apply Z.ltb_ge; lia).
    replace (i >? n_grid - bound)%Z with false by (symmetry; rewrite Z.gtb_ltb; apply Z.ltb_ge; lia).
    replace (j >? n_grid - bound)%Z with false by (symmetry; rewrite Z.gtb_ltb; apply Z.ltb_ge; lia).
    replace (k >? n_grid - bound)%Z with false by (symmetry; rewrite Z.gtb_ltb; apply Z.ltb_ge; lia).
    cbn [andb]. repeat split; assumption.
Qed.

Lemma grid_interior_velocity_witness :
  in_grid band_node = true /\ 0 < grid_m band_sim band_node /\
  interior band_node = true /\
  veq (grid_v (substep_grid gravity band_sim) band_node)
      (mkVec (1 / 1) (0 / 1 + dt * gravity) (0 / 1)).
Proof.
  split; [reflexivity|]. split; [reflexivity|]. split; [reflexivity|].
  exact (proj2 (proj2 (proj2 (grid_interior_velocity gravity band_sim band_node
                                 eq_refl eq_refl))) eq_refl).
Defined.

Lemma g2p_gather_ext (gv gv' : IVec -> Vec) (fx : Vec) (base : IVec) (w : list Vec)
    (l : list (nat * nat * nat)) (acc : Vec * Mat) :
  (forall ijk, In ijk l -> gv (iadd base (offset_of ijk)) = gv' (iadd base (offset_of ijk))) ->
  fold_left (g2p_gather gv fx base w) l acc = fold_left (g2p_gather gv' fx base w) l acc.
Proof.
  revert acc. induction l as [|ijk l IH]; intros acc Hg; cbn [fold_left].
  - reflexivity.
  - replace (g2p_gather gv' fx base w acc ijk) with (g2p_gather gv fx base w acc ijk)
      by (unfold g2p_gather; rewrite (Hg ijk) by (now left); reflexivity).
    apply IH. intros ijk' Hin. apply Hg. now right.
Qed.

Lemma mget_madd (a b : Mat) (i j : nat) : mget (madd a b) i j = mget a i j + mget b i j.
Proof.
  destruct a as [[? ? ?] [? ? ?] [? ? ?]], b as [[? ? ?] [? ? ?] [? ? ?]].
  destruct i as [|[|i]]; destruct j as [|[|j]]; reflexivity.
Qed.

Lemma mget_mscale (s : Q) (a : Mat) (i j : nat) : mget (mscale s a) i j = s * mget a i j.
Proof.
  destruct a as [[? ? ?] [? ? ?] [? ? ?]].
  destruct i as [|[|i]]; destruct j as [|[|j]]; reflexivity.
Qed.

Lemma mget_outer_product (a b : Vec) (i j : nat) :
  mget (outer_product a b) i j = vnth a i * vnth b j.
Proof.
  destruct a, b. destruct i as [|[|i]]; destruct j as [|[|j]]; reflexivity.
Qed.

(** The accumulators of the neighbourhood loop of G2P as sums. *)
Lemma g2p_gather_fold_v (gv : IVec -> Vec) (fx : Vec) (base : IVec) (w : list Vec)
    (d : nat) (l : list (nat * nat * nat)) (acc : Vec * Mat) :
  vnth (fst (fold_left (g2p_gather gv fx base w) l acc)) d ==
  vnth (fst acc) d +
  sumQ (map (fun ijk => node_weight w ijk * vnth (gv (iadd base (offset_of ijk))) d) l).
Proof.
  revert acc. induction l as [|ijk l IH]; intro acc; cbn [fold_left map sumQ fold_right].
  - ring.
  - rewrite IH. unfold g2p_gather. cbn [fst].
    rewrite vnth_vadd, vnth_vscale.
    fold (sumQ (map (fun ijk0 => node_weight w ijk0
                       * vnth (gv (iadd base (offset_of ijk0))) d) l)).
    ring.
Qed.

Lemma g2p_gather_fold_C (gv : IVec -> Vec) (fx : Vec) (base : IVec) (w : list Vec)
    (i j : nat) (l : list (nat * nat * nat)) (acc : Vec * Mat) :
  mget (snd (fold_left (g2p_gather gv fx base w) l acc)) i j ==
  mget (snd acc) i j +
  sumQ (map (fun ijk => 4 * inv_dx * node_weight w ijk *
                        (vnth (gv (iadd base (offset_of ijk))) i *
                         vnth (vsub (vcast_float (offset_of ijk)) fx) j)) l).
Proof.
  revert acc. induction l as [|ijk l IH]; intro acc; cbn [fold_left map sumQ fold_right].
  - ring.
  - rewrite IH. unfold g2p_gather. cbn [snd].
    rewrite mget_madd, mget_mscale, mget_outer_product.
    fold (sumQ (map (fun ijk0 => 4 * inv_dx * node_weight w ijk0 *
                       (vnth (gv (iadd base (offset_of ijk0))) i *
                        vnth (vsub (vcast_float (offset_of ijk0)) fx) j)) l)).
    ring.
Qed.

(** The weights of G2P sum to 1 and have first moment [fx]. *)
Lemma g2p_weights_total (fx : Vec) (c : Q) :
  sumQ (map (fun ijk => node_weight (g2p_weights fx) ijk * c) ndrange3) == c.
Proof.
  destruct fx as [a b e]. cbn -[Qpower]. ring.
Qed.

Lemma g2p_weights_moment (fx : Vec) (c : Q) (j : nat) :
  sumQ (map (fun ijk => 4 * inv_dx * node_weight (g2p_weights fx) ijk *
                        (c * vnth (vsub (vcast_float (offset_of ijk)) fx) j)) ndrange3)
  == 0.
Proof.
  generalize inv_dx. intro h. destruct fx as [a b e].
  destruct (axis_cases j) as [-> | [-> | [n ->]]];
    cbn -[Qpower];
    unfold vsub, vmap2, vcast_float, cast_float;
    cbn [v0 v1 v2 i0 i1 i2 inject_Z];
    ring.
Qed.

(** The gather of a uniform velocity. *)
Lemma g2p_new_uniform (u x_p : Vec) :
  veq (fst (g2p_new (fun _ => u) x_p)) u /\
  meq (snd (g2p_new (fun _ => u) x_p)) mzero.
Proof.
  unfold g2p_new.
  set (fx := interp_fx x_p (interp_base x_p)). set (base := interp_base x_p).
  assert (Hv : forall d, vnth (fst (fold_left (g2p_gather (fun _ => u) fx base (g2p_weights fx))
                                      ndrange3 (vzero, mzero))) d == vnth u d).
  { intro d. rewrite g2p_gather_fold_v. rewrite g2p_weights_total.
    cbn [fst]. destruct d as [|[|d]]; cbn; ring. }
  assert (HC : forall i j, mget (snd (fold_left (g2p_gather (fun _ => u) fx base (g2p_weights fx))
                                        ndrange3 (vzero, mzero))) i j == 0).
  { intros i j. rewrite g2p_gather_fold_C. rewrite g2p_weights_moment.
    cbn [snd]. destruct i as [|[|i]]; destruct j as [|[|j]]; cbn; ring. }
  destruct (fold_left (g2p_gather (fun _ => u) fx base (g2p_weights fx)) ndrange3
              (vzero, mzero)) as [nv nC].
  cbn [fst snd] in *. split.
  - destruct nv as [n0 n1 n2], u as [u0 u1 u2].
    repeat split; [apply (Hv 0%nat) | apply (Hv 1%nat) | apply (Hv 2%nat)].
  - destruct nC as [[c00 c01 c02] [c10 c11 c12] [c20 c21 c22]].
    repeat split;
      [ apply (HC 0%nat 0%nat) | apply (HC 0%nat 1%nat) | apply (HC 0%nat 2%nat)
      | apply (HC 1%nat 0%nat) | apply (HC 1%nat 1%nat) | apply (HC 1%nat 2%nat)
      | apply (HC 2%nat 0%nat) | apply (HC 2%nat 1%nat) | apply (HC 2%nat 2%nat) ].
Qed.

(** X6. G2P reproduces a uniform flow: when the 27 neighbour nodes of a
    particle in use all hold the velocity [u], the particle gets [v = u]
    and a zero velocity gradient [C], moves by [dt * u], and keeps its
    [Jp]. *)
Theorem g2p_uniform_flow (st : Sim) (p : Z) (u : Vec) :
  in_particles p = true -> is_used st p <> 0%Z ->
  (forall ijk, In ijk ndrange3 ->
     grid_v st (iadd (interp_base (x st p)) (offset_of ijk)) = u) ->
  veq (v (substep_g2p st) p) u /\
  meq (C (substep_g2p st) p) mzero /\
  veq (x (substep_g2p st) p) (vadd (x st p) (vscale dt u)) /\
  Jp (substep_g2p st) p == Jp st p.
Proof.
  intros Hp Hu Hgrid.
  assert (Hact : in_particles p && negb (is_used st p =? 0)%Z = true).
  { rewrite Hp. destruct (Z.eqb_spec (is_used st p) 0); [contradiction | reflexivity]. }
  assert (Hnew : g2p_new (grid_v st) (x st p) = g2p_new (fun _ => u) (x st p)).
  { unfold g2p_new. apply g2p_gather_ext. exact Hgrid. }
  destruct (g2p_new_uniform u (x st p)) as [Hv HC].
  rewrite <- Hnew in Hv, HC.
  assert (Hfields :
    v (substep_g2p st) p = fst (g2p_new (grid_v st) (x st p)) /\
    C (substep_g2p st) p = snd (g2p_new (grid_v st) (x st p)) /\
    x (substep_g2p st) p
      = vadd (x st p) (vscale dt (fst (g2p_new (grid_v st) (x st p)))) /\
    Jp (substep_g2p st) p
      = Jp st p * (1 + dt * trace (snd (g2p_new (grid_v st) (x st p))))).
  { cbn -[g2p_new in_particles]. rewrite Hact. repeat split. }
  destruct Hfields as (-> & -> & -> & ->).
  destruct (g2p_new (grid_v st) (x st p)) as [nv nC]. cbn [fst snd] in *.
  split; [exact Hv|]. split; [exact HC|].
  destruct Hv as (Hv0 & Hv1 & Hv2).
  destruct HC as ((H00 & H01 & H02) & (H10 & H11 & H12) & (H20 & H21 & H22)).
  split.
  - destruct (x st p) as [a b c], nv as [n0 n1 n2], u as [u0 u1 u2].
    unfold veq, vadd, vscale, vmap2, vmap. cbn [v0 v1 v2] in *.
    rewrite Hv0, Hv1, Hv2. repeat split; reflexivity.
  - destruct nC as [[c00 c01 c02] [c10 c11 c12] [c20 c21 c22]].
    unfold trace, mget, vnth. cbn [r0 r1 r2 v0 v1 v2 mzero vzero] in *.
    rewrite H00, H11, H22. ring.
Qed.

Lemma g2p_uniform_flow_witness :
  in_particles 0 = true /\ is_used (uniform_sim (mkVec 1 2 3)) 0 <> 0%Z /\
  veq (v (substep_g2p (uniform_sim (mkVec 1 2 3))) 0) (mkVec 1 2 3).
Proof.
  split; [reflexivity|]. split; [discriminate|].
  apply (g2p_uniform_flow (uniform_sim (mkVec 1 2 3)) 0 (mkVec 1 2 3)).
  - reflexivity.
  - discriminate.
  - intros ijk _. reflexivity.
Defined.

(** ** Whole substeps *)

Section SubstepInvariants.

Variable ti_exp : Q -> Q.
Variable ti_svd : Mat -> Mat * Mat * Mat.

(** G2P on a slot that is not in use, and the particle fields after the
    momentum step. *)
Lemma substep_g2p_unused (st : Sim) (p : Z) :
  is_used st p = 0%Z ->
  x (substep_g2p st) p = x st p /\ v (substep_g2p st) p = v st p /\
  C (substep_g2p st) p = C st p /\ F (substep_g2p st) p = F st p /\
  Jp (substep_g2p st) p = Jp st p.
Proof.
  intro Hu. cbn -[in_particles g2p_new]. rewrite Hu.
  rewrite andb_false_r. repeat split.
Qed.

Lemma substep_grid_fields (g : Q) (st : Sim) :
  x (substep_grid g st) = x st /\ v (substep_grid g st) = v st /\
  C (substep_grid g st) = C st /\ F (substep_grid g st) = F st /\
  Jp (substep_grid g st) = Jp st /\ is_used (substep_grid g st) = is_used st /\
  materials (substep_grid g st) = materials st.
Proof. repeat split. Qed.

Lemma substep_zero_out_fields (st : Sim) :
  x (substep_zero_out st) = x st /\ v (substep_zero_out st) = v st /\
  C (substep_zero_out st) = C st /\ F (substep_zero_out st) = F st /\
  Jp (substep_zero_out st) = Jp st /\ is_used (substep_zero_out st) = is_used st /\
  materials (substep_zero_out st) = materials st.
Proof. repeat split. Qed.

(** One substep on a slot that is not in use. *)
Lemma substep_unused (g : Q) (st : Sim) (p : Z) :
  is_used st p = 0%Z ->
  let st' := substep ti_exp ti_svd g st in
  x st' p = x st p /\ v st' p = v st p /\ C st' p = C st p /\
  F st' p = F st p /\ Jp st' p = Jp st p /\
  is_used st' = is_used st /\ materials st' = materials st.
Proof.
  intros Hu. unfold substep.
  destruct (substep_p2g_at ti_exp ti_svd (substep_zero_out st) p)
    as (Hm & Hus & HC & Hx & Hv & HF & HJ).
  cbn zeta in Hm, Hus, HC, Hx, Hv, HF, HJ.
  revert Hm Hus HC Hx Hv HF HJ.
  generalize (substep_p2g ti_exp ti_svd (substep_zero_out st)).
  destruct (substep_zero_out_fields st) as (Zx & Zv & ZC & ZF & ZJ & Zu & Zm).
  rewrite Zx, Zv, ZC, ZF, ZJ, Zu, Zm, Hu, andb_false_r.
  intros s1 Hm Hus HC Hx Hv HF HJ. cbn zeta.
  destruct (substep_grid_fields g s1) as (Gx & Gv & GC & GF & GJ & Gu & Gm).
  assert (Hu1 : is_used (substep_grid g s1) p = 0%Z) by (now rewrite Gu, Hus).
  destruct (substep_g2p_unused (substep_grid g s1) p Hu1) as (Px & Pv & PC & PF & PJ).
  destruct (substep_g2p_particles (substep_grid g s1)) as [_ Pm].
  rewrite Px, Pv, PC, PF, PJ, Gx, Gv, GC, GF, GJ, Hx, Hv, HC, HF, HJ.
  split; [reflexivity|]. split; [reflexivity|]. split; [reflexivity|].
  split; [reflexivity|]. split; [reflexivity|].
  split.
  - change (is_used (substep_g2p (substep_grid g s1))) with (is_used s1). exact Hus.
  - rewrite Pm, Gm. exact Hm.
Qed.

(** No kernel of the substep writes [is_used] or [materials]. *)
Lemma substep_tags (g : Q) (st : Sim) :
  is_used (substep ti_exp ti_svd g st) = is_used st /\
  materials (substep ti_exp ti_svd g st) = materials st.
Proof.
  unfold substep.
  destruct (substep_p2g_at ti_exp ti_svd (substep_zero_out st) 0)
    as (Hm & Hus & _).
  cbn zeta in Hm, Hus.
  revert Hm Hus.
  generalize (substep_p2g ti_exp ti_svd (substep_zero_out st)).
  destruct (substep_zero_out_fields st) as (_ & _ & _ & _ & _ & Zu & Zm).
  rewrite Zu, Zm.
  intros s1 Hm Hus.
  change (is_used (substep_g2p (substep_grid g s1))) with (is_used s1).
  change (materials (substep_g2p (substep_grid g s1))) with (materials s1).
  now rewrite Hm, Hus.
Qed.

(** X7. Substeps never change which slots are in use nor the material of
    any slot, whatever the number of substeps and the gravity of each: no
    kernel of the substep writes [is_used] or [materials]. *)
Theorem substeps_keep_tags (gravities : list Q) (st : Sim) :
  is_used (run_substeps ti_exp ti_svd gravities st) = is_used st /\
  materials (run_substeps ti_exp ti_svd gravities st) = materials st.
Proof.
  unfold run_substeps. revert st.
  induction gravities as [|g gs IH]; intro st; cbn [fold_left].
  - split; reflexivity.
  - destruct (substep_tags g st) as [Hu Hm].
    destruct (IH (substep ti_exp ti_svd g st)) as (IHu & IHm).
    split; [now rewrite IHu | now rewrite IHm].
Qed.

(** X8. A slot that is not in use keeps its position (the parking
    position of [set_all_unused]), velocity, [C], [F] and [Jp] through any
    number of substeps: the particle loops of P2G and G2P skip it. *)
Theorem unused_slot_untouched (gravities : list Q) (st : Sim) (p : Z) :
  is_used st p = 0%Z ->
  x (run_substeps ti_exp ti_svd gravities st) p = x st p /\
  v (run_substeps ti_exp ti_svd gravities st) p = v st p /\
  C (run_substeps ti_exp ti_svd gravities st) p = C st p /\
  F (run_substeps ti_exp ti_svd gravities st) p = F st p /\
  Jp (run_substeps ti_exp ti_svd gravities st) p = Jp st p.
Proof.
  unfold run_substeps. revert st.
  induction gravities as [|g gs IH]; intros st Hp; cbn [fold_left].
  - repeat split.
  - destruct (substep_unused g st p Hp) as (Hx & Hv & HC & HF & HJ & Hu & _).
    cbn zeta in Hx, Hv, HC, HF, HJ, Hu.
    assert (Hp' : is_used (substep ti_exp ti_svd g st) p = 0%Z) by (now rewrite Hu).
    destruct (IH (substep ti_exp ti_svd g st) Hp') as (Ix & Iv & IC & IF & IJ).
    rewrite Ix, Iv, IC, IF, IJ.
    split; [exact Hx|]. split; [exact Hv|]. split; [exact HC|].
    split; [exact HF | exact HJ].
Qed.

End SubstepInvariants.

Lemma unused_slot_untouched_witness :
  is_used (one_particle SNOW) 7 = 0%Z /\
  x (run_substeps exp_at_zero svd_of_diagonal [gravity; gravity; gravity]
       (one_particle SNOW)) 7 = x (one_particle SNOW) 7.
Proof.
  split; [reflexivity|].
  exact (proj1 (unused_slot_untouched exp_at_zero svd_of_diagonal
                  [gravity; gravity; gravity] (one_particle SNOW) 7 eq_refl)).
Defined.

(** ** Snow: the elastic range and compression *)

Lemma snow_clamp_inside (s : Q) :
  1 - 2.5e-2 <= s <= 1 + 4.5e-3 -> snow_clamp s = s.
Proof.
  intros [Hlo Hhi]. unfold snow_clamp, clamp.
  apply Qltb_false in Hlo. apply Qltb_false in Hhi. now rewrite Hlo, Hhi.
Qed.

Lemma snow_clamp_below (s : Q) : s < 1 - 2.5e-2 -> snow_clamp s = 1 - 2.5e-2.
Proof.
  intro Hlo. unfold snow_clamp, clamp. apply Qltb_true in Hlo. now rewrite Hlo.
Qed.

(** The factor [sig / new_sig] of a singular value that is not stretched
    beyond the upper bound. *)
Lemma snow_factor_bounds (s : Q) :
  0 <= s <= 1 + 4.5e-3 ->
  0 <= s / snow_clamp s <= 1 /\ (s < 1 - 2.5e-2 -> s / snow_clamp s < 1).
Proof.
  intros [H0 Hhi].
  destruct (Qlt_le_dec s (1 - 2.5e-2)) as [Hlt | Hge].
  - rewrite (snow_clamp_below s Hlt).
    assert (Hpos : 0 < 1 - 2.5e-2) by reflexivity.
    split; [split|intros _].
    + apply Qle_shift_div_l; [exact Hpos | lra].
    + apply Qle_shift_div_r; [exact Hpos | lra].
    + apply Qlt_shift_div_r; [exact Hpos | lra].
  - rewrite (snow_clamp_inside s (conj Hge Hhi)).
    assert (Hne : ~ s == 0).
    { intro Hz. rewrite Hz in Hge. apply (Qle_not_lt _ _ Hge). reflexivity. }
    assert (H1 : s / s == 1) by (field; exact Hne).
    rewrite H1. split; [split; discriminate|].
    intro Hlt. exfalso. apply (Qle_not_lt _ _ Hge Hlt).
Qed.

Lemma Qmult_factor_le (a f : Q) : 0 <= a -> 0 <= f <= 1 -> 0 <= a * f <= a.
Proof. intros Ha [Hf0 Hf1]. split; nra. Qed.

Lemma Qmult_factor_lt (a f : Q) : 0 < a -> 0 <= f -> f < 1 -> a * f < a.
Proof. intros Ha Hf0 Hf1. nra. Qed.

Section Snow.

Variable ti_exp : Q -> Q.
Variable ti_svd : Mat -> Mat * Mat * Mat.

(** X9. For a SNOW particle whose predicted singular values all lie in
    [[1 - 2.5e-2, 1 + 4.5e-3]], the plasticity loop changes nothing: [sig]
    is kept, [Jp] keeps its value, and [F] is [U @ sig @ V^T]. *)
Theorem snow_elastic_regime (C_p F_p : Mat) (Jp_p : Q) :
  let sig := predicted_sig ti_svd C_p F_p in
  1 - 2.5e-2 <= mget sig 0 0 <= 1 + 4.5e-3 ->
  1 - 2.5e-2 <= mget sig 1 1 <= 1 + 4.5e-3 ->
  1 - 2.5e-2 <= mget sig 2 2 <= 1 + 4.5e-3 ->
  pl_sig (plasticity SNOW sig Jp_p) = sig /\
  c_Jp (p2g_constitutive ti_exp ti_svd SNOW C_p F_p Jp_p) == Jp_p /\
  c_F (p2g_constitutive ti_exp ti_svd SNOW C_p F_p Jp_p)
  = mmul (mmul (fst (fst (ti_svd (predicted_F C_p F_p)))) sig)
         (mtranspose (snd (ti_svd (predicted_F C_p F_p)))).
Proof.
  intros sig H0 H1 H2.
  assert (Hpl : plasticity SNOW sig Jp_p =
                mkPlastic (Jp_p * (mget sig 0 0 / mget sig 0 0)
                                * (mget sig 1 1 / mget sig 1 1)
                                * (mget sig 2 2 / mget sig 2 2))
                          sig
                          (1.0 * mget sig 0 0 * mget sig 1 1 * mget sig 2 2)).
  { rewrite plasticity_unfold. cbn zeta. rewrite !new_sig_of_snow.
    rewrite (snow_clamp_inside _ H0), (snow_clamp_inside _ H1), (snow_clamp_inside _ H2).
    now rewrite !mset_diag_same. }
  split; [now rewrite Hpl|]. split.
  - rewrite p2g_constitutive_Jp by discriminate. fold sig. rewrite Hpl. cbn [pl_Jp].
    field. repeat split; intro Hz;
      [ rewrite Hz in H2; destruct H2 as [H2 _]
      | rewrite Hz in H1; destruct H1 as [H1 _]
      | rewrite Hz in H0; destruct H0 as [H0 _] ];
      match goal with H : _ <= 0 |- _ => apply (Qle_not_lt _ _ H); reflexivity end.
  - rewrite p2g_constitutive_F by discriminate. fold sig. cbn [SNOW Z.eqb Pos.eqb].
    now rewrite Hpl.
Qed.

(** X10. For a SNOW particle in use with [Jp > 0] whose predicted singular
    values are not negative and not above [1 + 4.5e-3], the P2G kernel
    never raises [Jp[p]]; when one of them is below [1 - 2.5e-2]
    (compression beyond the elastic range), the kernel leaves [Jp[p]]
    strictly lower than it found it. *)
Theorem snow_compression_lowers_Jp (st : Sim) (p : Z) :
  let sig := predicted_sig ti_svd (C st p) (F st p) in
  let st' := substep_p2g ti_exp ti_svd st in
  in_particles p = true -> is_used st p <> 0%Z -> materials st p = SNOW ->
  0 < Jp st p ->
  0 <= mget sig 0 0 <= 1 + 4.5e-3 ->
  0 <= mget sig 1 1 <= 1 + 4.5e-3 ->
  0 <= mget sig 2 2 <= 1 + 4.5e-3 ->
  0 <= Jp st' p <= Jp st p /\
  (mget sig 0 0 < 1 - 2.5e-2 \/ mget sig 1 1 < 1 - 2.5e-2 \/ mget sig 2 2 < 1 - 2.5e-2 ->
   Jp st' p < Jp st p).
Proof.
  intros sig st' Hp Hu Hm HJ H0 H1 H2.
  destruct (substep_p2g_at ti_exp ti_svd st p) as (_ & _ & _ & _ & _ & _ & HJp).
  cbn zeta in HJp. rewrite (in_use_active st p Hp Hu), Hm in HJp.
  fold st' in HJp. clearbody st'. rewrite HJp.
  rewrite p2g_constitutive_Jp by discriminate. fold sig.
  rewrite plasticity_unfold. cbn zeta. rewrite !new_sig_of_snow. cbn [pl_Jp].
  destruct (snow_factor_bounds _ H0) as [[F0a F0b] F0c].
  destruct (snow_factor_bounds _ H1) as [[F1a F1b] F1c].
  destruct (snow_factor_bounds _ H2) as [[F2a F2b] F2c].
  set (f0 := mget sig 0 0 / snow_clamp (mget sig 0 0)) in *.
  set (f1 := mget sig 1 1 / snow_clamp (mget sig 1 1)) in *.
  set (f2 := mget sig 2 2 / snow_clamp (mget sig 2 2)) in *.
  clearbody f0 f1 f2.
  set (j := Jp st p) in *. clearbody j.
  destruct (Qmult_factor_le j f0 (Qlt_le_weak _ _ HJ) (conj F0a F0b)) as [A0 A1].
  destruct (Qmult_factor_le (j * f0) f1 A0 (conj F1a F1b)) as [B0 B1].
  destruct (Qmult_factor_le (j * f0 * f1) f2 B0 (conj F2a F2b)) as [C0 C1].
  split; [split; [exact C0 | lra]|].
  intros [Hc | [Hc | Hc]].
  - pose proof (Qmult_factor_lt j f0 HJ F0a (F0c Hc)). lra.
  - destruct (Qlt_le_dec 0 (j * f0)) as [Hpos | Hz].
    + pose proof (Qmult_factor_lt (j * f0) f1 Hpos F1a (F1c Hc)). lra.
    + lra.
  - destruct (Qlt_le_dec 0 (j * f0 * f1)) as [Hpos | Hz].
    + pose proof (Qmult_factor_lt (j * f0 * f1) f2 Hpos F2a (F2c Hc)). lra.
    + lra.
Qed.

End Snow.

Lemma snow_elastic_regime_witness :
  (1 - 2.5e-2 <= mget (predicted_sig svd_of_diagonal mzero midentity) 0 0 <= 1 + 4.5e-3) /\
  (1 - 2.5e-2 <= mget (predicted_sig svd_of_diagonal mzero midentity) 1 1 <= 1 + 4.5e-3) /\
  (1 - 2.5e-2 <= mget (predicted_sig svd_of_diagonal mzero midentity) 2 2 <= 1 + 4.5e-3) /\
  c_Jp (p2g_constitutive exp_at_zero svd_of_diagonal SNOW mzero midentity 1) == 1.
Proof.
  assert (H0 : 1 - 2.5e-2 <= mget (predicted_sig svd_of_diagonal mzero midentity) 0 0
               <= 1 + 4.5e-3) by (split; discriminate).
  assert (H1 : 1 - 2.5e-2 <= mget (predicted_sig svd_of_diagonal mzero midentity) 1 1
               <= 1 + 4.5e-3) by (split; discriminate).
  assert (H2 : 1 - 2.5e-2 <= mget (predicted_sig svd_of_diagonal mzero midentity) 2 2
               <= 1 + 4.5e-3) by (split; discriminate).
  split; [exact H0|]. split; [exact H1|]. split; [exact H2|].
  exact (proj1 (proj2 (snow_elastic_regime exp_at_zero svd_of_diagonal
                         mzero midentity 1 H0 H1 H2))).
Defined.

Lemma snow_compression_lowers_Jp_witness :
  in_particles 0 = true /\ is_used squeezed_snow 0 <> 0%Z /\
  materials squeezed_snow 0 = SNOW /\ 0 < Jp squeezed_snow 0 /\
  mget (predicted_sig svd_of_diagonal (C squeezed_snow 0) (F squeezed_snow 0)) 0 0
    < 1 - 2.5e-2 /\
  Jp (substep_p2g exp_at_zero svd_of_diagonal squeezed_snow) 0 < Jp squeezed_snow 0.
Proof.
  assert (Hu : is_used squeezed_snow 0 <> 0%Z) by discriminate.
  assert (Hc : mget (predicted_sig svd_of_diagonal (C squeezed_snow 0) (F squeezed_snow 0))
                 0 0 < 1 - 2.5e-2) by reflexivity.
  split; [reflexivity|]. split; [exact Hu|]. split; [reflexivity|].
  split; [reflexivity|]. split; [exact Hc|].
  apply (snow_compression_lowers_Jp exp_at_zero svd_of_diagonal squeezed_snow 0).
  - reflexivity.
  - exact Hu.
  - reflexivity.
  - reflexivity.
  - split; discriminate.
  - split; discriminate.
  - split; discriminate.
  - left. exact Hc.
Defined.
(** ** Initialization: failures, birth state, ranges and materials *)

Lemma f64_of_Z_n_particles :
  f64_of_Z n_particles = S754_finite false 4503599627370496 (-33).
Proof. vm_compute. reflexivity. Qed.

(** Line 194 on a total volume that is zero: the quotient is NaN or an
    infinity, and [int] raises. *)
Lemma share_count_zero_total (c : CubeVolume) (s : bool) :
  share_count (S754_zero s) c
  = inl (match volume c with
         | S754_zero _ | S754_nan => ValueError
         | _ => OverflowError
         end).
Proof.
  unfold share_count. rewrite f64_of_Z_n_particles.
  destruct (volume c) as [s' | s' | | s' m e]; reflexivity.
Qed.

Section InitMore.

Variable ti_random : Z -> nat -> Q.

(** The loop never raises [AttributeError]. *)
Lemma init_vols_loop_no_attribute_error (total_vol : float64) (len : Z)
    (vols : list VolumeSpec) :
  forall (i next_p : Z) (st : Sim) (launches : list (Z * Z)) (r : InitResult),
  init_vols_loop ti_random total_vol len vols i next_p st launches = Some r ->
  ir_error r <> Some AttributeError.
Proof.
  induction vols as [|[c | o] rest IH]; intros i next_p st launches r Hr.
  - cbn in Hr. injection Hr as <-. discriminate.
  - destruct (init_vols_loop_cube _ _ _ _ _ _ _ _ _ _ Hr)
      as [(e & He & ->) | (n & st' & _ & _ & Hrest)].
    + cbn. destruct (par_count_of_error _ _ _ _ _ _ He) as [-> | ->]; discriminate.
    + apply (IH _ _ _ _ _ Hrest).
  - cbn in Hr. injection Hr as <-. discriminate.
Qed.

(** X11. [init_vols] ends with [AttributeError] exactly when some entry of
    the list has no [volume], wherever it stands in the list; it has then
    launched nothing.  When the volumes sum to zero and the first entry is
    a cuboid, line 194 divides by zero in binary64: the call ends with
    [ValueError] when the volume of that cuboid is zero or NaN and with
    [OverflowError] otherwise, and has launched nothing either.  In both
    cases the fields are those [set_all_unused] leaves, with every slot
    reset and not in use. *)
Theorem init_vols_early_errors (vols : list VolumeSpec) (st : Sim) :
  ((exists r, init_vols ti_random vols st = Some r /\
              ir_error r = Some AttributeError)
   <-> In (OtherObject None) vols) /\
  (In (OtherObject None) vols ->
   init_vols ti_random vols st
   = Some (mkInitResult (set_all_unused st) [] (Some AttributeError))) /\
  (forall c rest s,
     vols = Cube c :: rest -> sum_volumes vols f64_zero = Some (S754_zero s) ->
     init_vols ti_random vols st
     = Some (mkInitResult (set_all_unused st) []
               (Some (match volume c with
                      | S754_zero _ | S754_nan => ValueError
                      | _ => OverflowError
                      end)))) /\
  (forall p, in_particles p = true -> reset_slot (set_all_unused st) p).
Proof.
  assert (Hattr : In (OtherObject None) vols ->
            init_vols ti_random vols st
            = Some (mkInitResult (set_all_unused st) [] (Some AttributeError))).
  { intro Hin. apply (sum_volumes_none vols f64_zero) in Hin.
    unfold init_vols. now rewrite Hin. }
  split; [|split; [exact Hattr|split]].
  - split.
    + intros (r & Hr & He). apply (sum_volumes_none vols f64_zero).
      unfold init_vols in Hr.
      destruct (sum_volumes vols f64_zero) as [total_vol|]; [|reflexivity].
      exfalso. exact (init_vols_loop_no_attribute_error _ _ _ _ _ _ _ _ Hr He).
    + intro Hin. eexists. split; [exact (Hattr Hin) | reflexivity].
  - intros c rest s -> Hsum. unfold init_vols. rewrite Hsum.
    cbn [init_vols_loop]. unfold par_count_of.
    pose proof (share_count_zero_total c s) as Hc. unfold share_count in Hc.
    rewrite Hc. reflexivity.
  - intros p Hp. exact (set_all_unused_seeded st p Hp).
Qed.

(** A launch keeps or creates the birth values. *)
Lemma init_cube_vol_newborn (a b : Z) (xb yb zb xs ys zs : Q) (m : Z)
    (st st' : Sim) (p : Z) :
  init_cube_vol ti_random a b xb yb zb xs ys zs m st = Some st' ->
  newborn st p -> newborn st' p.
Proof.
  intros Hl (HJ & HF & HC & Hv).
  pose proof (init_cube_vol_slot ti_random a b xb yb zb xs ys zs m st st' p Hl) as Hs.
  unfold newborn.
  destruct (covers p (wrap_i32 a, wrap_i32 b)).
  - destruct Hs as (_ & _ & _ & HJ' & HF' & Hv' & HC' & _).
    rewrite HJ', HF', Hv', HC'. repeat split. exact HC.
  - destruct Hs as (_ & _ & HJ' & HF' & HC' & Hv' & _).
    rewrite HJ', HF', HC', Hv'. repeat split; assumption.
Qed.

Lemma init_vols_loop_newborn (total_vol : float64) (len : Z) (vols : list VolumeSpec)
    (p : Z) :
  forall (i next_p : Z) (st : Sim) (launches : list (Z * Z)) (r : InitResult),
  newborn st p ->
  init_vols_loop ti_random total_vol len vols i next_p st launches = Some r ->
  newborn (ir_state r) p.
Proof.
  induction vols as [|[c | o] rest IH]; intros i next_p st launches r Hst Hr.
  - cbn in Hr. injection Hr as <-. exact Hst.
  - destruct (init_vols_loop_cube _ _ _ _ _ _ _ _ _ _ Hr)
      as [(e & _ & ->) | (n & st' & _ & Hl & Hrest)].
    + exact Hst.
    + apply (IH _ _ _ _ _ (init_cube_vol_newborn _ _ _ _ _ _ _ _ _ _ _ _ Hl Hst) Hrest).
  - cbn in Hr. injection Hr as <-. exact Hst.
Qed.

(** X12. Whatever list [init_vols] is given and however the call ends,
    normally or with an exception, every slot of the particle fields is
    left with the birth values [Jp = 1], [F = I], [C = 0] and [v = 0]. *)
Theorem init_vols_birth_state (vols : list VolumeSpec) (st : Sim) (r : InitResult)
    (p : Z) :
  init_vols ti_random vols st = Some r ->
  in_particles p = true ->
  newborn (ir_state r) p.
Proof.
  intros Hr Hp.
  assert (Hreset : newborn (set_all_unused st) p).
  { destruct (set_all_unused_seeded st p Hp) as (_ & _ & HJ & HF & HC & Hv).
    repeat split; assumption. }
  unfold init_vols in Hr. destruct (sum_volumes vols f64_zero) as [total_vol|].
  - exact (init_vols_loop_newborn _ _ _ _ _ _ _ _ _ Hreset Hr).
  - injection Hr as <-. exact Hreset.
Qed.

(** Two runs of a launch, and of the loop, from two states. *)
Lemma init_cube_vol_agree (launches : list (Z * Z)) (a b : Z)
    (xb yb zb xs ys zs : Q) (m : Z) (st1 st2 : Sim) :
  agree_upto launches st1 st2 ->
  match init_cube_vol ti_random a b xb yb zb xs ys zs m st1,
        init_cube_vol ti_random a b xb yb zb xs ys zs m st2 with
  | Some s1, Some s2 => agree_upto (launches ++ [(wrap_i32 a, wrap_i32 b)]) s1 s2
  | None, None => True
  | _, _ => False
  end.
Proof.
  intros Hag. unfold init_cube_vol.
  destruct (negb (fits_i64 a && fits_i64 b && fits_i64 m)); [exact I|].
  cbn zeta.
  destruct ((wrap_i32 a <? wrap_i32 b)%Z
            && negb ((0 <=? wrap_i32 a)%Z && (wrap_i32 b <=? n_particles)%Z));
    [exact I|].
  intros p Hp. destruct (Hag p Hp) as [Hmo Htag].
  rewrite existsb_app. cbn [existsb]. rewrite orb_false_r.
  unfold same_motion, same_tags in *. cbn -[wrap_i32]. unfold covers. cbn [fst snd].
  destruct ((wrap_i32 a <=? p)%Z && (p <? wrap_i32 b)%Z).
  - split; [|intros _; split; reflexivity].
    repeat split. apply Hmo.
  - rewrite orb_false_r. split; [exact Hmo | exact Htag].
Qed.

Lemma init_vols_loop_agree (total_vol : float64) (len : Z) (vols : list VolumeSpec) :
  forall (i next_p : Z) (st1 st2 : Sim) (launches : list (Z * Z)),
  agree_upto launches st1 st2 ->
  match init_vols_loop ti_random total_vol len vols i next_p st1 launches,
        init_vols_loop ti_random total_vol len vols i next_p st2 launches with
  | Some r1, Some r2 =>
      ir_error r2 = ir_error r1 /\ ir_launches r2 = ir_launches r1 /\
      agree_upto (ir_launches r1) (ir_state r1) (ir_state r2)
  | None, None => True
  | _, _ => False
  end.
Proof.
  induction vols as [|[c | o] rest IH]; intros i next_p st1 st2 launches Hag;
    cbn [init_vols_loop].
  - cbn. auto.
  - destruct (par_count_of total_vol len i next_p c) as [e | n]; [cbn; auto|].
    pose proof (init_cube_vol_agree launches next_p (next_p + n)
                  (v0 (minimum c)) (v1 (minimum c)) (v2 (minimum c))
                  (v0 (size c)) (v1 (size c)) (v2 (size c)) (material c)
                  st1 st2 Hag) as Hl.
    destruct (init_cube_vol ti_random next_p (next_p + n) _ _ _ _ _ _ _ st1) as [s1|];
      destruct (init_cube_vol ti_random next_p (next_p + n) _ _ _ _ _ _ _ st2) as [s2|];
      try contradiction; [|exact I].
    now apply IH.
  - cbn. auto.
Qed.

(** X13. [init_vols] forgets the particles it finds: called with the same
    list (and the same random draws) on two different states, it has a
    result from both or from neither; it then ends the same way, makes the
    same launches, and leaves in every slot the same position, velocity,
    [C], [F], [Jp] and [is_used]; the material and the colour of a slot
    are the same wherever a launch covered it. *)
Theorem init_vols_forgets_prior_state (vols : list VolumeSpec) (st1 st2 : Sim) :
  match init_vols ti_random vols st1, init_vols ti_random vols st2 with
  | Some r1, Some r2 =>
      ir_error r2 = ir_error r1 /\ ir_launches r2 = ir_launches r1 /\
      agree_upto (ir_launches r1) (ir_state r1) (ir_state r2)
  | None, None => True
  | _, _ => False
  end.
Proof.
  assert (Hreset : agree_upto [] (set_all_unused st1) (set_all_unused st2)).
  { intros p Hp. unfold same_motion. cbn -[in_particles]. rewrite Hp.
    split; [repeat split | discriminate]. }
  unfold init_vols. destruct (sum_volumes vols f64_zero) as [total_vol|].
  - now apply init_vols_loop_agree.
  - cbn [ir_error ir_launches ir_state]. auto.
Qed.


(** What a launch leaves in a slot of its range. *)
Lemma init_cube_vol_seeded_from (a b : Z) (c : CubeVolume) (st st' : Sim) (p : Z) :
  init_cube_vol ti_random a b (v0 (minimum c)) (v1 (minimum c)) (v2 (minimum c))
    (v0 (size c)) (v1 (size c)) (v2 (size c)) (material c) st = Some st' ->
  (wrap_i32 a <= p < wrap_i32 b)%Z ->
  in_particles p = true /\ seeded_from ti_random c st' p.
Proof.
  intros Hl Hp.
  pose proof (init_cube_vol_slot ti_random a b _ _ _ _ _ _ _ st st' p Hl) as Hs.
  rewrite covers_inside in Hs by exact Hp.
  destruct Hs as (Hin & Hu & Hm & _ & _ & _ & _ & Hx).
  split; [exact Hin|]. unfold seeded_from, cube_draw. auto.
Qed.


(** The loop does not write below the slot it has reached. *)
Lemma init_vols_loop_below (total_vol : float64) (len : Z) (cubes : list CubeVolume)
    (p : Z) :
  forall (i next_p : Z) (st : Sim) (launches : list (Z * Z)) (r : InitResult),
  (0 <= next_p)%Z -> fits total_vol next_p cubes = true ->
  (i + Z.of_nat (length cubes) = len)%Z -> (p < next_p)%Z ->
  init_vols_loop ti_random total_vol len (map Cube cubes) i next_p st launches = Some r ->
  materials (ir_state r) p = materials st p /\ x (ir_state r) p = x st p /\
  is_used (ir_state r) p = is_used st p.
Proof.
  induction cubes as [|c rest IH]; intros i next_p st launches r Hs Hfit Hlen Hp Hr.
  - cbn in Hr. injection Hr as <-. cbn. auto.
  - destruct (init_vols_loop_step ti_random total_vol len c rest i next_p st launches
                Hs Hfit Hlen) as (st' & Hl & Hstep).
    rewrite Hstep in Hr.
    destruct (fits_step total_vol next_p c rest Hs Hfit) as (_ & _ & Hstop & Hfit').
    destruct (IH (i + 1)%Z (range_stop total_vol next_p c rest) st' _ r
                 ltac:(lia) Hfit' ltac:(cbn [length] in Hlen; lia) ltac:(lia) Hr)
      as (Im & Ix & Iu).
    rewrite Im, Ix, Iu.
    pose proof (init_cube_vol_slot ti_random _ _ _ _ _ _ _ _ _ st st' p Hl) as Hslot.
    rewrite (wrap_i32_slot next_p), (wrap_i32_slot (range_stop total_vol next_p c rest))
      in Hslot by lia.
    rewrite covers_outside in Hslot by lia.
    destruct Hslot as (Hu & Hx & _ & _ & _ & _ & Hm & _). auto.
Qed.

Lemma init_vols_loop_fidelity (total_vol : float64) (len : Z) (cubes : list CubeVolume) :
  forall (i next_p : Z) (st : Sim) (launches : list (Z * Z)) (r : InitResult),
  (0 <= next_p)%Z -> fits total_vol next_p cubes = true ->
  (i + Z.of_nat (length cubes) = len)%Z ->
  init_vols_loop ti_random total_vol len (map Cube cubes) i next_p st launches = Some r ->
  forall (k : nat) (c : CubeVolume) (a b p : Z),
  nth_error cubes k = Some c ->
  nth_error (allocation total_vol next_p cubes) k = Some (a, b) ->
  (a <= p < b)%Z ->
  seeded_from ti_random c (ir_state r) p.
Proof.
  induction cubes as [|c0 rest IH];
    intros i next_p st launches r Hs Hfit Hlen Hr k c a b p Hk Hab Hp.
  - destruct k; discriminate.
  - destruct (init_vols_loop_step ti_random total_vol len c0 rest i next_p st launches
                Hs Hfit Hlen) as (st' & Hl & Hstep).
    rewrite Hstep in Hr.
    destruct (fits_step total_vol next_p c0 rest Hs Hfit) as (_ & _ & Hstop & Hfit').
    rewrite allocation_step in Hab.
    assert (Hlen' : (i + 1 + Z.of_nat (length rest) = len)%Z).
    { cbn [length] in Hlen. lia. }
    destruct k as [|k].
    + cbn [nth_error] in Hk, Hab. injection Hk as <-. injection Hab as <- <-.
      destruct (init_cube_vol_seeded_from next_p (range_stop total_vol next_p c0 rest)
                  c0 st st' p Hl) as (_ & Hseed).
      { rewrite (wrap_i32_slot next_p),
          (wrap_i32_slot (range_stop total_vol next_p c0 rest)) by lia. exact Hp. }
      destruct (init_vols_loop_below total_vol len rest p (i + 1)%Z
                  (range_stop total_vol next_p c0 rest) st' _ r
                  ltac:(lia) Hfit' Hlen' (proj2 Hp) Hr) as (Fm & Fx & Fu).
      unfold seeded_from in *. rewrite Fm, Fx, Fu. exact Hseed.
    + cbn [nth_error] in Hk, Hab.
      assert (H0 : (0 <= range_stop total_vol next_p c0 rest)%Z) by lia.
      apply (IH _ _ _ _ r H0 Hfit' Hlen' Hr k c a b p Hk Hab Hp).
Qed.

(** X15. After [init_vols] has run on cuboids whose budget suffices, every
    slot of the range of the [k]-th launch holds a particle of the [k]-th
    cuboid: it has that cuboid's material (as an [i32]), the position
    drawn in that cuboid, and it is in use. *)
Theorem init_vols_material_fidelity (cubes : list CubeVolume) (st : Sim)
    (r : InitResult) (k : nat) (c : CubeVolume) (a b p : Z) :
  fits (total_volume cubes) 0 cubes = true ->
  init_vols ti_random (map Cube cubes) st = Some r ->
  nth_error cubes k = Some c ->
  nth_error (ir_launches r) k = Some (a, b) ->
  (a <= p < b)%Z ->
  seeded_from ti_random c (ir_state r) p.
Proof.
  intros Hfit Hr Hk Hab Hp.
  unfold init_vols in Hr. rewrite sum_volumes_cubes, length_map in Hr.
  fold (total_volume cubes) in Hr.
  destruct (init_vols_loop_cubes ti_random (total_volume cubes)
              (Z.of_nat (length cubes)) cubes 0 0 (set_all_unused st) []
              (Z.le_refl 0) Hfit eq_refl) as (r' & Hr' & _ & Hl).
  rewrite Hr in Hr'. injection Hr' as <-. cbn [app] in Hl. rewrite Hl in Hab.
  exact (init_vols_loop_fidelity (total_volume cubes) _ cubes 0 0 (set_all_unused st) [] r
           (Z.le_refl 0) Hfit eq_refl Hr k c a b p Hk Hab Hp).
Qed.

End InitMore.

Lemma init_vols_birth_state_witness :
  in_particles 5 = true /\
  match init_vols draw_half [Cube dam; ball] dam_break with
  | Some r => newborn (ir_state r) 5
  | None => False
  end.
Proof.
  split; [reflexivity|].
  destruct (init_vols draw_half [Cube dam; ball] dam_break) as [r|] eqn:Hr.
  - exact (init_vols_birth_state draw_half [Cube dam; ball] dam_break r 5 Hr eq_refl).
  - apply (f_equal (fun o => match o with Some _ => true | None => false end)) in Hr.
    vm_compute in Hr. discriminate Hr.
Defined.


Lemma init_vols_material_fidelity_witness :
  fits (total_volume water_snow_jelly) 0 water_snow_jelly = true /\
  match init_vols draw_half (map Cube water_snow_jelly) parked with
  | Some r =>
      nth_error (ir_launches r) 1 = Some (174762, 349524)%Z /\
      materials (ir_state r) 200000 = wrap_i32 SNOW
  | None => False
  end.
Proof.
  assert (Hfit : fits (total_volume water_snow_jelly) 0 water_snow_jelly = true).
  { vm_compute. reflexivity. }
  split; [exact Hfit|].
  destruct (init_vols draw_half (map Cube water_snow_jelly) parked) as [r|] eqn:Hr.
  - assert (Hab : nth_error (ir_launches r) 1 = Some (174762, 349524)%Z).
    { apply (f_equal (fun o => match o with
                               | Some r => nth_error (ir_launches r) 1
                               | None => None
                               end)) in Hr.
      vm_compute in Hr. symmetry. exact Hr. }
    split; [exact Hab|].
    apply (init_vols_material_fidelity draw_half water_snow_jelly parked r 1
             (mkCubeVolume (mkVec 0.35 0.35 0.35) (mkVec 0.25 0.25 0.25) SNOW)
             174762 349524 200000 Hfit Hr).
    + reflexivity.
    + exact Hab.
    + lia.
  - apply (f_equal (fun o => match o with Some _ => true | None => false end)) in Hr.
    vm_compute in Hr. discriminate Hr.
Defined.
(** ** From initialization to the first substep *)





Section InitThenP2G.

Variable ti_exp : Q -> Q.
Variable ti_svd : Mat -> Mat * Mat * Mat.
Variable ti_random : Z -> nat -> Q.



End InitThenP2G.


(** The budget condition of X16 does not follow from the extents: the
    volume of a cuboid of the safe region with extents [1e-200] underflows
    to zero in binary64, so that line 194 computes [0 / 0] and [int]
    raises [ValueError] before any launch. *)
Lemma underflow_raises :
  safe_cube speck /\
  volume speck = f64_zero /\
  match init_vols draw_half [Cube speck] parked with
  | Some r => ir_error r = Some ValueError /\ ir_launches r = []
  | None => False
  end.
Proof.
  split.
  { split; [repeat split|]; repeat split; vm_compute; (reflexivity || discriminate). }
  split; vm_compute; [reflexivity | split; reflexivity].
Qed.

(** ** A whole substep on a single particle *)

Section LoneParticle.

Variable ti_exp : Q -> Q.
Variable ti_svd : Mat -> Mat * Mat * Mat.

(** With one particle in use the P2G kernel is the iteration of that
    particle. *)
Lemma p2g_fold_alone (l : list Z) (st : Sim) (p0 : Z) :
  NoDup l -> (forall q, q <> p0 -> is_used st q = 0%Z) ->
  fold_left (p2g_particle ti_exp ti_svd) l st =
  if existsb (Z.eqb p0) l then p2g_particle ti_exp ti_svd st p0 else st.
Proof.
  revert st. induction l as [|q l IH]; intros st Hnd Hun; cbn [fold_left existsb].
  - reflexivity.
  - inversion Hnd as [|? ? Hnotin Hnd']; subst.
    destruct (Z.eqb_spec p0 q) as [<- | Hne]; cbn [orb].
    + assert (Hex : existsb (Z.eqb p0) l = false).
      { destruct (existsb (Z.eqb p0) l) eqn:Hex; [|reflexivity].
        apply existsb_exists in Hex. destruct Hex as (r & Hr & Heq).
        apply Z.eqb_eq in Heq. subst r. contradiction. }
      rewrite IH; [now rewrite Hex | exact Hnd' |].
      destruct (p2g_particle_frame ti_exp ti_svd st p0) as (_ & _ & _ & _ & Hu & _).
      cbn zeta in Hu. intros r Hr. rewrite Hu. now apply Hun.
    + rewrite (p2g_particle_not_used ti_exp ti_svd st q) by (apply Hun; congruence).
      now apply IH.
Qed.

Lemma offset_of_inj (a b : nat * nat * nat) : offset_of a = offset_of b -> a = b.
Proof.
  destruct a as [[i j] k], b as [[i' j'] k']. cbn. intros [= Hi Hj Hk].
  apply Nat2Z.inj in Hi, Hj, Hk. congruence.
Qed.

Lemma node_eqb_offsets (base : IVec) (a b : nat * nat * nat) :
  ivec_eqb (iadd base (offset_of a)) (iadd base (offset_of b)) = true -> a = b.
Proof.
  intro H. apply ivec_eqb_eq in H. apply offset_of_inj.
  destruct base, (offset_of a) as [a0 a1 a2], (offset_of b) as [b0 b1 b2].
  cbn in H. injection H as H0 H1 H2. f_equal; lia.
Qed.

(** The node of the offset [ijk0] after the neighbourhood loop: untouched
    when the loop does not visit that offset, and one addition otherwise. *)
Lemma p2g_scatter_fold_other (fx : Vec) (base : IVec) (w : list Vec) (v_p : Vec)
    (affine : Mat) (ijk0 : nat * nat * nat) (l : list (nat * nat * nat)) (st : Sim) :
  ~ In ijk0 l ->
  let st' := fold_left (p2g_scatter fx base w v_p affine) l st in
  grid_m st' (iadd base (offset_of ijk0)) = grid_m st (iadd base (offset_of ijk0)) /\
  grid_v st' (iadd base (offset_of ijk0)) = grid_v st (iadd base (offset_of ijk0)).
Proof.
  revert st. induction l as [|ijk l IH]; intros st Hnotin; cbn [fold_left].
  - split; reflexivity.
  - specialize (IH (p2g_scatter fx base w v_p affine st ijk)
                   (fun H => Hnotin (or_intror H))).
    cbn zeta in IH. destruct IH as [Hm Hv]. rewrite Hm, Hv.
    cbn. unfold gupd.
    destruct (ivec_eqb (iadd base (offset_of ijk0)) (iadd base (offset_of ijk))) eqn:He.
    + apply node_eqb_offsets in He. exfalso. apply Hnotin. left. congruence.
    + split; reflexivity.
Qed.

Lemma p2g_scatter_fold_at (fx : Vec) (base : IVec) (w : list Vec) (v_p : Vec)
    (affine : Mat) (ijk0 : nat * nat * nat) (l : list (nat * nat * nat)) (st : Sim) :
  NoDup l -> In ijk0 l ->
  let st' := fold_left (p2g_scatter fx base w v_p affine) l st in
  grid_m st' (iadd base (offset_of ijk0)) =
    grid_m st (iadd base (offset_of ijk0)) + node_weight w ijk0 * p_mass /\
  grid_v st' (iadd base (offset_of ijk0)) =
    vadd (grid_v st (iadd base (offset_of ijk0)))
         (scattered_momentum fx w v_p affine ijk0).
Proof.
  revert st. induction l as [|ijk l IH]; intros st Hnd Hin; [contradiction|].
  inversion Hnd as [|? ? Hnotin Hnd']; subst. cbn [fold_left].
  destruct Hin as [-> | Hin].
  - destruct (p2g_scatter_fold_other fx base w v_p affine ijk0 l
                (p2g_scatter fx base w v_p affine st ijk0) Hnotin) as [Hm Hv].
    cbn zeta in Hm, Hv. cbn zeta. rewrite Hm, Hv.
    cbn. unfold gupd. rewrite (proj2 (ivec_eqb_eq _ _) eq_refl).
    split; reflexivity.
  - destruct (IH (p2g_scatter fx base w v_p affine st ijk) Hnd' Hin) as [Hm Hv].
    cbn zeta in Hm, Hv. cbn zeta. rewrite Hm, Hv.
    cbn. unfold gupd.
    destruct (ivec_eqb (iadd base (offset_of ijk0)) (iadd base (offset_of ijk))) eqn:He.
    + apply node_eqb_offsets in He. subst ijk. contradiction.
    + split; reflexivity.
Qed.

Lemma ndrange3_NoDup : NoDup ndrange3.
Proof.
  unfold ndrange3. cbn.
  repeat (constructor; [cbn; intuition discriminate|]). constructor.
Qed.


(** The momentum step on a node outside the boundary bands. *)
Lemma grid_node_interior (gravity : Q) (I : IVec) (m : Q) (mom : Vec) :
  interior I = true -> 0 < m ->
  veq (grid_node gravity I m mom) (vadd (vscale (1 / m) mom) (gravity_kick gravity)).
Proof.
  intros Hint Hm. unfold grid_node. apply Qltb_true in Hm. rewrite Hm.
  unfold interior in Hint.
  repeat (apply andb_true_iff in Hint; destruct Hint as [Hint ?]).
  repeat match goal with
  | H : (_ <=? _)%Z = true |- _ => apply Z.leb_le in H
  end.
  destruct I as [i j k]. cbn [inth i0 i1 i2] in *.
  replace (i <? bound)%Z with false by (symmetry; apply Z.ltb_ge; lia).
  replace (j <? bound)%Z with false by (symmetry; apply Z.ltb_ge; lia).
  replace (k <? bound)%Z with false by (symmetry; apply Z.ltb_ge; lia).
  replace (i >? n_grid - bound)%Z with false
    by (symmetry; rewrite Z.gtb_ltb; apply Z.ltb_ge; lia).
  replace (j >? n_grid - bound)%Z with false
    by (symmetry; rewrite Z.gtb_ltb; apply Z.ltb_ge; lia).
  replace (k >? n_grid - bound)%Z with false
    by (symmetry; rewrite Z.gtb_ltb; apply Z.ltb_ge; lia).
  cbn [andb]. destruct mom as [a b c].
  unfold veq, vadd, vscale, vmap2, vmap, vset, vnth, gravity_kick. cbn [v0 v1 v2].
  repeat split; ring.
Qed.

(** The velocity of a node that received [w * p_mass] of mass and
    [w * U] of momentum, weighted by [w]: the node is skipped when [w] is
    zero, and its weight is zero too. *)
Lemma weighted_node_velocity (gravity : Q) (I : IVec) (w : Q) (U : Vec) (d : nat) :
  interior I = true -> 0 <= w ->
  w * vnth (grid_node gravity I (0 + w * p_mass) (vadd (mkVec 0 0 0) (vscale w U))) d ==
  w * (vnth U d / p_mass + vnth (gravity_kick gravity) d).
Proof.
  intros Hint Hw. pose proof p_mass_pos as Hpm.
  assert (Hpm0 : ~ p_mass == 0).
  { intro H0. rewrite H0 in Hpm. now apply Qlt_irrefl in Hpm. }
  destruct (Qlt_le_dec 0 w) as [Hpos | Hle].
  - assert (Hm : 0 < 0 + w * p_mass).
    { rewrite Qplus_0_l. now apply Qmult_lt_0_compat. }
    assert (Hw0 : ~ w == 0).
    { intro H0. rewrite H0 in Hpos. now apply Qlt_irrefl in Hpos. }
    destruct (grid_node_interior gravity I _ (vadd (mkVec 0 0 0) (vscale w U)) Hint Hm)
      as (G0 & G1 & G2).
    destruct U as [a b c].
    destruct (grid_node gravity I (0 + w * p_mass)
                (vadd (mkVec 0 0 0) (vscale w (mkVec a b c)))) as [n0 n1 n2].
    unfold vadd, vscale, vmap2, vmap, gravity_kick in *. cbn [v0 v1 v2] in *.
    destruct (axis_cases d) as [-> | [-> | [n ->]]]; cbn [vnth v0 v1 v2];
      [rewrite G0 | rewrite G1 | rewrite G2]; field; auto.
  - assert (Hw0 : w == 0) by lra.
    rewrite grid_node_skip.
    + destruct U as [a b c].
      unfold vadd, vscale, vmap2, vmap, gravity_kick. cbn [v0 v1 v2].
      destruct (axis_cases d) as [-> | [-> | [n ->]]]; cbn [vnth v0 v1 v2];
        rewrite Hw0; field; auto.
    + rewrite Hw0. apply Qle_not_lt. rewrite Qplus_0_l, Qmult_0_l. apply Qle_refl.
Qed.

(** What a water particle at rest density ([Jp = 1]) sends to a node, per
    unit of mass: its velocity and the affine velocity [C @ dpos]. *)
Lemma water_momentum_per_mass (C_p F_p : Mat) (Jp_p : Q) (v_p dpos : Vec) (d : nat) :
  Jp_p == 1 ->
  vnth (vadd (vscale p_mass v_p)
             (mvec (c_affine (p2g_constitutive ti_exp ti_svd WATER C_p F_p Jp_p)) dpos)) d
  / p_mass
  == vnth v_p d + vnth (mvec C_p dpos) d.
Proof.
  intro HJ. rewrite p2g_constitutive_water. cbn [c_affine].
  pose proof p_mass_pos as Hpm.
  assert (Hpm0 : ~ p_mass == 0).
  { intro H0. rewrite H0 in Hpm. now apply Qlt_irrefl in Hpm. }
  assert (Hs : - dt * 4 * E * p_vol * (Jp_p - 1) * inv_dx * inv_dx == 0).
  { rewrite HJ. ring. }
  revert Hs. generalize (- dt * 4 * E * p_vol * (Jp_p - 1) * inv_dx * inv_dx).
  intros s Hs.
  destruct C_p as [[c00 c01 c02] [c10 c11 c12] [c20 c21 c22]].
  destruct v_p as [a b c], dpos as [p q r].
  unfold madd, mmuls, mscale, mmap2, midentity, mvec, vdot, vadd, vscale.
  unfold vmap2, vmap. cbn [v0 v1 v2 r0 r1 r2].
  destruct (axis_cases d) as [-> | [-> | [n ->]]]; cbn [vnth v0 v1 v2];
    rewrite Hs; field; auto.
Qed.

Lemma node_weight_g2p (fx : Vec) (ijk : nat * nat * nat) :
  node_weight (g2p_weights fx) ijk == node_weight (p2g_weights fx) ijk.
Proof.
  destruct fx as [a b c]. destruct ijk as [[i j] k]. unfold node_weight.
  assert (Hw : forall n d, wnth (g2p_weights (mkVec a b c)) n d
                           == wnth (p2g_weights (mkVec a b c)) n d).
  { intros n d.
    destruct n as [|[|[|n]]]; try destruct n;
      destruct (axis_cases d) as [-> | [-> | [m ->]]]; cbn -[Qpower]; ring. }
  now rewrite !Hw.
Qed.


(** The gather of the velocities [v + C @ dpos + kick]: the weights sum to
    1, have first moment [fx] and second moment 1/4. *)
Lemma lone_gather_v (fx v_p kick : Vec) (C_p : Mat) (d : nat) :
  sumQ (map (fun ijk => node_weight (p2g_weights fx) ijk *
                        (vnth v_p d + vnth (mvec C_p (p2g_dpos fx ijk)) d + vnth kick d))
            ndrange3)
  == vnth v_p d + vnth kick d.
Proof.
  generalize dx (eq_refl dx). intros h _.
  destruct fx as [a b c], v_p as [p q r], kick as [k0 k1 k2].
  destruct C_p as [[c00 c01 c02] [c10 c11 c12] [c20 c21 c22]].
  destruct (axis_cases d) as [-> | [-> | [n ->]]];
    cbn -[Qpower dx];
    unfold p2g_dpos, mvec, vdot, vmap, vsub, vmap2, vcast_float, cast_float;
    cbn [v0 v1 v2 r0 r1 r2 i0 i1 i2 inject_Z offset_of Z.of_nat];
    ring.
Qed.

Lemma lone_gather_C (fx v_p kick : Vec) (C_p : Mat) (a c : nat) :
  sumQ (map (fun ijk =>
               4 * inv_dx *
               (node_weight (p2g_weights fx) ijk *
                (vnth v_p a + vnth (mvec C_p (p2g_dpos fx ijk)) a + vnth kick a)) *
               vnth (vsub (vcast_float (offset_of ijk)) fx) c)
            ndrange3)
  == inv_dx * dx * mget C_p a c.
Proof.
  destruct fx as [f0 f1 f2], v_p as [p q r], kick as [k0 k1 k2].
  destruct C_p as [[c00 c01 c02] [c10 c11 c12] [c20 c21 c22]].
  destruct (axis_cases a) as [-> | [-> | [n ->]]];
    destruct (axis_cases c) as [-> | [-> | [m ->]]];
    cbn -[Qpower dx inv_dx];
    unfold p2g_dpos, mvec, vdot, vmap, vsub, vmap2, vcast_float, cast_float;
    cbn [v0 v1 v2 r0 r1 r2 i0 i1 i2 inject_Z offset_of Z.of_nat];
    ring.
Qed.


(** One axis of a position three and a half cells from the faces. *)
Lemma inner_axis_base (t : Q) :
  dx * 3.5 <= t -> t < 1 - dx * 3.5 ->
  0.5 <= t * inv_dx /\ (bound <= cast_int (t * inv_dx - 0.5) <= n_grid - bound - 2)%Z.
Proof.
  intros Hlo Hhi. rewrite dx_value in Hlo, Hhi.
  assert (Ht : 0.5 <= t * inv_dx) by (rewrite inv_dx_value; lra).
  split; [exact Ht|].
  destruct (interp_axis t Ht) as [Hc _]. rewrite Hc.
  split.
  - change bound with (Qfloor 3). apply Qfloor_resp_le. rewrite inv_dx_value. lra.
  - assert (Hlt : (Qfloor (t * inv_dx - 0.5) < n_grid - bound - 1)%Z).
    { rewrite Zlt_Qlt. eapply Qle_lt_trans; [apply Qfloor_le|].
      rewrite inv_dx_value. change (inject_Z (n_grid - bound - 1)) with 124. lra. }
    lia.
Qed.

Lemma inner_position_nodes (x_p : Vec) (ijk : nat * nat * nat) :
  inside inner_lo inner_hi x_p -> In ijk ndrange3 ->
  half_cell_in x_p /\
  in_grid (iadd (interp_base x_p) (offset_of ijk)) = true /\
  interior (iadd (interp_base x_p) (offset_of ijk)) = true.
Proof.
  intros ((A0 & B0) & (A1 & B1) & (A2 & B2)) Hin. destruct x_p as [a b c].
  cbn [inner_lo inner_hi v0 v1 v2] in *.
  destruct (inner_axis_base a A0 B0) as [Ha Hba].
  destruct (inner_axis_base b A1 B1) as [Hb Hbb].
  destruct (inner_axis_base c A2 B2) as [Hc Hbc].
  split; [repeat split; assumption|].
  assert (Hijk : exists i j k, ijk = (i, j, k) /\ (i <= 2)%nat /\ (j <= 2)%nat /\ (k <= 2)%nat).
  { cbn in Hin.
    repeat (destruct Hin as [<- | Hin];
            [do 3 eexists; split; [reflexivity | lia]|]).
    contradiction. }
  destruct Hijk as (i & j & k & -> & Hi & Hj & Hk).
  unfold in_grid, interior, iadd, offset_of, interp_base, vcast_int, vmap.
  cbn [i0 i1 i2 v0 v1 v2].
  unfold bound, n_grid, quality in *.
  split; repeat (apply andb_true_iff; split);
    try apply Z.leb_le; try apply Z.ltb_lt; lia.
Qed.

Lemma inv_dx_dx : inv_dx * dx == 1.
Proof. reflexivity. Qed.

Lemma p2g_particle_used (st : Sim) (p : Z) :
  is_used st p <> 0%Z ->
  p2g_particle ti_exp ti_svd st p =
  fold_left
    (p2g_scatter (interp_fx (x st p) (interp_base (x st p))) (interp_base (x st p))
       (p2g_weights (interp_fx (x st p) (interp_base (x st p)))) (v st p)
       (c_affine (p2g_constitutive ti_exp ti_svd (materials st p) (C st p) (F st p)
                    (Jp st p))))
    ndrange3
    (set_Jp (set_F st (upd (F st) p
               (c_F (p2g_constitutive ti_exp ti_svd (materials st p) (C st p) (F st p)
                       (Jp st p)))))
            (upd (Jp st) p
               (c_Jp (p2g_constitutive ti_exp ti_svd (materials st p) (C st p) (F st p)
                        (Jp st p))))).
Proof.
  intro Hu. unfold p2g_particle.
  destruct (Z.eqb_spec (is_used st p) 0) as [|_]; [contradiction | reflexivity].
Qed.

(** The grid after zero-out and P2G of a lone water particle, then the
    momentum step, at the node of the offset [ijk], weighted by the weight
    of that node. *)
Lemma lone_node_velocity (gravity : Q) (st : Sim) (p0 : Z) (ijk : nat * nat * nat) (d : nat) :
  alone st p0 -> materials st p0 = WATER -> Jp st p0 == 1 ->
  inside inner_lo inner_hi (x st p0) -> In ijk ndrange3 ->
  let fx := interp_fx (x st p0) (interp_base (x st p0)) in
  let st3 := substep_grid gravity (substep_p2g ti_exp ti_svd (substep_zero_out st)) in
  node_weight (p2g_weights fx) ijk *
    vnth (grid_v st3 (iadd (interp_base (x st p0)) (offset_of ijk))) d
  == node_weight (p2g_weights fx) ijk *
     (vnth (v st p0) d + vnth (mvec (C st p0) (p2g_dpos fx ijk)) d
      + vnth (gravity_kick gravity) d).
Proof.
  intros (Hp0 & Hu & Hothers) Hw HJ Hin Hijk fx st3.
  destruct (inner_position_nodes (x st p0) ijk Hin Hijk) as (Hhalf & Hgrid & Hint).
  assert (Hst2 : substep_p2g ti_exp ti_svd (substep_zero_out st)
                 = p2g_particle ti_exp ti_svd (substep_zero_out st) p0).
  { unfold substep_p2g.
    rewrite (p2g_fold_alone (zrange n_particles) (substep_zero_out st) p0
               (zrange_NoDup n_particles) Hothers).
    rewrite zrange_existsb. unfold in_particles in Hp0. now rewrite Hp0. }
  subst st3. rewrite Hst2.
  rewrite (grid_v_substep_grid _ _ _ Hgrid).
  rewrite p2g_particle_used by exact Hu.
  match goal with
  | |- context [fold_left (p2g_scatter ?fx' ?b ?w ?vp ?a) ndrange3 ?s] =>
      destruct (p2g_scatter_fold_at fx' b w vp a ijk ndrange3 s ndrange3_NoDup Hijk)
        as [Hm Hv]
  end.
  cbn zeta in Hm, Hv.
  change (x (substep_zero_out st)) with (x st) in *.
  change (v (substep_zero_out st) p0) with (v st p0) in *.
  change (materials (substep_zero_out st) p0) with (materials st p0) in *.
  change (C (substep_zero_out st) p0) with (C st p0) in *.
  change (F (substep_zero_out st) p0) with (F st p0) in *.
  change (Jp (substep_zero_out st) p0) with (Jp st p0) in *.
  fold fx in Hm, Hv |- *.
  rewrite Hm, Hv.
  assert (Hzm : grid_m (set_Jp (set_F (substep_zero_out st)
                 (upd (F (substep_zero_out st)) p0
                    (c_F (p2g_constitutive ti_exp ti_svd (materials st p0) (C st p0)
                            (F st p0) (Jp st p0)))))
                 (upd (Jp (substep_zero_out st)) p0
                    (c_Jp (p2g_constitutive ti_exp ti_svd (materials st p0) (C st p0)
                             (F st p0) (Jp st p0)))))
               (iadd (interp_base (x st p0)) (offset_of ijk)) = 0).
  { cbn -[in_grid]. now rewrite Hgrid. }
  assert (Hzv : grid_v (set_Jp (set_F (substep_zero_out st)
                 (upd (F (substep_zero_out st)) p0
                    (c_F (p2g_constitutive ti_exp ti_svd (materials st p0) (C st p0)
                            (F st p0) (Jp st p0)))))
                 (upd (Jp (substep_zero_out st)) p0
                    (c_Jp (p2g_constitutive ti_exp ti_svd (materials st p0) (C st p0)
                             (F st p0) (Jp st p0)))))
               (iadd (interp_base (x st p0)) (offset_of ijk)) = mkVec 0 0 0).
  { cbn -[in_grid]. now rewrite Hgrid. }
  rewrite Hzm, Hzv. unfold scattered_momentum.
  rewrite weighted_node_velocity.
  - rewrite Hw. fold (p2g_dpos fx ijk).
    rewrite (water_momentum_per_mass _ _ _ _ _ _ HJ). reflexivity.
  - exact Hint.
  - apply node_weight_nonneg. exact Hhalf.
Qed.


(** The particle fields of a water particle before G2P. *)
Lemma water_before_g2p (gravity : Q) (st : Sim) (p0 : Z) :
  materials st p0 = WATER ->
  let st3 := substep_grid gravity (substep_p2g ti_exp ti_svd (substep_zero_out st)) in
  x st3 p0 = x st p0 /\ is_used st3 p0 = is_used st p0 /\
  Jp st3 p0 = Jp st p0 /\ F st3 p0 = F st p0.
Proof.
  intros Hw.
  destruct (substep_p2g_at ti_exp ti_svd (substep_zero_out st) p0)
    as (_ & Hus & _ & Hx & _ & HF & HJ).
  cbn zeta in Hus, Hx, HF, HJ.
  revert Hus Hx HF HJ.
  generalize (substep_p2g ti_exp ti_svd (substep_zero_out st)).
  destruct (substep_zero_out_fields st) as (Zx & _ & ZC & ZF & ZJ & Zu & Zm).
  rewrite Zx, ZC, ZF, ZJ, Zu, Zm, Hw, p2g_constitutive_water. cbn [c_F c_Jp].
  intros s2 Hus Hx HF HJ. cbn zeta.
  destruct (substep_grid_fields gravity s2) as (Gx & _ & _ & GF & GJ & Gu & _).
  rewrite Gx, GF, GJ, Gu, Hx, Hus, HF, HJ.
  destruct (in_particles p0 && negb (is_used st p0 =? 0)%Z); repeat split.
Qed.

(** X17. A lone water particle at rest density falls freely and keeps its
    affine velocity field.  When it is the only particle in use, has
    [Jp = 1] and lies three and a half cells or more from every face, one
    whole substep adds [dt * gravity] to its second velocity component and
    nothing else, returns its matrix [C] unchanged, moves it by [dt] times
    the new velocity, multiplies [Jp] by [1 + dt * trace C] and leaves [F]
    as it was. *)
Theorem lone_water_particle (gravity : Q) (st : Sim) (p0 : Z) :
  alone st p0 -> materials st p0 = WATER -> Jp st p0 == 1 ->
  inside inner_lo inner_hi (x st p0) ->
  let st' := substep ti_exp ti_svd gravity st in
  veq (v st' p0) (vadd (v st p0) (gravity_kick gravity)) /\
  meq (C st' p0) (C st p0) /\
  veq (x st' p0) (vadd (x st p0) (vscale dt (vadd (v st p0) (gravity_kick gravity)))) /\
  Jp st' p0 == Jp st p0 * (1 + dt * trace (C st p0)) /\
  F st' p0 = F st p0.
Proof.
  intros Halone Hw HJ Hin st'. subst st'. unfold substep.
  destruct (water_before_g2p gravity st p0 Hw) as (Hx3 & Hu3 & HJ3 & HF3).
  assert (Hnode : forall ijk d, In ijk ndrange3 ->
            node_weight (p2g_weights (interp_fx (x st p0) (interp_base (x st p0)))) ijk *
              vnth (grid_v (substep_grid gravity
                              (substep_p2g ti_exp ti_svd (substep_zero_out st)))
                      (iadd (interp_base (x st p0)) (offset_of ijk))) d
            == node_weight (p2g_weights (interp_fx (x st p0) (interp_base (x st p0)))) ijk *
               (vnth (v st p0) d
                + vnth (mvec (C st p0)
                          (p2g_dpos (interp_fx (x st p0) (interp_base (x st p0))) ijk)) d
                + vnth (gravity_kick gravity) d)).
  { intros ijk d Hijk.
    exact (lone_node_velocity gravity st p0 ijk d Halone Hw HJ Hin Hijk). }
  destruct Halone as (Hp0 & Hu & _).
  cbn zeta in Hx3, Hu3, HJ3, HF3.
  revert Hx3 Hu3 HJ3 HF3 Hnode.
  generalize (substep_grid gravity (substep_p2g ti_exp ti_svd (substep_zero_out st))).
  intros s3 Hx3 Hu3 HJ3 HF3 Hnode.
  assert (Hact : in_particles p0 && negb (is_used s3 p0 =? 0)%Z = true).
  { rewrite Hp0, Hu3. destruct (Z.eqb_spec (is_used st p0) 0); [contradiction | reflexivity]. }
  assert (Hfields :
    v (substep_g2p s3) p0 = fst (g2p_new (grid_v s3) (x s3 p0)) /\
    C (substep_g2p s3) p0 = snd (g2p_new (grid_v s3) (x s3 p0)) /\
    x (substep_g2p s3) p0
      = vadd (x s3 p0) (vscale dt (fst (g2p_new (grid_v s3) (x s3 p0)))) /\
    Jp (substep_g2p s3) p0
      = Jp s3 p0 * (1 + dt * trace (snd (g2p_new (grid_v s3) (x s3 p0)))) /\
    F (substep_g2p s3) p0 = F s3 p0).
  { cbn -[g2p_new in_particles]. rewrite Hact. repeat split. }
  destruct Hfields as (-> & -> & -> & -> & ->).
  rewrite Hx3, HJ3, HF3. unfold g2p_new.
  set (fx := interp_fx (x st p0) (interp_base (x st p0))) in *.
  set (base := interp_base (x st p0)) in *.
  assert (Hv : forall d,
            vnth (fst (fold_left (g2p_gather (grid_v s3) fx base (g2p_weights fx))
                         ndrange3 (vzero, mzero))) d
            == vnth (v st p0) d + vnth (gravity_kick gravity) d).
  { intro d. rewrite g2p_gather_fold_v.
    rewrite <- (lone_gather_v fx (v st p0) (gravity_kick gravity) (C st p0) d).
    assert (Hz : vnth (fst (vzero, mzero)) d == 0).
    { destruct d as [|[|d]]; reflexivity. }
    rewrite Hz, Qplus_0_l. apply sumQ_ext. intros ijk Hijk.
    rewrite node_weight_g2p. now apply Hnode. }
  assert (HC : forall a c,
            mget (snd (fold_left (g2p_gather (grid_v s3) fx base (g2p_weights fx))
                         ndrange3 (vzero, mzero))) a c
            == mget (C st p0) a c).
  { intros a c. rewrite g2p_gather_fold_C.
    assert (Hone : mget (C st p0) a c == inv_dx * dx * mget (C st p0) a c).
    { rewrite inv_dx_dx. ring. }
    rewrite Hone.
    rewrite <- (lone_gather_C fx (v st p0) (gravity_kick gravity) (C st p0) a c).
    assert (Hz : mget (snd (vzero, mzero)) a c == 0).
    { destruct a as [|[|a]]; destruct c as [|[|c]]; reflexivity. }
    rewrite Hz, Qplus_0_l. apply sumQ_ext. intros ijk Hijk.
    rewrite node_weight_g2p.
    rewrite <- (Hnode ijk a Hijk). ring. }
  destruct (fold_left (g2p_gather (grid_v s3) fx base (g2p_weights fx)) ndrange3
              (vzero, mzero)) as [nv nC].
  cbn [fst snd] in *.
  assert (Hveq : veq nv (vadd (v st p0) (gravity_kick gravity))).
  { pose proof (Hv 0%nat) as H0. pose proof (Hv 1%nat) as H1. pose proof (Hv 2%nat) as H2.
    rewrite <- vnth_vadd in H0, H1, H2.
    destruct nv, (vadd (v st p0) (gravity_kick gravity)). repeat split; assumption. }
  split; [exact Hveq|]. split.
  { destruct nC as [[c00 c01 c02] [c10 c11 c12] [c20 c21 c22]].
    destruct (C st p0) as [[e00 e01 e02] [e10 e11 e12] [e20 e21 e22]].
    repeat split;
      [ apply (HC 0%nat 0%nat) | apply (HC 0%nat 1%nat) | apply (HC 0%nat 2%nat)
      | apply (HC 1%nat 0%nat) | apply (HC 1%nat 1%nat) | apply (HC 1%nat 2%nat)
      | apply (HC 2%nat 0%nat) | apply (HC 2%nat 1%nat) | apply (HC 2%nat 2%nat) ]. }
  split.
  { destruct Hveq as (E0 & E1 & E2).
    destruct (x st p0) as [a b c], nv as [n0 n1 n2],
             (vadd (v st p0) (gravity_kick gravity)) as [u0 u1 u2].
    unfold veq, vadd, vscale, vmap2, vmap. cbn [v0 v1 v2] in *.
    rewrite E0, E1, E2. repeat split; reflexivity. }
  split; [|reflexivity].
  unfold trace. rewrite (HC 0%nat 0%nat), (HC 1%nat 1%nat), (HC 2%nat 2%nat).
  reflexivity.
Qed.

End LoneParticle.

Lemma lone_water_particle_witness :
  alone lone_drop 0 /\ materials lone_drop 0 = WATER /\ Jp lone_drop 0 == 1 /\
  inside inner_lo inner_hi (x lone_drop 0) /\
  veq (v (substep exp_at_zero svd_of_diagonal gravity lone_drop) 0)
      (vadd (v lone_drop 0) (gravity_kick gravity)).
Proof.
  assert (Ha : alone lone_drop 0).
  { split; [reflexivity|]. split; [discriminate|].
    intros q Hq. cbn. unfold upd. destruct (Z.eqb_spec q 0); [contradiction | reflexivity]. }
  assert (Hi : inside inner_lo inner_hi (x lone_drop 0)).
  { repeat split; (reflexivity || discriminate). }
  split; [exact Ha|]. split; [reflexivity|]. split; [reflexivity|]. split; [exact Hi|].
  exact (proj1 (lone_water_particle exp_at_zero svd_of_diagonal gravity lone_drop 0
                  Ha eq_refl (Qeq_refl 1) Hi)).
Defined.

(** ** Nodes without positive mass *)

(** The first [k] indices of a range, and the others. *)
Lemma zrange_split (k n : Z) :
  (0 <= k <= n)%Z ->
  exists rest, zrange n = zrange k ++ rest /\ forall q, In q rest -> (k <= q)%Z.
Proof.
  intro Hk. exists (map Z.of_nat (seq (Z.to_nat k) (Z.to_nat (n - k)))). split.
  - unfold zrange. rewrite <- map_app. f_equal.
    replace (Z.to_nat n) with (Z.to_nat k + Z.to_nat (n - k))%nat by lia.
    now rewrite seq_app.
  - intros q Hq. apply in_map_iff in Hq. destruct Hq as (j & <- & Hj).
    apply in_seq in Hj. lia.
Qed.

Section FewParticles.

Variable ti_exp : Q -> Q.
Variable ti_svd : Mat -> Mat * Mat * Mat.

Lemma p2g_fold_unused (l : list Z) (st : Sim) :
  (forall q, In q l -> is_used st q = 0%Z) ->
  fold_left (p2g_particle ti_exp ti_svd) l st = st.
Proof.
  induction l as [|q l IH]; intro Hun; cbn [fold_left]; [reflexivity|].
  rewrite (p2g_particle_not_used ti_exp ti_svd st q) by (apply Hun; now left).
  apply IH. intros r Hr. apply Hun. now right.
Qed.

(** When only slots below [k] are in use, the P2G kernel is the loop over
    those slots. *)
Lemma substep_p2g_prefix (k : Z) (st : Sim) :
  (0 <= k <= n_particles)%Z ->
  (forall q, (k <= q)%Z -> is_used st q = 0%Z) ->
  substep_p2g ti_exp ti_svd st = fold_left (p2g_particle ti_exp ti_svd) (zrange k) st.
Proof.
  intros Hk Hun. unfold substep_p2g.
  destruct (zrange_split k n_particles Hk) as (rest & -> & Hrest).
  rewrite fold_left_app. apply p2g_fold_unused.
  intros q Hq.
  destruct (p2g_fold_at ti_exp ti_svd (zrange k) st q (zrange_NoDup k))
    as (_ & Hu & _).
  cbn zeta in Hu. rewrite Hu. apply Hun. now apply Hrest.
Qed.

End FewParticles.

(** What P2G leaves on the node [(1, 64, 64)] for the three particles of
    [edge_trio]: no mass, and a momentum toward the lower face. *)
Lemma edge_trio_p2g :
  let st1 := substep_p2g exp_at_zero svd_of_diagonal (substep_zero_out edge_trio) in
  grid_m st1 edge_node == 0 /\
  vnth (grid_v st1 edge_node) 0 == - (9 # 33554432).
Proof.
  cbn zeta.
  rewrite (substep_p2g_prefix exp_at_zero svd_of_diagonal 3 (substep_zero_out edge_trio)).
  - vm_compute. split; reflexivity.
  - rewrite n_particles_value. lia.
  - intros q Hq. cbn. unfold upd.
    destruct (Z.eqb_spec q 2); [lia|]. destruct (Z.eqb_spec q 1); [lia|].
    destruct (Z.eqb_spec q 0); [lia|]. reflexivity.
Qed.

(** C1 as stated fails in two ways.  On the node plane [n_grid - bound]:
    the node [(125, 64, 64)] lies in [[n_grid - bound, n_grid)] on the
    first axis, has mass 1 and momentum [(1, 0, 0)], and after the
    momentum step its velocity along the first axis is still 1, toward the
    upper face.  On a node without positive mass: after zero-out and P2G
    on the three particles of [edge_trio], the node [(1, 64, 64)] of the
    lower band has mass 0 and a negative momentum along the first axis;
    the momentum step skips it, and its velocity component along that
    axis is negative, toward the lower face. *)
Lemma boundary_band_counterexample :
  (in_grid band_node = true /\
   (n_grid - bound <= inth band_node 0 < n_grid)%Z /\
   0 < grid_m band_sim band_node /\
   vnth (grid_v (substep_grid gravity band_sim) band_node) 0 == 1 /\
   ~ vnth (grid_v (substep_grid gravity band_sim) band_node) 0 <= 0) /\
  (let st1 := substep_p2g exp_at_zero svd_of_diagonal (substep_zero_out edge_trio) in
   in_grid edge_node = true /\
   (0 <= inth edge_node 0 < bound)%Z /\
   ~ 0 < grid_m st1 edge_node /\
   vnth (grid_v (substep_grid gravity st1) edge_node) 0 < 0).
Proof.
  split.
  - split; [reflexivity|]. split; [vm_compute; split; [discriminate | reflexivity]|].
    split; [reflexivity|]. split; [reflexivity|].
    intro H. vm_compute in H. now apply H.
  - pose proof edge_trio_p2g as H. cbn zeta in H |- *.
    revert H.
    generalize (substep_p2g exp_at_zero svd_of_diagonal (substep_zero_out edge_trio)).
    intros st1 [Hm Hv].
    assert (Hskip : ~ 0 < grid_m st1 edge_node).
    { rewrite Hm. apply Qlt_irrefl. }
    split; [reflexivity|]. split; [vm_compute; split; [discriminate | reflexivity]|].
    split; [exact Hskip|].
    rewrite (grid_v_substep_grid gravity st1 edge_node eq_refl).
    rewrite grid_node_skip by exact Hskip.
    rewrite Hv. reflexivity.
Qed.

(** C9 as stated fails on the same node: P2G leaves it with mass 0 and a
    momentum that is not zero, the momentum step skips it, and its
    velocity is not the zero vector of the zero-out stage. *)
Lemma massless_node_counterexample :
  let st1 := substep_p2g exp_at_zero svd_of_diagonal (substep_zero_out edge_trio) in
  in_grid edge_node = true /\
  grid_m st1 edge_node == 0 /\
  grid_v (substep_grid gravity st1) edge_node = grid_v st1 edge_node /\
  ~ veq (grid_v (substep_grid gravity st1) edge_node) vzero.
Proof.
  pose proof edge_trio_p2g as H. cbn zeta in H |- *.
  revert H.
  generalize (substep_p2g exp_at_zero svd_of_diagonal (substep_zero_out edge_trio)).
  intros st1 [Hm Hv].
  assert (Hskip : ~ 0 < grid_m st1 edge_node).
  { rewrite Hm. apply Qlt_irrefl. }
  assert (Heq : grid_v (substep_grid gravity st1) edge_node = grid_v st1 edge_node).
  { rewrite (grid_v_substep_grid gravity st1 edge_node eq_refl).
    now apply grid_node_skip. }
  split; [reflexivity|]. split; [exact Hm|]. split; [exact Heq|].
  rewrite Heq. intros (H0 & _).
  change (vnth (grid_v st1 edge_node) 0 == 0) in H0.
  rewrite Hv in H0. discriminate H0.
Qed.

Lemma zero_mass_node_skipped_witness :
  in_grid band_node = true /\
  (forall p, in_particles p = true -> is_used (one_particle JELLY) p <> 0%Z ->
             half_cell_in (x (one_particle JELLY) p)) /\
  ~ 0 < grid_m (substep_p2g exp_at_zero svd_of_diagonal
                  (substep_zero_out (one_particle JELLY))) band_node /\
  veq (grid_v (substep_grid gravity
                 (substep_p2g exp_at_zero svd_of_diagonal
                    (substep_zero_out (one_particle JELLY)))) band_node) vzero.
Proof.
  assert (Hm : ~ 0 < grid_m (substep_p2g exp_at_zero svd_of_diagonal
                               (substep_zero_out (one_particle JELLY))) band_node).
  { rewrite (substep_p2g_prefix exp_at_zero svd_of_diagonal 1
               (substep_zero_out (one_particle JELLY))).
    - vm_compute. discriminate.
    - rewrite n_particles_value. lia.
    - intros q Hq. cbn. unfold upd.
      destruct (Z.eqb_spec q 0); [lia | reflexivity]. }
  split; [reflexivity|]. split; [exact (one_particle_half_cell_in JELLY)|].
  split; [exact Hm|].
  exact (proj2 (proj2 (proj2
           (zero_mass_node_skipped exp_at_zero svd_of_diagonal gravity
              (one_particle JELLY) band_node eq_refl)))
           (one_particle_half_cell_in JELLY) Hm).
Defined.
